(** * The kqueue event loop of aws-c-io, embedded and verified

    Source: [source/bsd/kqueue_event_loop.c].

    The C functions of the file are translated one by one into a state and
    error monad over a [world] that holds the [kqueue_loop], the heap of
    [handle_data] records, the caller's [aws_io_handle]s and the trace of
    the effects the code has on its surroundings (system calls, callbacks,
    memory releases).  What the surroundings answer (the kernel, the clock,
    the thread library, the allocator) is read from an [Environment]; the
    constants of the headers the file includes are read from a [Platform]. *)

From stdpp Require Import gmap list.
From Stdlib Require Import ZArith Lia.

Local Open Scope Z_scope.
Set Warnings "-register-all".

(** ** Constants of the included headers *)

(** The values of the macros and enumerators that [kqueue_event_loop.c]
    takes from [<sys/event.h>], [<limits.h>], [<assert.h>] and
    [<aws/io/event_loop.h>].  The source only names them, so the
    development is parametric in them. *)
Inductive aws_timestamp_unit : Type :=
| AWS_TIMESTAMP_SECS
| AWS_TIMESTAMP_MILLIS
| AWS_TIMESTAMP_MICROS
| AWS_TIMESTAMP_NANOS.

Class Platform : Type := {
  (** [<assert.h>]: when set, [assert] expands to nothing. *)
  NDEBUG : bool;
  (** aws-c-common's build flag guarding the extra check of
      [s_wait_for_stop_completion]. *)
  DEBUG_BUILD : bool;
  LONG_MAX : Z;
  EV_ADD : Z;
  EV_DELETE : Z;
  EV_RECEIPT : Z;
  EV_EOF : Z;
  EV_ERROR : Z;
  EVFILT_READ : Z;
  EVFILT_WRITE : Z;
  AWS_IO_EVENT_TYPE_READABLE : Z;
  AWS_IO_EVENT_TYPE_WRITABLE : Z;
  AWS_IO_EVENT_TYPE_CLOSED : Z;
  AWS_IO_EVENT_TYPE_ERROR : Z;
  (** [<aws/common/clock.h>]:
      [aws_timestamp_convert timestamp convert_from convert_to remainder]
      gives the converted value and the content of [*remainder] after the
      call, [remainder] being its content before. *)
  aws_timestamp_convert : Z -> aws_timestamp_unit -> aws_timestamp_unit -> Z -> Z * Z;
}.

(** [flags & bit], as a C condition. *)
Definition has_flag (flags bit : Z) : bool := negb (Z.land flags bit =? 0).

(** What the headers guarantee about the event-type enumerators and the two
    filters: four non-empty, pairwise disjoint bit masks, two different
    filters, and a positive [LONG_MAX]. *)
Definition platform_ok (P : Platform) : bool :=
  negb (AWS_IO_EVENT_TYPE_READABLE =? 0) && negb (AWS_IO_EVENT_TYPE_WRITABLE =? 0) &&
  negb (AWS_IO_EVENT_TYPE_CLOSED =? 0) && negb (AWS_IO_EVENT_TYPE_ERROR =? 0) &&
  (Z.land AWS_IO_EVENT_TYPE_READABLE AWS_IO_EVENT_TYPE_WRITABLE =? 0) &&
  (Z.land AWS_IO_EVENT_TYPE_READABLE AWS_IO_EVENT_TYPE_CLOSED =? 0) &&
  (Z.land AWS_IO_EVENT_TYPE_READABLE AWS_IO_EVENT_TYPE_ERROR =? 0) &&
  (Z.land AWS_IO_EVENT_TYPE_WRITABLE AWS_IO_EVENT_TYPE_CLOSED =? 0) &&
  (Z.land AWS_IO_EVENT_TYPE_WRITABLE AWS_IO_EVENT_TYPE_ERROR =? 0) &&
  (Z.land AWS_IO_EVENT_TYPE_CLOSED AWS_IO_EVENT_TYPE_ERROR =? 0) &&
  negb (EVFILT_READ =? EVFILT_WRITE) &&
  (0 <? LONG_MAX).

(** The enumerators of [enum aws_timestamp_unit] are the number of units in
    a second. *)
Definition units_per_second (u : aws_timestamp_unit) : Z :=
  match u with
  | AWS_TIMESTAMP_SECS => 1
  | AWS_TIMESTAMP_MILLIS => 1000
  | AWS_TIMESTAMP_MICROS => 1000000
  | AWS_TIMESTAMP_NANOS => 1000000000
  end.

(** The inline function of aws-c-common's [<aws/common/clock.h>], on
    [uint64_t]: towards a finer unit it multiplies and leaves [*remainder]
    alone, towards a coarser unit it divides and stores the rest. *)
Definition clock_h_timestamp_convert
    (timestamp : Z) (convert_from convert_to : aws_timestamp_unit) (remainder : Z) : Z * Z :=
  let from := units_per_second convert_from in
  let to := units_per_second convert_to in
  if from <? to then ((timestamp * (to / from)) mod 2 ^ 64, remainder)
  else if to <? from then (timestamp / (from / to), timestamp mod (from / to))
  else (timestamp, remainder).

(** The values on a 64-bit BSD or Darwin system. *)
Definition bsd64 (ndebug : bool) : Platform := {|
  NDEBUG := ndebug;
  DEBUG_BUILD := negb ndebug;
  LONG_MAX := 9223372036854775807;
  EV_ADD := 1;
  EV_DELETE := 2;
  EV_RECEIPT := 64;
  EV_EOF := 32768;
  EV_ERROR := 16384;
  EVFILT_READ := -1;
  EVFILT_WRITE := -2;
  AWS_IO_EVENT_TYPE_READABLE := 1;
  AWS_IO_EVENT_TYPE_WRITABLE := 2;
  AWS_IO_EVENT_TYPE_CLOSED := 8;
  AWS_IO_EVENT_TYPE_ERROR := 16;
  aws_timestamp_convert := clock_h_timestamp_convert;
|}.

(** ** Data model *)

(** Addresses of heap records and of the caller's handles. *)
Abbreviation addr := nat.

(** [pthread] identities. *)
Abbreviation thread_id_t := Z.

Inductive event_thread_state : Type :=
| EVENT_THREAD_STATE_READY_TO_RUN
| EVENT_THREAD_STATE_RUNNING
| EVENT_THREAD_STATE_STOPPING.

Definition event_thread_state_eqb (a b : event_thread_state) : bool :=
  match a, b with
  | EVENT_THREAD_STATE_READY_TO_RUN, EVENT_THREAD_STATE_READY_TO_RUN => true
  | EVENT_THREAD_STATE_RUNNING, EVENT_THREAD_STATE_RUNNING => true
  | EVENT_THREAD_STATE_STOPPING, EVENT_THREAD_STATE_STOPPING => true
  | _, _ => false
  end.

Inductive aws_task_status : Type :=
| AWS_TASK_STATUS_RUN_READY
| AWS_TASK_STATUS_CANCELED.

(** [AWS_OP_SUCCESS] and [AWS_OP_ERR]. *)
Inductive aws_op : Type :=
| AWS_OP_SUCCESS
| AWS_OP_ERR.

(** [struct kevent]. [udata] is [None] for a null pointer. *)
Record kevent_t : Type := EV_SET {
  ident : Z;
  filter : Z;
  flags : Z;
  fflags : Z;
  data : Z;
  udata : option addr;
}.

Definition set_flags (fl : Z) (k : kevent_t) : kevent_t :=
  EV_SET (ident k) (filter k) fl (fflags k) (data k) (udata k).

(** [struct timespec]. *)
Record timespec : Type := mk_timespec {
  tv_sec : Z;
  tv_nsec : Z;
}.

(** [struct aws_task]: the callback, its argument and the [timestamp] slot.
    The two callbacks of this file take the address of a [handle_data] as
    their argument.  A task of the user is an opaque callback; what the
    loop can see of it is its identity and the tasks it hands back to the
    loop when it is run, or when it is cancelled. *)
Inductive aws_task : Type :=
| SubscribeTask (arg : addr) (timestamp : Z)
| UnsubscribeTask (arg : addr) (timestamp : Z)
| UserTask (id : nat) (timestamp : Z)
           (on_run_ready : list aws_task) (on_canceled : list aws_task).

Definition timestamp_of (t : aws_task) : Z :=
  match t with
  | SubscribeTask _ ts => ts
  | UnsubscribeTask _ ts => ts
  | UserTask _ ts _ _ => ts
  end.

Definition set_timestamp (ts : Z) (t : aws_task) : aws_task :=
  match t with
  | SubscribeTask a _ => SubscribeTask a ts
  | UnsubscribeTask a _ => UnsubscribeTask a ts
  | UserTask i _ r c => UserTask i ts r c
  end.

(** The tasks a user callback schedules, by the status it is called with. *)
Definition rescheduled (t : aws_task) (status : aws_task_status) : list aws_task :=
  match t with
  | UserTask _ _ r c =>
      match status with
      | AWS_TASK_STATUS_RUN_READY => r
      | AWS_TASK_STATUS_CANCELED => c
      end
  | _ => []
  end.

(** [struct handle_data]; the two embedded tasks are [SubscribeTask] and
    [UnsubscribeTask] at the record's address. *)
Record handle_data : Type := mk_handle_data {
  owner : addr;
  on_event : nat;
  on_event_user_data : Z;
  events_subscribed : Z;
  events_this_loop : Z;
  kevent_added_successfully : bool;
}.

Definition set_events_this_loop (e : Z) (d : handle_data) : handle_data :=
  mk_handle_data (owner d) (on_event d) (on_event_user_data d)
    (events_subscribed d) e (kevent_added_successfully d).

Definition set_kevent_added_successfully (b : bool) (d : handle_data) : handle_data :=
  mk_handle_data (owner d) (on_event d) (on_event_user_data d)
    (events_subscribed d) (events_this_loop d) b.

(** [struct aws_io_handle]: the descriptor and [additional_data]. *)
Record aws_io_handle : Type := mk_io_handle {
  fd : Z;
  additional_data : option addr;
}.

(** ** Event flag translation *)

Section Flags.
Context {P : Platform}.

Definition s_aws_event_flags_from_kevent (kevent : kevent_t) : Z :=
  let event_flags := 0 in
  if has_flag (flags kevent) EV_ERROR then
    Z.lor event_flags AWS_IO_EVENT_TYPE_ERROR
  else if filter kevent =? EVFILT_READ then
    let event_flags :=
      if negb (data kevent =? 0) then Z.lor event_flags AWS_IO_EVENT_TYPE_READABLE
      else event_flags in
    if has_flag (flags kevent) EV_EOF then Z.lor event_flags AWS_IO_EVENT_TYPE_CLOSED
    else event_flags
  else if filter kevent =? EVFILT_WRITE then
    let event_flags :=
      if negb (data kevent =? 0) then Z.lor event_flags AWS_IO_EVENT_TYPE_WRITABLE
      else event_flags in
    if has_flag (flags kevent) EV_EOF then Z.lor event_flags AWS_IO_EVENT_TYPE_CLOSED
    else event_flags
  else event_flags.
End Flags.

(** ** The task scheduler *)

(** Modelled from the spec: the task scheduler of aws-c-common (an external
    collaborator, [<aws/common/task_scheduler.h>]).  It holds immediate
    tasks and timed tasks; [schedule_now] and [schedule_future] add to them,
    [next_deadline] reports the nearest deadline if any task is held,
    [run_all] dequeues every immediate task and every timed task whose
    deadline is at most [now] in a stable order, tasks enqueued while it
    runs being deferred to the next invocation, and [cancel_all] invokes
    each held task with the cancellation marker. *)
Record aws_task_scheduler : Type := mk_scheduler {
  asap_list : list aws_task;
  timed_list : list aws_task;
}.

Definition empty_scheduler : aws_task_scheduler := mk_scheduler [] [].

Definition aws_task_scheduler_schedule_now
    (s : aws_task_scheduler) (t : aws_task) : aws_task_scheduler :=
  mk_scheduler (asap_list s ++ [set_timestamp 0 t]) (timed_list s).

(** Insertion after the tasks that are due no later (stable order). *)
Fixpoint insert_by_deadline (t : aws_task) (l : list aws_task) : list aws_task :=
  match l with
  | [] => [t]
  | u :: l' =>
      if timestamp_of u <=? timestamp_of t then u :: insert_by_deadline t l'
      else t :: l
  end.

Definition aws_task_scheduler_schedule_future
    (s : aws_task_scheduler) (t : aws_task) (time_to_run : Z) : aws_task_scheduler :=
  mk_scheduler (asap_list s) (insert_by_deadline (set_timestamp time_to_run t) (timed_list s)).

(** [None] when no task is held; an immediate task is due at once. *)
Definition aws_task_scheduler_has_tasks (s : aws_task_scheduler) : option Z :=
  match asap_list s, timed_list s with
  | _ :: _, _ => Some 0
  | [], t :: _ => Some (timestamp_of t)
  | [], [] => None
  end.

Definition is_due (now : Z) (t : aws_task) : bool := timestamp_of t <=? now.

(** The tasks [run_all] dequeues, and the scheduler it leaves behind. *)
Definition due_tasks (s : aws_task_scheduler) (now : Z) : list aws_task :=
  asap_list s ++ List.filter (is_due now) (timed_list s).

Definition after_dequeue (s : aws_task_scheduler) (now : Z) : aws_task_scheduler :=
  mk_scheduler [] (List.filter (fun t => negb (is_due now t)) (timed_list s)).

(** The tasks [cancel_all] invokes. *)
Definition held_tasks (s : aws_task_scheduler) : list aws_task :=
  asap_list s ++ timed_list s.

(** ** The loop and its surroundings *)

(** The anonymous struct [cross_thread_data] of [struct kqueue_loop]. *)
Module Cross.
Record t : Type := mk {
  thread_signaled : bool;
  tasks_to_schedule : list aws_task;
  state : event_thread_state;
}.
End Cross.

(** The anonymous struct [thread_data] of [struct kqueue_loop]. *)
Module Private.
Record t : Type := mk {
  scheduler : aws_task_scheduler;
  connected_handle_count : Z;
  state : event_thread_state;
}.
End Private.

(** [struct kqueue_loop]. [thread] is the identity of the event thread,
    [pipe_read_fd] the descriptor of [cross_thread_signal_pipe_read]. *)
Record kqueue_loop : Type := mk_kqueue_loop {
  thread : thread_id_t;
  kq_fd : Z;
  pipe_read_fd : Z;
  cross_thread_data : Cross.t;
  thread_data : Private.t;
}.

(** What the code does to its surroundings, in the order it does it. *)
Inductive effect : Type :=
| E_mutex_lock
| E_mutex_unlock
| E_pipe_write
| E_pipe_drain
| E_kevent (changelist : list kevent_t) (nevents : nat) (timeout : option timespec)
| E_on_event (hd : addr) (handle : addr) (events : Z) (user_data : Z)
| E_task_fn (task : aws_task) (status : aws_task_status)
| E_mem_release (a : addr)
| E_raise_error
| E_thread_launch
| E_thread_join
| E_clock
| E_mutex_clean_up
| E_clean_up.

Record world : Type := mk_world {
  impl : kqueue_loop;
  heap : gmap addr handle_data;
  handles : gmap addr aws_io_handle;
  trace : list effect;
}.

(** The answers of the kernel, the clock, the thread library and the
    allocator, each a function of everything that happened so far. *)
Class Environment : Type := {
  (** [kevent()]: [None] for -1, otherwise the events written to the event list. *)
  env_kevent : world -> list kevent_t -> nat -> option timespec -> option (list kevent_t);
  (** [event_loop->clock]: [None] when it fails, leaving its argument untouched. *)
  env_clock : world -> option Z;
  (** the error codes of [aws_thread_launch] and [aws_thread_join] *)
  env_thread_launch : world -> Z;
  env_thread_join : world -> Z;
  (** whether [aws_mem_acquire] finds memory *)
  env_mem_acquire : world -> bool;
}.

(** ** The monad of the embedding *)

Inductive outcome (A : Type) : Type :=
| Returned (a : A) (w : world)
| Aborted (w : world)
| Undefined
| OutOfFuel.
Arguments Returned {A} a w.
Arguments Aborted {A} w.
Arguments Undefined {A}.
Arguments OutOfFuel {A}.

Definition M (A : Type) : Type := world -> outcome A.

Definition ret {A : Type} (a : A) : M A := fun w => Returned a w.

Definition bind {A B : Type} (m : M A) (k : A -> M B) : M B :=
  fun w =>
    match m w with
    | Returned a w' => k a w'
    | Aborted w' => Aborted w'
    | Undefined => Undefined
    | OutOfFuel => OutOfFuel
    end.

Notation "'let*' x ':=' c1 'in' c2" := (bind c1 (fun x => c2))
  (at level 10, x name, c1 at level 100, c2 at level 200).
Notation "'let*' ' pat ':=' c1 'in' c2" := (bind c1 (fun x => match x with pat => c2 end))
  (at level 10, pat pattern, c1 at level 100, c2 at level 200).
Notation "c1 ';;' c2" := (bind c1 (fun _ => c2))
  (at level 100, c2 at level 200, right associativity).

Definition get : M world := fun w => Returned w w.
Definition put (w' : world) : M unit := fun _ => Returned tt w'.
Definition undefined {A : Type} : M A := fun _ => Undefined.

Definition when (b : bool) (m : M unit) : M unit := if b then m else ret tt.

Fixpoint for_each {A : Type} (f : A -> M unit) (l : list A) : M unit :=
  match l with
  | [] => ret tt
  | x :: l' => f x;; for_each f l'
  end.

Definition log (e : effect) : M unit :=
  fun w => Returned tt (mk_world (impl w) (heap w) (handles w) (trace w ++ [e])).

Definition modify_impl (f : kqueue_loop -> kqueue_loop) : M unit :=
  fun w => Returned tt (mk_world (f (impl w)) (heap w) (handles w) (trace w)).

Definition modify_heap (f : gmap addr handle_data -> gmap addr handle_data) : M unit :=
  fun w => Returned tt (mk_world (impl w) (f (heap w)) (handles w) (trace w)).

Definition modify_handles (f : gmap addr aws_io_handle -> gmap addr aws_io_handle) : M unit :=
  fun w => Returned tt (mk_world (impl w) (heap w) (f (handles w)) (trace w)).

(** Field updates of [kqueue_loop]. *)
Definition with_cross (f : Cross.t -> Cross.t) (l : kqueue_loop) : kqueue_loop :=
  mk_kqueue_loop (thread l) (kq_fd l) (pipe_read_fd l) (f (cross_thread_data l)) (thread_data l).

Definition with_private (f : Private.t -> Private.t) (l : kqueue_loop) : kqueue_loop :=
  mk_kqueue_loop (thread l) (kq_fd l) (pipe_read_fd l) (cross_thread_data l) (f (thread_data l)).

Definition set_cross_state (s : event_thread_state) (c : Cross.t) : Cross.t :=
  Cross.mk (Cross.thread_signaled c) (Cross.tasks_to_schedule c) s.

Definition set_thread_signaled (b : bool) (c : Cross.t) : Cross.t :=
  Cross.mk b (Cross.tasks_to_schedule c) (Cross.state c).

Definition set_tasks_to_schedule (q : list aws_task) (c : Cross.t) : Cross.t :=
  Cross.mk (Cross.thread_signaled c) q (Cross.state c).

Definition set_private_state (s : event_thread_state) (p : Private.t) : Private.t :=
  Private.mk (Private.scheduler p) (Private.connected_handle_count p) s.

Definition set_scheduler (s : aws_task_scheduler) (p : Private.t) : Private.t :=
  Private.mk s (Private.connected_handle_count p) (Private.state p).

Definition set_connected_handle_count (n : Z) (p : Private.t) : Private.t :=
  Private.mk (Private.scheduler p) n (Private.state p).

(** The value of a C [int] expression, wrapped to 32 bits. *)
Definition wrap_int (z : Z) : Z := (z + 2147483648) mod 4294967296 - 2147483648.

(** Dereference of a [struct handle_data *]. *)
Definition load_handle_data (a : addr) : M handle_data :=
  fun w => match heap w !! a with
           | Some d => Returned d w
           | None => Undefined
           end.

Definition store_handle_data (a : addr) (d : handle_data) : M unit :=
  modify_heap (fun h => <[a := d]> h).

(** Dereference of a [struct aws_io_handle *]. *)
Definition load_handle (a : addr) : M aws_io_handle :=
  fun w => match handles w !! a with
           | Some h => Returned h w
           | None => Undefined
           end.

(** ** The functions of [kqueue_event_loop.c] *)

Definition DEFAULT_TIMEOUT_SEC : Z := 100.
Definition MAX_EVENTS : nat := 100.

Definition add_effect (e : effect) (w : world) : world :=
  mk_world (impl w) (heap w) (handles w) (trace w ++ [e]).

(** What the clock returns and leaves in [now_ns] when it answers [r]. *)
Definition clock_answer (now_ns : Z) (r : option Z) : Z * Z :=
  match r with
  | Some t => (0, t)
  | None => (1, now_ns)
  end.

(** What [kevent()] returns and writes to an event list of [nevents]
    entries when the kernel answers [r]: -1, or the number of events and
    the events, at most [nevents] of them. *)
Definition kevent_answer (nevents : nat) (r : option (list kevent_t)) : Z * list kevent_t :=
  match r with
  | None => (-1, [])
  | Some evs => (Z.of_nat (length (take nevents evs)), take nevents evs)
  end.

Section Loop.
Context {P : Platform} {E : Environment}.

(** [assert(b)]: nothing under [NDEBUG], [abort()] when [b] is false. *)
Definition c_assert (b : bool) : M unit :=
  fun w => if NDEBUG || b then Returned tt w else Aborted w.

Definition aws_mutex_lock : M unit := log E_mutex_lock.
Definition aws_mutex_unlock : M unit := log E_mutex_unlock.
Definition aws_raise_error : M unit := log E_raise_error.

(** [kevent(kq_fd, changelist, nchanges, eventlist, nevents, timeout)]. *)
Definition kevent (changelist : list kevent_t) (nevents : nat)
    (timeout : option timespec) : M (Z * list kevent_t) :=
  fun w =>
    Returned (kevent_answer nevents (env_kevent w changelist nevents timeout))
      (add_effect (E_kevent changelist nevents timeout) w).

(** [event_loop->clock(&now_ns)]: the error code and the content of
    [now_ns] after the call. *)
Definition clock (now_ns : Z) : M (Z * Z) :=
  fun w => Returned (clock_answer now_ns (env_clock w)) (add_effect E_clock w).

Definition aws_thread_launch : M Z :=
  fun w => Returned (env_thread_launch w) (add_effect E_thread_launch w).

Definition aws_thread_join : M Z :=
  fun w => Returned (env_thread_join w) (add_effect E_thread_join w).

(** [aws_mem_acquire] for a [struct handle_data]: a null pointer, or an
    address that is not in use. *)
Definition aws_mem_acquire : M (option addr) :=
  fun w => if env_mem_acquire w then Returned (Some (fresh (dom (heap w)))) w
           else Returned None w.

Definition aws_mem_release (a : addr) : M unit :=
  modify_heap (delete a);; log (E_mem_release a).

(** The callback of the subscription record at [a] is called. *)
Definition call_on_event (a : addr) (events : Z) : M unit :=
  let* handle_data := load_handle_data a in
  log (E_on_event a (owner handle_data) events (on_event_user_data handle_data)).

Definition s_run : M aws_op :=
  let* w := get in
  c_assert (event_thread_state_eqb (Cross.state (cross_thread_data (impl w)))
              EVENT_THREAD_STATE_READY_TO_RUN);;
  c_assert (event_thread_state_eqb (Private.state (thread_data (impl w)))
              EVENT_THREAD_STATE_READY_TO_RUN);;
  modify_impl (with_cross (set_cross_state EVENT_THREAD_STATE_RUNNING));;
  let* err := aws_thread_launch in
  if negb (err =? 0) then
    modify_impl (with_cross (set_cross_state EVENT_THREAD_STATE_READY_TO_RUN));;
    ret AWS_OP_ERR
  else ret AWS_OP_SUCCESS.

Definition signal_cross_thread_data_changed : M unit := log E_pipe_write.

Definition s_stop : M aws_op :=
  aws_mutex_lock;;
  let* w := get in
  let* signal_thread :=
    (if event_thread_state_eqb (Cross.state (cross_thread_data (impl w)))
          EVENT_THREAD_STATE_RUNNING
     then
       modify_impl (with_cross (set_cross_state EVENT_THREAD_STATE_STOPPING));;
       modify_impl (with_cross (set_thread_signaled true));;
       ret (negb (Cross.thread_signaled (cross_thread_data (impl w))))
     else ret false) in
  aws_mutex_unlock;;
  when signal_thread signal_cross_thread_data_changed;;
  ret AWS_OP_SUCCESS.

Definition s_wait_for_stop_completion : M aws_op :=
  when DEBUG_BUILD
    (aws_mutex_lock;;
     let* w := get in
     c_assert (negb (event_thread_state_eqb (Cross.state (cross_thread_data (impl w)))
                       EVENT_THREAD_STATE_RUNNING));;
     aws_mutex_unlock);;
  let* err := aws_thread_join in
  if negb (err =? 0) then ret AWS_OP_ERR
  else
    modify_impl (with_cross (set_cross_state EVENT_THREAD_STATE_READY_TO_RUN));;
    modify_impl (with_private (set_private_state EVENT_THREAD_STATE_READY_TO_RUN));;
    ret AWS_OP_SUCCESS.

(** [caller] is [aws_thread_current_thread_id()].  The assertion of the
    source is on the detach state that the thread library keeps for the
    thread, which the world does not hold. *)
Definition s_is_event_thread (caller : thread_id_t) : M bool :=
  let* w := get in ret (caller =? thread (impl w)).

Definition s_schedule_task_common (caller : thread_id_t) (task : aws_task)
    (run_at_nanos : Z) : M unit :=
  let* on_thread := s_is_event_thread caller in
  if on_thread then
    if run_at_nanos =? 0 then
      modify_impl (with_private (fun p =>
        set_scheduler (aws_task_scheduler_schedule_now (Private.scheduler p) task) p))
    else
      modify_impl (with_private (fun p =>
        set_scheduler
          (aws_task_scheduler_schedule_future (Private.scheduler p) task run_at_nanos) p))
  else
    let task := set_timestamp run_at_nanos task in
    aws_mutex_lock;;
    modify_impl (with_cross (fun c =>
      set_tasks_to_schedule (Cross.tasks_to_schedule c ++ [task]) c));;
    let* w := get in
    let should_signal_thread := negb (Cross.thread_signaled (cross_thread_data (impl w))) in
    when should_signal_thread (modify_impl (with_cross (set_thread_signaled true)));;
    aws_mutex_unlock;;
    when should_signal_thread signal_cross_thread_data_changed.

Definition s_schedule_task_now (caller : thread_id_t) (task : aws_task) : M unit :=
  s_schedule_task_common caller task 0.

Definition s_schedule_task_future (caller : thread_id_t) (task : aws_task)
    (run_at_nanos : Z) : M unit :=
  s_schedule_task_common caller task run_at_nanos.

(** The change list both tasks build: one entry per subscribed filter. *)
Definition changelist_for (arg : addr) (handle_data : handle_data) (descriptor : Z)
    (fl : Z) : list kevent_t :=
  (if has_flag (events_subscribed handle_data) AWS_IO_EVENT_TYPE_READABLE
   then [EV_SET descriptor EVFILT_READ fl 0 0 (Some arg)] else []) ++
  (if has_flag (events_subscribed handle_data) AWS_IO_EVENT_TYPE_WRITABLE
   then [EV_SET descriptor EVFILT_WRITE fl 0 0 (Some arg)] else []).

(** The first loop over the receipts: [false] at the first one that
    carries an error code. *)
Fixpoint all_receipts_succeeded (receipts : list kevent_t) : M bool :=
  match receipts with
  | [] => ret true
  | r :: rest =>
      c_assert (has_flag (flags r) EV_ERROR);;
      if negb (data r =? 0) then ret false else all_receipts_succeeded rest
  end.

(** The label [subscribe_failed]; [receipts] are the first [num_events]
    entries of [changelist]. *)
Definition subscribe_failed (arg : addr) (receipts : list kevent_t) : M unit :=
  let* handle_data := load_handle_data arg in
  store_handle_data arg (set_kevent_added_successfully false handle_data);;
  for_each (fun r =>
    when (data r =? 0) (let* _ := kevent [set_flags EV_DELETE r] 0 None in ret tt))
    receipts;;
  aws_raise_error;;
  call_on_event arg AWS_IO_EVENT_TYPE_ERROR.

Definition s_subscribe_task (arg : addr) (status : aws_task_status) : M unit :=
  modify_impl (with_private (fun p =>
    set_connected_handle_count (wrap_int (Private.connected_handle_count p + 1)) p));;
  match status with
  | AWS_TASK_STATUS_CANCELED => ret tt
  | AWS_TASK_STATUS_RUN_READY =>
      let* handle_data := load_handle_data arg in
      let* owner_handle := load_handle (owner handle_data) in
      let changelist :=
        changelist_for arg handle_data (fd owner_handle) (Z.lor EV_ADD EV_RECEIPT) in
      let changelist_size := length changelist in
      let* '(num_events, receipts) := kevent changelist changelist_size None in
      if num_events =? -1 then subscribe_failed arg []
      else
        let* ok := all_receipts_succeeded receipts in
        if ok then
          let* handle_data := load_handle_data arg in
          store_handle_data arg (set_kevent_added_successfully true handle_data)
        else subscribe_failed arg receipts
  end.

(** The loop and the callback are values here, so the assertions that
    they are not null have nothing to check; the three others are kept. *)
Definition s_subscribe_to_io_events (caller : thread_id_t) (handle : addr) (events : Z)
    (on_event : nat) (user_data : Z) : M aws_op :=
  let* h := load_handle handle in
  c_assert (negb (fd h =? -1));;
  c_assert (negb (bool_decide (is_Some (additional_data h))));;
  c_assert (has_flag events (Z.lor AWS_IO_EVENT_TYPE_READABLE AWS_IO_EVENT_TYPE_WRITABLE));;
  let* p := aws_mem_acquire in
  match p with
  | None => ret AWS_OP_ERR
  | Some a =>
      store_handle_data a (mk_handle_data handle on_event user_data events 0 false);;
      modify_handles (fun hs => <[handle := mk_io_handle (fd h) (Some a)]> hs);;
      s_schedule_task_now caller (SubscribeTask a 0);;
      ret AWS_OP_SUCCESS
  end.

Definition s_unsubscribe_task (arg : addr) (status : aws_task_status) : M unit :=
  modify_impl (with_private (fun p =>
    set_connected_handle_count (wrap_int (Private.connected_handle_count p - 1)) p));;
  match status with
  | AWS_TASK_STATUS_RUN_READY =>
      let* handle_data := load_handle_data arg in
      if kevent_added_successfully handle_data then
        let* owner_handle := load_handle (owner handle_data) in
        let changelist := changelist_for arg handle_data (fd owner_handle) EV_DELETE in
        let* _ := kevent changelist 0 None in ret tt
      else ret tt
  | AWS_TASK_STATUS_CANCELED => ret tt
  end;;
  aws_mem_release arg.

Definition s_unsubscribe_from_io_events (caller : thread_id_t) (handle : addr) : M aws_op :=
  let* h := load_handle handle in
  c_assert (bool_decide (is_Some (additional_data h)));;
  match additional_data h with
  | None => undefined
  | Some a =>
      modify_handles (fun hs => <[handle := mk_io_handle (fd h) None]> hs);;
      s_schedule_task_now caller (UnsubscribeTask a 0);;
      ret AWS_OP_SUCCESS
  end.

(** [task->fn(task, task->arg, status)], on the thread [caller].  A user
    callback hands its tasks back through [schedule_task_now] or
    [schedule_task_future], by their [timestamp]. *)
Definition call_task_fn (caller : thread_id_t) (task : aws_task)
    (status : aws_task_status) : M unit :=
  log (E_task_fn task status);;
  match task with
  | SubscribeTask arg _ => s_subscribe_task arg status
  | UnsubscribeTask arg _ => s_unsubscribe_task arg status
  | UserTask _ _ _ _ =>
      for_each (fun t => s_schedule_task_common caller t (timestamp_of t))
        (rescheduled task status)
  end.

(** Modelled from the spec: [run_all(now)] of the task scheduler, called
    on the event thread. *)
Definition aws_task_scheduler_run_all (now : Z) : M unit :=
  let* w := get in
  let s := Private.scheduler (thread_data (impl w)) in
  modify_impl (with_private (set_scheduler (after_dequeue s now)));;
  for_each (fun t => call_task_fn (thread (impl w)) t AWS_TASK_STATUS_RUN_READY)
    (due_tasks s now).

(** Modelled from the spec: [cancel_all] of the task scheduler. *)
Definition aws_task_scheduler_clean_up (caller : thread_id_t) : M unit :=
  let* w := get in
  let s := Private.scheduler (thread_data (impl w)) in
  modify_impl (with_private (set_scheduler empty_scheduler));;
  for_each (fun t => call_task_fn caller t AWS_TASK_STATUS_CANCELED) (held_tasks s).

(** The [while] loop of [s_destroy] over [tasks_to_schedule]; [fuel]
    bounds the number of its iterations. *)
Fixpoint cancel_tasks_to_schedule (fuel : nat) (caller : thread_id_t) : M unit :=
  fun w =>
    match Cross.tasks_to_schedule (cross_thread_data (impl w)) with
    | [] => Returned tt w
    | task :: rest =>
        match fuel with
        | O => OutOfFuel
        | S fuel' =>
            (modify_impl (with_cross (set_tasks_to_schedule rest));;
             call_task_fn caller task AWS_TASK_STATUS_CANCELED;;
             cancel_tasks_to_schedule fuel' caller) w
        end
    end.

(** [s_destroy], called on the thread [caller]; [fuel] is for the drain of
    the inbox.  What follows the assertion on [connected_handle_count]
    releases the loop's own resources. *)
Definition s_destroy (fuel : nat) (caller : thread_id_t) : M unit :=
  s_stop;;
  let* err := s_wait_for_stop_completion in
  match err with
  | AWS_OP_ERR => c_assert false;; ret tt
  | AWS_OP_SUCCESS =>
      aws_task_scheduler_clean_up caller;;
      cancel_tasks_to_schedule fuel caller;;
      let* w := get in
      c_assert (Private.connected_handle_count (thread_data (impl w)) =? 0);;
      log E_mutex_clean_up;;
      let* w := get in
      let* _ := kevent [EV_SET (pipe_read_fd (impl w)) EVFILT_READ EV_DELETE 0 0 None]
                  0 None in
      log E_clean_up
  end.

Definition s_process_tasks_to_schedule (tasks_to_schedule : list aws_task) : M unit :=
  for_each (fun task =>
    if timestamp_of task =? 0 then
      modify_impl (with_private (fun p =>
        set_scheduler (aws_task_scheduler_schedule_now (Private.scheduler p) task) p))
    else
      modify_impl (with_private (fun p =>
        set_scheduler
          (aws_task_scheduler_schedule_future (Private.scheduler p) task (timestamp_of task))
          p)))
    tasks_to_schedule.

Definition s_process_cross_thread_data : M unit :=
  aws_mutex_lock;;
  modify_impl (with_cross (set_thread_signaled false));;
  let* w := get in
  let initiate_stop :=
    event_thread_state_eqb (Cross.state (cross_thread_data (impl w)))
      EVENT_THREAD_STATE_STOPPING &&
    event_thread_state_eqb (Private.state (thread_data (impl w)))
      EVENT_THREAD_STATE_RUNNING in
  when initiate_stop
    (modify_impl (with_private (set_private_state EVENT_THREAD_STATE_STOPPING)));;
  let tasks_to_schedule := Cross.tasks_to_schedule (cross_thread_data (impl w)) in
  modify_impl (with_cross (set_tasks_to_schedule []));;
  aws_mutex_unlock;;
  s_process_tasks_to_schedule tasks_to_schedule.

(** One turn of the first [for] loop of [s_event_thread_main]:
    [io_handle_events] is the array of that name with its
    [num_io_handle_events] entries. *)
Definition process_kevent (kevent : kevent_t) (acc : list addr * bool)
    : M (list addr * bool) :=
  let '(io_handle_events, should_process_cross_thread_data) := acc in
  let* w := get in
  if ident kevent =? pipe_read_fd (impl w) then
    log E_pipe_drain;;
    ret (io_handle_events, true)
  else
    let event_flags := s_aws_event_flags_from_kevent kevent in
    if event_flags =? 0 then ret acc
    else
      match udata kevent with
      | None => undefined
      | Some a =>
          let* handle_data := load_handle_data a in
          let io_handle_events :=
            if events_this_loop handle_data =? 0 then io_handle_events ++ [a]
            else io_handle_events in
          store_handle_data a
            (set_events_this_loop (Z.lor (events_this_loop handle_data) event_flags)
               handle_data);;
          ret (io_handle_events, should_process_cross_thread_data)
      end.

Fixpoint process_kevents (kevents : list kevent_t) (acc : list addr * bool)
    : M (list addr * bool) :=
  match kevents with
  | [] => ret acc
  | kevent :: rest =>
      let* acc' := process_kevent kevent acc in
      process_kevents rest acc'
  end.

(** One turn of the second [for] loop: the callback, then the reset. *)
Definition invoke_handle_callback (a : addr) : M unit :=
  let* handle_data := load_handle_data a in
  call_on_event a (events_this_loop handle_data);;
  let* handle_data := load_handle_data a in
  store_handle_data a (set_events_this_loop 0 handle_data).

(** Both [for] loops over the events one [kevent()] call returned. *)
Definition dispatch_kevents (kevents : list kevent_t) (should : bool) : M bool :=
  let* '(io_handle_events, should) := process_kevents kevents ([], should) in
  for_each invoke_handle_callback io_handle_events;;
  ret should.

(** [(time_t)] and [(long)] of a [uint64_t]. *)
Definition to_long (z : Z) : Z :=
  (z + (LONG_MAX + 1)) mod (2 * (LONG_MAX + 1)) - (LONG_MAX + 1).

(** The end of the loop body, from "Set timeout for next kevent() call":
    [err] and [now_ns] come from the clock, [has_tasks] from
    [aws_task_scheduler_has_tasks]. *)
Definition next_timeout (err : Z) (now_ns : Z) (has_tasks : option Z) : timespec :=
  let use_default_timeout := false in
  let use_default_timeout := if negb (err =? 0) then true else use_default_timeout in
  let use_default_timeout :=
    match has_tasks with None => true | Some _ => use_default_timeout end in
  match use_default_timeout, has_tasks with
  | false, Some next_run_time_ns =>
      let timeout_ns :=
        if next_run_time_ns >? now_ns then next_run_time_ns - now_ns else 0 in
      let timeout_remainder_ns := 0 in
      let '(timeout_sec, timeout_remainder_ns) :=
        aws_timestamp_convert timeout_ns AWS_TIMESTAMP_SECS AWS_TIMESTAMP_NANOS
          timeout_remainder_ns in
      let '(timeout_sec, timeout_remainder_ns) :=
        if timeout_sec >? LONG_MAX then (LONG_MAX, 0)
        else (timeout_sec, timeout_remainder_ns) in
      mk_timespec (to_long timeout_sec) (to_long timeout_remainder_ns)
  | _, _ => mk_timespec DEFAULT_TIMEOUT_SEC 0
  end.

Definition set_next_timeout (now_ns : Z) : M timespec :=
  let* '(err, now_ns) := clock now_ns in
  let* w := get in
  ret (next_timeout err now_ns
         (aws_task_scheduler_has_tasks (Private.scheduler (thread_data (impl w))))).

(** The body of the [while] loop of [s_event_thread_main]. *)
Definition event_thread_iteration (timeout : timespec) : M timespec :=
  let* '(num_kevents, kevents) := kevent [] MAX_EVENTS (Some timeout) in
  let* should_process_cross_thread_data :=
    (if num_kevents =? -1 then aws_raise_error;; ret true else ret false) in
  let* should_process_cross_thread_data :=
    dispatch_kevents kevents should_process_cross_thread_data in
  when should_process_cross_thread_data s_process_cross_thread_data;;
  let* '(_, now_ns) := clock 0 in
  aws_task_scheduler_run_all now_ns;;
  set_next_timeout now_ns.

(** The [while] loop; [fuel] bounds the number of its iterations. *)
Fixpoint event_thread_loop (fuel : nat) (timeout : timespec) : M unit :=
  fun w =>
    if event_thread_state_eqb (Private.state (thread_data (impl w)))
         EVENT_THREAD_STATE_RUNNING
    then
      match fuel with
      | O => OutOfFuel
      | S fuel' =>
          (let* timeout' := event_thread_iteration timeout in
           event_thread_loop fuel' timeout') w
      end
    else Returned tt w.

Definition s_event_thread_main (fuel : nat) : M unit :=
  let* w := get in
  c_assert (event_thread_state_eqb (Private.state (thread_data (impl w)))
              EVENT_THREAD_STATE_READY_TO_RUN);;
  modify_impl (with_private (set_private_state EVENT_THREAD_STATE_RUNNING));;
  event_thread_loop fuel (mk_timespec DEFAULT_TIMEOUT_SEC 0).
End Loop.

(** ** Vocabulary of the statements *)

(** The world with one of the two copies of the lifecycle state replaced. *)
Definition with_cross_state (s : event_thread_state) (w : world) : world :=
  mk_world (with_cross (set_cross_state s) (impl w)) (heap w) (handles w) (trace w).

Definition with_private_state (s : event_thread_state) (w : world) : world :=
  mk_world (with_private (set_private_state s) (impl w)) (heap w) (handles w) (trace w).

Definition cross_state (w : world) : event_thread_state :=
  Cross.state (cross_thread_data (impl w)).

Definition private_state (w : world) : event_thread_state :=
  Private.state (thread_data (impl w)).

Definition connected_handle_count (w : world) : Z :=
  Private.connected_handle_count (thread_data (impl w)).

Definition tasks_to_schedule (w : world) : list aws_task :=
  Cross.tasks_to_schedule (cross_thread_data (impl w)).

Definition scheduler (w : world) : aws_task_scheduler :=
  Private.scheduler (thread_data (impl w)).

Definition add_effects (es : list effect) (w : world) : world :=
  mk_world (impl w) (heap w) (handles w) (trace w ++ es).

(** The world with [connected_handle_count] moved by [delta], as a C [int]. *)
Definition with_handle_count_moved (delta : Z) (w : world) : world :=
  mk_world
    (with_private (fun p =>
       set_connected_handle_count (wrap_int (Private.connected_handle_count p + delta)) p)
       (impl w))
    (heap w) (handles w) (trace w).

Definition with_heap (h : gmap addr handle_data) (w : world) : world :=
  mk_world (impl w) h (handles w) (trace w).

(** A kernel delete of the registration a receipt reports. *)
Definition delete_of_receipt {P : Platform} (r : kevent_t) : effect :=
  E_kevent [set_flags EV_DELETE r] 0 None.

Definition receipt_succeeded (r : kevent_t) : bool := data r =? 0.

(** The callbacks to subscribers in a trace. *)
Definition is_on_event (e : effect) : bool :=
  match e with E_on_event _ _ _ _ => true | _ => false end.

Definition on_event_calls (tr : list effect) : list effect := List.filter is_on_event tr.

(** [Q] holds of the world a run ended in, by a return or by an abort. *)
Definition ends_with {A : Type} (o : outcome A) (Q : world -> Prop) : Prop :=
  match o with
  | Returned _ w' => Q w'
  | Aborted w' => Q w'
  | Undefined => True
  | OutOfFuel => True
  end.

(** [m] leaves the component [f] of the world alone, however it ends. *)
Definition preserves {X A : Type} (f : world -> X) (m : M A) : Prop :=
  forall w, ends_with (m w) (fun w' => f w' = f w).

(** The receipts a subscribe task finds in its change list after the call. *)
Definition receipts_of (nevents : nat) (answer : option (list kevent_t)) : list kevent_t :=
  snd (kevent_answer nevents answer).

(** The registration succeeded: the submission did, and every receipt. *)
Definition registration_succeeded (nevents : nat) (answer : option (list kevent_t)) : bool :=
  match answer with
  | None => false
  | Some _ => forallb receipt_succeeded (receipts_of nevents answer)
  end.

(** The world an unsubscribe task leaves, [extra] being what it submitted
    to the kernel. *)
Definition unsubscribed (arg : addr) (extra : list effect) (w : world) : world :=
  mk_world (impl (with_handle_count_moved (-1) w)) (delete arg (heap w)) (handles w)
    (trace w ++ extra ++ [E_mem_release arg]).

Definition INT_MIN : Z := -2147483648.
Definition INT_MAX : Z := 2147483647.

Section Parts.
Context {P : Platform} {E : Environment}.

(** What [s_subscribe_task] does after the increment. *)
Definition subscribe_task_rest (arg : addr) (status : aws_task_status) : M unit :=
  match status with
  | AWS_TASK_STATUS_CANCELED => ret tt
  | AWS_TASK_STATUS_RUN_READY =>
      let* handle_data := load_handle_data arg in
      let* owner_handle := load_handle (owner handle_data) in
      let changelist :=
        changelist_for arg handle_data (fd owner_handle) (Z.lor EV_ADD EV_RECEIPT) in
      let changelist_size := length changelist in
      let* '(num_events, receipts) := kevent changelist changelist_size None in
      if num_events =? -1 then subscribe_failed arg []
      else
        let* ok := all_receipts_succeeded receipts in
        if ok then
          let* handle_data := load_handle_data arg in
          store_handle_data arg (set_kevent_added_successfully true handle_data)
        else subscribe_failed arg receipts
  end.

(** What [s_unsubscribe_task] does after the decrement. *)
Definition unsubscribe_task_rest (arg : addr) (status : aws_task_status) : M unit :=
  match status with
  | AWS_TASK_STATUS_RUN_READY =>
      let* handle_data := load_handle_data arg in
      if kevent_added_successfully handle_data then
        let* owner_handle := load_handle (owner handle_data) in
        let changelist := changelist_for arg handle_data (fd owner_handle) EV_DELETE in
        let* _ := kevent changelist 0 None in ret tt
      else ret tt
  | AWS_TASK_STATUS_CANCELED => ret tt
  end;;
  aws_mem_release arg.

End Parts.

(** The callback of the record at [a] with the flags accumulated in [h]. *)
Definition pending_callback (h : gmap addr handle_data) (a : addr) : list effect :=
  match h !! a with
  | Some d => [E_on_event a (owner d) (events_this_loop d) (on_event_user_data d)]
  | None => []
  end.

Section DispatchVocabulary.
Context {P : Platform}.

(** What a kernel event contributes to the callback of a handle: nothing
    when it comes from the signal pipe, its translation otherwise. *)
Definition io_flags (pipe_fd : Z) (kevent : kevent_t) : Z :=
  if ident kevent =? pipe_fd then 0 else s_aws_event_flags_from_kevent kevent.

(** The bitwise union of what the events carrying the record address [a]
    contribute. *)
Fixpoint flags_of_handle (pipe_fd : Z) (a : addr) (kevents : list kevent_t) : Z :=
  match kevents with
  | [] => 0
  | kevent :: rest =>
      Z.lor (if bool_decide (udata kevent = Some a) then io_flags pipe_fd kevent else 0)
            (flags_of_handle pipe_fd a rest)
  end.

(** Every accumulator is empty, as at the start of an iteration. *)
Definition quiescent (h : gmap addr handle_data) : Prop :=
  map_Forall (fun _ d => events_this_loop d = 0) h.

(** Every event that contributes carries the address of a live record. *)
Definition addressed (pipe_fd : Z) (h : gmap addr handle_data)
    (kevents : list kevent_t) : Prop :=
  Forall (fun kevent =>
    io_flags pipe_fd kevent <> 0 -> exists a, udata kevent = Some a /\ is_Some (h !! a))
    kevents.

(** The callback of the record at [a], with the flags of this iteration. *)
Definition callback_of (pipe_fd : Z) (h : gmap addr handle_data)
    (kevents : list kevent_t) (a : addr) : list effect :=
  match h !! a with
  | Some d =>
      [E_on_event a (owner d) (flags_of_handle pipe_fd a kevents) (on_event_user_data d)]
  | None => []
  end.

(** The array [io_handle_events] agrees with the accumulators: it lists,
    once each, the records whose accumulator is not empty. *)
Definition listed (h : gmap addr handle_data) (io_handle_events : list addr) : Prop :=
  NoDup io_handle_events /\
  forall a, a ∈ io_handle_events <-> exists d, h !! a = Some d /\ events_this_loop d <> 0.
End DispatchVocabulary.



(** The task callbacks in a trace, with the status they were called with. *)
Definition task_calls (tr : list effect) : list (aws_task * aws_task_status) :=
  List.flat_map
    (fun e => match e with E_task_fn t s => [(t, s)] | _ => [] end) tr.

Definition canceled (l : list aws_task) : list (aws_task * aws_task_status) :=
  map (fun t => (t, AWS_TASK_STATUS_CANCELED)) l.


(** What [s_stop] and [s_wait_for_stop_completion] leave alone. *)
Definition task_frame (w : world) : thread_id_t * Z * aws_task_scheduler * list aws_task *
    Z * gmap addr handle_data * gmap addr aws_io_handle :=
  (thread (impl w), pipe_read_fd (impl w), scheduler w, tasks_to_schedule w,
   connected_handle_count w, heap w, handles w).


(** ** Scenarios

    Concrete surroundings and worlds, used to run the functions above. *)

(** Surroundings that always give the same answers. *)
Definition constant_env (events : option (list kevent_t)) (now : option Z)
    (launch_err join_err : Z) (memory : bool) : Environment := {|
  env_kevent := fun _ _ _ _ => events;
  env_clock := fun _ => now;
  env_thread_launch := fun _ => launch_err;
  env_thread_join := fun _ => join_err;
  env_mem_acquire := fun _ => memory;
|}.

(** A kernel with nothing to report, a clock at 0, and no failures. *)
Definition quiet_env : Environment := constant_env (Some []) (Some 0) 0 0 true.

Definition mk_loop (c : Cross.t) (p : Private.t) : kqueue_loop :=
  mk_kqueue_loop 1 3 4 c p.

(** The loop as [aws_event_loop_new_default] leaves it. *)
Definition new_loop : kqueue_loop :=
  mk_loop (Cross.mk false [] EVENT_THREAD_STATE_READY_TO_RUN)
          (Private.mk empty_scheduler 0 EVENT_THREAD_STATE_READY_TO_RUN).

Definition new_world : world := mk_world new_loop ∅ ∅ [].

(** The handle at address 7, on descriptor 5, subscribed for both filters
    through the record at address 1; [registered] says whether the kernel
    holds its registrations. *)
Definition subscribed_world (registered : bool) : world :=
  mk_world new_loop
    {[ 1%nat := mk_handle_data 7 0 0 3 0 registered ]}
    {[ 7%nat := mk_io_handle 5 (Some 1%nat) ]}
    [].




(** A running loop with work left: the scheduler holds a task that hands
    another task to the loop when it is cancelled, the inbox holds a
    third. *)
Definition pending_world : world :=
  mk_world
    (mk_loop (Cross.mk false [UserTask 3 0 [] []] EVENT_THREAD_STATE_RUNNING)
       (Private.mk (mk_scheduler [UserTask 1 0 [] [UserTask 2 0 [] []]] []) 0
          EVENT_THREAD_STATE_RUNNING))
    ∅ ∅ [].

(** The world a run ended in. *)
Definition world_of {A : Type} (o : outcome A) (otherwise : world) : world :=
  match o with
  | Returned _ w => w
  | Aborted w => w
  | Undefined => otherwise
  | OutOfFuel => otherwise
  end.

(** [pending_world] after [s_stop], and after the join that follows. *)
Definition pending_world_stopped : world :=
  Eval vm_compute in world_of (s_stop pending_world) pending_world.


(** A kernel that accepts the read registration of that handle and refuses
    the write registration with error 9. *)
Definition half_refusing_env : Environment :=
  constant_env
    (Some [EV_SET 5 (-1) 16384 0 0 (Some 1%nat); EV_SET 5 (-2) 16384 0 9 (Some 1%nat)])
    (Some 0) 0 0 true.


(** ** Vocabulary of the further properties *)

Definition thread_signaled (w : world) : bool :=
  Cross.thread_signaled (cross_thread_data (impl w)).

(** The world with the inbox's flag and list replaced. *)
Definition with_inbox (signaled : bool) (q : list aws_task) (w : world) : world :=
  mk_world (with_cross (fun c => Cross.mk signaled q (Cross.state c)) (impl w))
    (heap w) (handles w) (trace w).

Definition with_scheduler (s : aws_task_scheduler) (w : world) : world :=
  mk_world (with_private (set_scheduler s) (impl w)) (heap w) (handles w) (trace w).



(** The effects of the hand-off between threads: the mutex and the pipe. *)
Definition is_handoff_effect (e : effect) : bool :=
  match e with
  | E_mutex_lock => true
  | E_mutex_unlock => true
  | E_pipe_write => true
  | _ => false
  end.

(** The effects of the lifecycle calls: the hand-off and the thread library. *)
Definition is_lifecycle_effect (e : effect) : bool :=
  match e with
  | E_thread_launch => true
  | E_thread_join => true
  | _ => is_handoff_effect e
  end.

(** [m] adds only effects that satisfy [ok] to the trace, however it ends. *)
Definition only_emits {A : Type} (ok : effect -> bool) (m : M A) : Prop :=
  forall w,
    ends_with (m w)
      (fun w' => exists extra, trace w' = trace w ++ extra /\ forallb ok extra = true).

Definition is_mutex_effect (e : effect) : bool :=
  match e with
  | E_mutex_lock => true
  | E_mutex_unlock => true
  | _ => false
  end.

(** The effects that leave the mutex alone. *)
Definition is_calm (e : effect) : bool := negb (is_mutex_effect e).

(** Every lock of the mutex in a trace is followed at once by its unlock:
    nothing happens while the mutex is held. *)
Fixpoint critical_sections_bare (tr : list effect) : bool :=
  match tr with
  | [] => true
  | E_mutex_lock :: rest =>
      match rest with
      | E_mutex_unlock :: rest' => critical_sections_bare rest'
      | _ => false
      end
  | E_mutex_unlock :: _ => false
  | _ :: rest => critical_sections_bare rest
  end.

(** Whenever [m] returns, what it has added to the trace holds the mutex
    for bare critical sections only. *)
Definition locks_briefly {A : Type} (m : M A) : Prop :=
  forall w a w',
    m w = Returned a w' ->
    exists extra, trace w' = trace w ++ extra /\ critical_sections_bare extra = true.

Section TeardownVocabulary.
Context {P : Platform}.

(** What a teardown may do: take the mutex, write the pipe, join the
    thread, call task functions, release memory, delete registrations from
    the kernel queue and clean up.  It may not call a subscriber, add a
    registration, wait for events, read the clock, raise an error or launch
    a thread. *)
Definition is_teardown_effect (e : effect) : bool :=
  match e with
  | E_mutex_lock => true
  | E_mutex_unlock => true
  | E_pipe_write => true
  | E_thread_join => true
  | E_task_fn _ _ => true
  | E_mem_release _ => true
  | E_mutex_clean_up => true
  | E_clean_up => true
  | E_kevent changelist nevents timeout =>
      forallb (fun k => flags k =? EV_DELETE) changelist && Nat.eqb nevents 0
  | _ => false
  end.
End TeardownVocabulary.

(** [m] never ends in a failed assertion. *)
Definition never_aborts {A : Type} (m : M A) : Prop :=
  forall w w', m w <> Aborted w'.

(** [m] keeps the invariant [I] of the world, however it ends. *)
Definition keeps {A : Type} (I : world -> Prop) (m : M A) : Prop :=
  forall w, I w -> ends_with (m w) I.



(** The world after [caller] has handed [task] to the loop for immediate
    execution: in the scheduler when [caller] is the event thread, in the
    inbox otherwise, with a write to the pipe when the inbox was not
    signaled yet. *)
Definition queued (caller : thread_id_t) (task : aws_task) (w : world) : world :=
  if caller =? thread (impl w)
  then with_scheduler (aws_task_scheduler_schedule_now (scheduler w) task) w
  else add_effects
         ([E_mutex_lock; E_mutex_unlock] ++
          (if thread_signaled w then [] else [E_pipe_write]))
         (with_inbox true (tasks_to_schedule w ++ [set_timestamp 0 task]) w).

(** The world with the record [d] stored at [a] and the handle pointing to
    it, and the world with the handle pointing nowhere. *)
Definition with_subscription (handle a : addr) (h : aws_io_handle) (d : handle_data)
    (w : world) : world :=
  mk_world (impl w) (<[a := d]> (heap w))
    (<[handle := mk_io_handle (fd h) (Some a)]> (handles w)) (trace w).

Definition without_subscription (handle : addr) (h : aws_io_handle) (w : world) : world :=
  mk_world (impl w) (heap w) (<[handle := mk_io_handle (fd h) None]> (handles w)) (trace w).


(** One turn of the loop of [s_process_tasks_to_schedule], on the scheduler. *)
Definition hand_to_scheduler (s : aws_task_scheduler) (task : aws_task)
    : aws_task_scheduler :=
  if timestamp_of task =? 0 then aws_task_scheduler_schedule_now s task
  else aws_task_scheduler_schedule_future s task (timestamp_of task).

Definition is_now_task (t : aws_task) : bool := timestamp_of t =? 0.

(** The tasks the scheduler holds after the inbox's tasks were handed to
    it, in the order of the inbox. *)
Definition handed_over (w : world) : aws_task_scheduler :=
  fold_left hand_to_scheduler (tasks_to_schedule w) (scheduler w).

(** Whether the event thread, reading the inbox, finds it has to stop. *)
Definition sees_stop (w : world) : bool :=
  event_thread_state_eqb (cross_state w) EVENT_THREAD_STATE_STOPPING &&
  event_thread_state_eqb (private_state w) EVENT_THREAD_STATE_RUNNING.

(** The world with both copies of the lifecycle state set to Ready. *)
Definition back_to_ready (w : world) : world :=
  with_private_state EVENT_THREAD_STATE_READY_TO_RUN
    (with_cross_state EVENT_THREAD_STATE_READY_TO_RUN w).

Section JoinWorld.
Context {P : Platform}.

(** The world in which [s_wait_for_stop_completion] joins the thread: a
    debug build has locked and unlocked the mutex for its check. *)
Definition join_world (w : world) : world :=
  if DEBUG_BUILD then add_effects [E_mutex_lock; E_mutex_unlock] w else w.
End JoinWorld.

(** What an iteration of the event thread leaves alone, the inbox drain
    aside: the thread, the pipe and both copies of the lifecycle state. *)
Definition lifecycle_frame (w : world)
    : thread_id_t * Z * event_thread_state * event_thread_state :=
  (thread (impl w), pipe_read_fd (impl w), cross_state w, private_state w).

(** Whether one of the events is the signal pipe's. *)
Definition reports_pipe (pipe_fd : Z) (kevents : list kevent_t) : bool :=
  existsb (fun k => ident k =? pipe_fd) kevents.

(** Whether a wait that the kernel answers with [answer] makes the event
    thread read the inbox: the wait failed, or it reports the signal pipe. *)
Definition wakes_for_inbox (pipe_fd : Z) (answer : option (list kevent_t)) : bool :=
  match answer with
  | None => true
  | Some evs => reports_pipe pipe_fd (take MAX_EVENTS evs)
  end.

(** ** [aws_event_loop_new_default]

    The constructor runs before there is a loop, so it has a trace of its
    own: the calls it makes, in order. *)

(** What the constructor gets from the allocator, the thread library and
    the kernel, in the order in which it asks: whether memory was found,
    the error codes, the descriptors, the result of [kevent()]. *)
Record new_default_answers : Type := mk_new_default_answers {
  ans_event_loop_mem : bool;
  ans_init_base : Z;
  ans_impl_mem : bool;
  ans_thread_init : Z;
  ans_thread_id : thread_id_t;
  ans_kqueue : Z;
  ans_pipe_open : Z;
  ans_pipe_read_fd : Z;
  ans_signal_kevent : Z;
  ans_mutex_init : Z;
  ans_scheduler_init : Z;
}.

Inductive setup_call : Type :=
| N_mem_acquire_event_loop
| N_event_loop_init_base
| N_mem_acquire_impl
| N_thread_init
| N_kqueue
| N_pipe_open
| N_kevent (change : kevent_t)
| N_mutex_init
| N_task_scheduler_init
| N_raise_error
| N_mutex_clean_up
| N_pipe_close
| N_close (descriptor : Z)
| N_thread_clean_up
| N_mem_release_impl
| N_event_loop_clean_up_base
| N_mem_release_event_loop.

(** The eight booleans [clean_up_...] of the constructor. *)
Record clean_up_flags : Type := mk_clean_up_flags {
  clean_up_event_loop_mem : bool;
  clean_up_event_loop_base : bool;
  clean_up_impl_mem : bool;
  clean_up_thread : bool;
  clean_up_kqueue : bool;
  clean_up_signal_pipe : bool;
  clean_up_signal_kevent : bool;
  clean_up_mutex : bool;
}.

Section NewDefault.
Context {P : Platform}.

(** [thread_signal_kevent], with the flags it has at the time of a call. *)
Definition thread_signal_kevent (ans : new_default_answers) (fl : Z) : kevent_t :=
  EV_SET (ans_pipe_read_fd ans) EVFILT_READ fl 0 0 None.

(** The label [clean_up]. *)
Definition new_default_clean_up (ans : new_default_answers) (f : clean_up_flags)
    : list setup_call :=
  (if clean_up_mutex f then [N_mutex_clean_up] else []) ++
  (if clean_up_signal_kevent f then [N_kevent (thread_signal_kevent ans EV_DELETE)]
   else []) ++
  (if clean_up_signal_pipe f then [N_pipe_close] else []) ++
  (if clean_up_kqueue f then [N_close (ans_kqueue ans)] else []) ++
  (if clean_up_thread f then [N_thread_clean_up] else []) ++
  (if clean_up_impl_mem f then [N_mem_release_impl] else []) ++
  (if clean_up_event_loop_base f then [N_event_loop_clean_up_base] else []) ++
  (if clean_up_event_loop_mem f then [N_mem_release_event_loop] else []).

(** The constructor: the loop it returns, [None] for [NULL], and the calls
    it made.  [AWS_ZERO_STRUCT] gives [connected_handle_count] its 0. *)
Definition aws_event_loop_new_default (ans : new_default_answers)
    : option kqueue_loop * list setup_call :=
  let calls := [N_mem_acquire_event_loop] in
  if negb (ans_event_loop_mem ans) then (None, calls) else
  let f := mk_clean_up_flags true false false false false false false false in
  let calls := calls ++ [N_event_loop_init_base] in
  if negb (ans_init_base ans =? 0) then (None, calls ++ new_default_clean_up ans f) else
  let f := mk_clean_up_flags true true false false false false false false in
  let calls := calls ++ [N_mem_acquire_impl] in
  if negb (ans_impl_mem ans) then (None, calls ++ new_default_clean_up ans f) else
  let f := mk_clean_up_flags true true true false false false false false in
  let calls := calls ++ [N_thread_init] in
  if negb (ans_thread_init ans =? 0) then (None, calls ++ new_default_clean_up ans f) else
  let f := mk_clean_up_flags true true true true false false false false in
  let calls := calls ++ [N_kqueue] in
  if ans_kqueue ans =? -1
  then (None, calls ++ [N_raise_error] ++ new_default_clean_up ans f) else
  let f := mk_clean_up_flags true true true true true false false false in
  let calls := calls ++ [N_pipe_open] in
  if negb (ans_pipe_open ans =? 0) then (None, calls ++ new_default_clean_up ans f) else
  let f := mk_clean_up_flags true true true true true true false false in
  let calls := calls ++ [N_kevent (thread_signal_kevent ans EV_ADD)] in
  if ans_signal_kevent ans =? -1
  then (None, calls ++ [N_raise_error] ++ new_default_clean_up ans f) else
  let f := mk_clean_up_flags true true true true true true true false in
  let calls := calls ++ [N_mutex_init] in
  if negb (ans_mutex_init ans =? 0) then (None, calls ++ new_default_clean_up ans f) else
  let f := mk_clean_up_flags true true true true true true true true in
  let cross := Cross.mk false [] EVENT_THREAD_STATE_READY_TO_RUN in
  let calls := calls ++ [N_task_scheduler_init] in
  if negb (ans_scheduler_init ans =? 0) then (None, calls ++ new_default_clean_up ans f) else
  let private := Private.mk empty_scheduler 0 EVENT_THREAD_STATE_READY_TO_RUN in
  (Some (mk_kqueue_loop (ans_thread_id ans) (ans_kqueue ans) (ans_pipe_read_fd ans)
           cross private),
   calls).

(** The calls that acquire something, in the order of the constructor, and
    the call that gives each of them back. *)
Definition acquisitions (ans : new_default_answers) : list setup_call :=
  [N_mem_acquire_event_loop; N_event_loop_init_base; N_mem_acquire_impl; N_thread_init;
   N_kqueue; N_pipe_open; N_kevent (thread_signal_kevent ans EV_ADD); N_mutex_init].

Definition release_of (ans : new_default_answers) (c : setup_call) : list setup_call :=
  match c with
  | N_mem_acquire_event_loop => [N_mem_release_event_loop]
  | N_event_loop_init_base => [N_event_loop_clean_up_base]
  | N_mem_acquire_impl => [N_mem_release_impl]
  | N_thread_init => [N_thread_clean_up]
  | N_kqueue => [N_close (ans_kqueue ans)]
  | N_pipe_open => [N_pipe_close]
  | N_kevent k => [N_kevent (set_flags EV_DELETE k)]
  | N_mutex_init => [N_mutex_clean_up]
  | _ => []
  end.

(** Every answer is a success. *)
Definition all_granted (ans : new_default_answers) : bool :=
  ans_event_loop_mem ans && (ans_init_base ans =? 0) && ans_impl_mem ans &&
  (ans_thread_init ans =? 0) && negb (ans_kqueue ans =? -1) && (ans_pipe_open ans =? 0) &&
  negb (ans_signal_kevent ans =? -1) && (ans_mutex_init ans =? 0) &&
  (ans_scheduler_init ans =? 0).
End NewDefault.

(** Answers that grant everything: thread 1, kqueue 3, pipe 4; and the
    same with a kernel that refuses the registration of the pipe. *)
Definition granted_answers : new_default_answers :=
  mk_new_default_answers true 0 true 0 1 3 0 4 0 0 0.

Definition pipe_refused_answers : new_default_answers :=
  mk_new_default_answers true 0 true 0 1 3 0 4 (-1) 0 0.

(** * Verification *)

(** ** Event flag translation *)

Section FlagFacts.
Context {P : Platform}.

Lemma has_flag_true (fl bit : Z) : has_flag fl bit = true <-> Z.land fl bit <> 0.
Proof.
  unfold has_flag. rewrite negb_true_iff, Z.eqb_neq. reflexivity.
Qed.

Lemma has_flag_false (fl bit : Z) : has_flag fl bit = false <-> Z.land fl bit = 0.
Proof.
  unfold has_flag. rewrite negb_false_iff, Z.eqb_eq. reflexivity.
Qed.

Lemma has_flag_lor (a b bit : Z) :
  has_flag (Z.lor a b) bit = has_flag a bit || has_flag b bit.
Proof.
  unfold has_flag. rewrite Z.land_lor_distr_l.
  destruct (Z.eqb_spec (Z.land a bit) 0) as [Ha|Ha];
    destruct (Z.eqb_spec (Z.land b bit) 0) as [Hb|Hb]; simpl;
    rewrite ?negb_true_iff, ?negb_false_iff, ?Z.eqb_eq, ?Z.eqb_neq, Z.lor_eq_0_iff;
    tauto.
Qed.

Lemma has_flag_0 (bit : Z) : has_flag 0 bit = false.
Proof. unfold has_flag. rewrite Z.land_0_l. reflexivity. Qed.

Lemma has_flag_self (bit : Z) : bit <> 0 -> has_flag bit bit = true.
Proof. intros H. apply has_flag_true. rewrite Z.land_diag. exact H. Qed.

Lemma has_flag_disjoint (a b : Z) : Z.land a b = 0 -> has_flag a b = false.
Proof. intros H. apply has_flag_false. exact H. Qed.

Lemma has_flag_disjoint_sym (a b : Z) : Z.land a b = 0 -> has_flag b a = false.
Proof. intros H. apply has_flag_false. rewrite Z.land_comm. exact H. Qed.
End FlagFacts.

(** The twelve facts of [platform_ok], one by one. *)
Lemma platform_ok_elim (P : Platform) :
  platform_ok P = true ->
  (AWS_IO_EVENT_TYPE_READABLE <> 0 /\ AWS_IO_EVENT_TYPE_WRITABLE <> 0 /\
   AWS_IO_EVENT_TYPE_CLOSED <> 0 /\ AWS_IO_EVENT_TYPE_ERROR <> 0) /\
  (Z.land AWS_IO_EVENT_TYPE_READABLE AWS_IO_EVENT_TYPE_WRITABLE = 0 /\
   Z.land AWS_IO_EVENT_TYPE_READABLE AWS_IO_EVENT_TYPE_CLOSED = 0 /\
   Z.land AWS_IO_EVENT_TYPE_READABLE AWS_IO_EVENT_TYPE_ERROR = 0 /\
   Z.land AWS_IO_EVENT_TYPE_WRITABLE AWS_IO_EVENT_TYPE_CLOSED = 0 /\
   Z.land AWS_IO_EVENT_TYPE_WRITABLE AWS_IO_EVENT_TYPE_ERROR = 0 /\
   Z.land AWS_IO_EVENT_TYPE_CLOSED AWS_IO_EVENT_TYPE_ERROR = 0) /\
  EVFILT_READ <> EVFILT_WRITE /\ 0 < LONG_MAX.
Proof.
  unfold platform_ok. intros H.
  repeat (apply andb_true_iff in H; destruct H as [H ?]).
  repeat match goal with
         | H : negb _ = true |- _ => apply negb_true_iff in H
         | H : (_ =? _) = true |- _ => apply Z.eqb_eq in H
         | H : (_ =? _) = false |- _ => apply Z.eqb_neq in H
         | H : (_ <? _) = true |- _ => apply Z.ltb_lt in H
         end.
  tauto.
Qed.

(** C5. For every kernel event the translation gives [ERROR] alone when the
    event carries the error marker; otherwise, for the readable filter,
    [READABLE] exactly when the payload is non-zero together with [CLOSED]
    exactly when the end-of-file flag is set, and nothing else; and the same
    for the writable filter with [WRITABLE] in the place of [READABLE]. *)
Theorem event_flags_from_kevent_correct (P : Platform) (kevent : kevent_t) :
  platform_ok P = true ->
  let event_flags := s_aws_event_flags_from_kevent kevent in
  (has_flag (flags kevent) EV_ERROR = true ->
     event_flags = AWS_IO_EVENT_TYPE_ERROR) /\
  (has_flag (flags kevent) EV_ERROR = false -> filter kevent = EVFILT_READ ->
     event_flags =
       Z.lor (if data kevent =? 0 then 0 else AWS_IO_EVENT_TYPE_READABLE)
             (if has_flag (flags kevent) EV_EOF then AWS_IO_EVENT_TYPE_CLOSED else 0) /\
     (has_flag event_flags AWS_IO_EVENT_TYPE_READABLE = true <-> data kevent <> 0) /\
     (has_flag event_flags AWS_IO_EVENT_TYPE_CLOSED = true <->
        has_flag (flags kevent) EV_EOF = true) /\
     has_flag event_flags AWS_IO_EVENT_TYPE_WRITABLE = false /\
     has_flag event_flags AWS_IO_EVENT_TYPE_ERROR = false) /\
  (has_flag (flags kevent) EV_ERROR = false -> filter kevent = EVFILT_WRITE ->
     event_flags =
       Z.lor (if data kevent =? 0 then 0 else AWS_IO_EVENT_TYPE_WRITABLE)
             (if has_flag (flags kevent) EV_EOF then AWS_IO_EVENT_TYPE_CLOSED else 0) /\
     (has_flag event_flags AWS_IO_EVENT_TYPE_WRITABLE = true <-> data kevent <> 0) /\
     (has_flag event_flags AWS_IO_EVENT_TYPE_CLOSED = true <->
        has_flag (flags kevent) EV_EOF = true) /\
     has_flag event_flags AWS_IO_EVENT_TYPE_READABLE = false /\
     has_flag event_flags AWS_IO_EVENT_TYPE_ERROR = false).
Proof.
  intros Hok.
  destruct (platform_ok_elim P Hok)
    as [(HR & HW & HC & HE) [(HRW & HRC & HRE & HWC & HWE & HCE) [Hfilt _]]].
  pose proof (has_flag_self _ HR) as HRs. pose proof (has_flag_self _ HW) as HWs.
  pose proof (has_flag_self _ HC) as HCs.
  pose proof (has_flag_disjoint _ _ HRW) as D1. pose proof (has_flag_disjoint_sym _ _ HRW) as D2.
  pose proof (has_flag_disjoint _ _ HRC) as D3. pose proof (has_flag_disjoint_sym _ _ HRC) as D4.
  pose proof (has_flag_disjoint _ _ HRE) as D5. pose proof (has_flag_disjoint _ _ HWC) as D6.
  pose proof (has_flag_disjoint_sym _ _ HWC) as D7. pose proof (has_flag_disjoint _ _ HWE) as D8.
  pose proof (has_flag_disjoint _ _ HCE) as D9.
  cbv zeta. unfold s_aws_event_flags_from_kevent.
  split; [|split].
  - intros ->. apply Z.lor_0_l.
  - intros -> Hf. rewrite Hf, Z.eqb_refl.
    destruct (Z.eqb_spec (data kevent) 0) as [Hd|Hd];
      destruct (has_flag (flags kevent) EV_EOF); cbn [negb];
      rewrite ?has_flag_lor, ?has_flag_0, ?Z.lor_0_l, ?Z.lor_0_r,
        ?HRs, ?HCs, ?D1, ?D3, ?D4, ?D5, ?D6, ?D9, ?has_flag_0;
      cbn [orb]; repeat split; try reflexivity; try tauto; try discriminate;
      intros; congruence.
  - intros -> Hf. rewrite Hf, Z.eqb_refl.
    assert ((EVFILT_WRITE =? EVFILT_READ) = false) as -> by (apply Z.eqb_neq; congruence).
    destruct (Z.eqb_spec (data kevent) 0) as [Hd|Hd];
      destruct (has_flag (flags kevent) EV_EOF); cbn [negb];
      rewrite ?has_flag_lor, ?has_flag_0, ?Z.lor_0_l, ?Z.lor_0_r,
        ?HWs, ?HCs, ?D2, ?D6, ?D7, ?D8, ?D4, ?D9, ?has_flag_0;
      cbn [orb]; repeat split; try reflexivity; try tauto; try discriminate;
      intros; congruence.
Qed.

(** A readable event with 12 bytes pending and end-of-file, on BSD. *)
Lemma event_flags_from_kevent_correct_witness :
  platform_ok (bsd64 false) = true /\
  @s_aws_event_flags_from_kevent (bsd64 false) (EV_SET 7 (-1) 32768 0 12 (Some 1%nat)) = 9.
Proof.
  split; [reflexivity|].
  pose proof (event_flags_from_kevent_correct (bsd64 false)
                (EV_SET 7 (-1) 32768 0 12 (Some 1%nat)) eq_refl) as H.
  destruct H as [_ [H _]].
  destruct (H eq_refl eq_refl) as [Heq _].
  exact Heq.
Defined.

(** ** Lifecycle: [s_run] and [s_stop] *)

Create HintDb m_unfold.
#[local] Hint Unfold bind ret get put log modify_impl modify_heap modify_handles when
  c_assert aws_mutex_lock aws_mutex_unlock aws_raise_error aws_thread_launch
  aws_thread_join signal_cross_thread_data_changed add_effect : m_unfold.

Ltac run_m := autounfold with m_unfold; cbn.

Lemma event_thread_state_eqb_eq (a b : event_thread_state) :
  event_thread_state_eqb a b = true <-> a = b.
Proof. destruct a, b; cbn; split; congruence. Qed.

Lemma event_thread_state_eqb_neq (a b : event_thread_state) :
  event_thread_state_eqb a b = false <-> a <> b.
Proof. destruct a, b; cbn; split; congruence. Qed.


(** C3, amended. [s_run] asserts that both copies of the state are Ready: a
    debug build aborts when one is not, a release build does not look.  It
    then writes the inbox copy only, so the thread is spawned in a world
    whose inbox copy is Running and whose thread-private copy is untouched;
    the event thread sets its own copy to Running when it starts.  When the
    spawn fails [s_run] returns an error with the inbox copy back at
    Ready. *)
Theorem s_run_correct (P : Platform) (E : Environment) (w : world) :
  let ready :=
    event_thread_state_eqb (cross_state w) EVENT_THREAD_STATE_READY_TO_RUN &&
    event_thread_state_eqb (private_state w) EVENT_THREAD_STATE_READY_TO_RUN in
  let spawn_world := with_cross_state EVENT_THREAD_STATE_RUNNING w in
  (NDEBUG = false -> ready = false -> s_run w = Aborted w) /\
  (NDEBUG || ready = true ->
     cross_state spawn_world = EVENT_THREAD_STATE_RUNNING /\
     private_state spawn_world = private_state w /\
     (env_thread_launch spawn_world = 0 ->
        s_run w = Returned AWS_OP_SUCCESS (add_effect E_thread_launch spawn_world)) /\
     (env_thread_launch spawn_world <> 0 ->
        s_run w = Returned AWS_OP_ERR
                    (add_effect E_thread_launch
                       (with_cross_state EVENT_THREAD_STATE_READY_TO_RUN w)))) /\
  (forall fuel : nat,
     private_state w = EVENT_THREAD_STATE_READY_TO_RUN ->
     s_event_thread_main fuel w =
       event_thread_loop fuel (mk_timespec DEFAULT_TIMEOUT_SEC 0)
         (with_private_state EVENT_THREAD_STATE_RUNNING w)).
Proof.
  destruct w as [[th kq pr [sig q st] [sch n pst]] hp hs tr].
  unfold cross_state, private_state, with_cross_state, with_private_state. cbn.
  split; [|split].
  - intros Hn Hr. unfold s_run. run_m. rewrite Hn. cbn.
    destruct st; cbn in *; try reflexivity.
    destruct pst; cbn in *; try reflexivity. discriminate.
  - intros Hr. split; [reflexivity|]. split; [reflexivity|].
    unfold s_run. run_m.
    assert (Hst : NDEBUG || event_thread_state_eqb st EVENT_THREAD_STATE_READY_TO_RUN = true).
    { destruct NDEBUG; [reflexivity|]. cbn in *. apply andb_true_iff in Hr. tauto. }
    assert (Hpst : NDEBUG || event_thread_state_eqb pst EVENT_THREAD_STATE_READY_TO_RUN = true).
    { destruct NDEBUG; [reflexivity|]. cbn in *. apply andb_true_iff in Hr. tauto. }
    rewrite Hst. cbn. rewrite Hpst. cbn.
    split; intros Hl.
    + rewrite Hl. reflexivity.
    + apply Z.eqb_neq in Hl. rewrite Hl. reflexivity.
  - intros fuel ->. unfold s_event_thread_main. run_m.
    rewrite orb_true_r. reflexivity.
Qed.

(** A new loop is started, in a debug build, by a thread library that
    spawns the thread. *)
Lemma s_run_correct_witness :
  @s_run (bsd64 false) quiet_env new_world =
    Returned AWS_OP_SUCCESS
      (add_effect E_thread_launch (with_cross_state EVENT_THREAD_STATE_RUNNING new_world)).
Proof.
  destruct (s_run_correct (bsd64 false) quiet_env new_world) as [_ [H _]].
  destruct (H eq_refl) as (_ & _ & Hok & _).
  exact (Hok eq_refl).
Defined.

(** C3 as stated fails: after [s_run] has spawned the thread of a new loop
    the thread-private copy of the state is still Ready, not Running; and a
    release build starts a loop whose state is Stopping instead of
    failing. *)
Lemma s_run_writes_one_copy :
  (exists w',
     @s_run (bsd64 false) quiet_env new_world = Returned AWS_OP_SUCCESS w' /\
     cross_state w' = EVENT_THREAD_STATE_RUNNING /\
     private_state w' = EVENT_THREAD_STATE_READY_TO_RUN) /\
  (exists w',
     @s_run (bsd64 true) quiet_env
        (with_cross_state EVENT_THREAD_STATE_STOPPING new_world) =
       Returned AWS_OP_SUCCESS w').
Proof.
  split; eexists; [split; [reflexivity|split; reflexivity]|reflexivity].
Qed.

(** ** Frame facts of the primitives *)

Section Frames.
Context {P : Platform} {E : Environment}.

Lemma preserves_ret {X A : Type} (f : world -> X) (a : A) : preserves f (ret a).
Proof. intros w. reflexivity. Qed.

Lemma preserves_bind {X A B : Type} (f : world -> X) (m : M A) (k : A -> M B) :
  preserves f m -> (forall a, preserves f (k a)) -> preserves f (bind m k).
Proof.
  intros Hm Hk w. unfold bind. specialize (Hm w).
  destruct (m w) as [a w1| w1| |]; try exact I; try exact Hm.
  specialize (Hk a w1). destruct (k a w1); try exact I; congruence.
Qed.

Lemma preserves_for_each {X A : Type} (f : world -> X) (g : A -> M unit) (l : list A) :
  (forall a, preserves f (g a)) -> preserves f (for_each g l).
Proof.
  intros Hg. induction l as [|a l IH]; cbn [for_each].
  - apply preserves_ret.
  - apply preserves_bind; [apply Hg|intros _; exact IH].
Qed.

Lemma preserves_when {X : Type} (f : world -> X) (b : bool) (m : M unit) :
  preserves f m -> preserves f (when b m).
Proof. intros Hm. destruct b; [exact Hm|apply preserves_ret]. Qed.

Lemma preserves_if {X A : Type} (f : world -> X) (b : bool) (m1 m2 : M A) :
  preserves f m1 -> preserves f m2 -> preserves f (if b then m1 else m2).
Proof. destruct b; tauto. Qed.

Lemma preserves_impl_log (e : effect) : preserves impl (log e).
Proof. intros w. reflexivity. Qed.

Lemma preserves_impl_modify_heap (g : gmap addr handle_data -> gmap addr handle_data) :
  preserves impl (modify_heap g).
Proof. intros w. reflexivity. Qed.

Lemma preserves_impl_load_handle_data (a : addr) : preserves impl (load_handle_data a).
Proof. intros w. unfold load_handle_data. destruct (heap w !! a); reflexivity. Qed.

Lemma preserves_impl_load_handle (a : addr) : preserves impl (load_handle a).
Proof. intros w. unfold load_handle. destruct (handles w !! a); reflexivity. Qed.

Lemma preserves_impl_c_assert (b : bool) : preserves impl (c_assert b).
Proof. intros w. unfold c_assert. destruct (NDEBUG || b); reflexivity. Qed.

Lemma preserves_impl_kevent (cl : list kevent_t) (n : nat) (t : option timespec) :
  preserves impl (kevent cl n t).
Proof. intros w. reflexivity. Qed.

Lemma preserves_impl_call_on_event (a : addr) (ev : Z) : preserves impl (call_on_event a ev).
Proof.
  apply preserves_bind; [apply preserves_impl_load_handle_data|].
  intros d. apply preserves_impl_log.
Qed.

Lemma preserves_impl_all_receipts_succeeded (rs : list kevent_t) :
  preserves impl (all_receipts_succeeded rs).
Proof.
  induction rs as [|r rs IH]; cbn [all_receipts_succeeded].
  - apply preserves_ret.
  - apply preserves_bind; [apply preserves_impl_c_assert|].
    intros _. apply preserves_if; [apply preserves_ret|exact IH].
Qed.

Lemma preserves_impl_subscribe_failed (arg : addr) (rs : list kevent_t) :
  preserves impl (subscribe_failed arg rs).
Proof.
  unfold subscribe_failed.
  apply preserves_bind; [apply preserves_impl_load_handle_data|]. intros d.
  apply preserves_bind; [apply preserves_impl_modify_heap|]. intros _.
  apply preserves_bind.
  { apply preserves_for_each. intros r. apply preserves_when.
    apply preserves_bind; [apply preserves_impl_kevent|]. intros _. apply preserves_ret. }
  intros _. apply preserves_bind; [apply preserves_impl_log|]. intros _.
  apply preserves_impl_call_on_event.
Qed.

Lemma preserves_impl_subscribe_task_rest (arg : addr) (status : aws_task_status) :
  preserves impl (subscribe_task_rest arg status).
Proof.
  destruct status; cbn [subscribe_task_rest]; [|apply preserves_ret].
  apply preserves_bind; [apply preserves_impl_load_handle_data|]. intros d.
  apply preserves_bind; [apply preserves_impl_load_handle|]. intros h.
  apply preserves_bind; [apply preserves_impl_kevent|]. intros [n rs].
  apply preserves_if; [apply preserves_impl_subscribe_failed|].
  apply preserves_bind; [apply preserves_impl_all_receipts_succeeded|]. intros ok.
  apply preserves_if; [|apply preserves_impl_subscribe_failed].
  apply preserves_bind; [apply preserves_impl_load_handle_data|]. intros d'.
  apply preserves_impl_modify_heap.
Qed.

Lemma preserves_impl_unsubscribe_task_rest (arg : addr) (status : aws_task_status) :
  preserves impl (unsubscribe_task_rest arg status).
Proof.
  unfold unsubscribe_task_rest. apply preserves_bind.
  - destruct status; [|apply preserves_ret].
    apply preserves_bind; [apply preserves_impl_load_handle_data|]. intros d.
    apply preserves_if; [|apply preserves_ret].
    apply preserves_bind; [apply preserves_impl_load_handle|]. intros h.
    apply preserves_bind; [apply preserves_impl_kevent|]. intros _. apply preserves_ret.
  - intros _. unfold aws_mem_release.
    apply preserves_bind; [apply preserves_impl_modify_heap|]. intros _.
    apply preserves_impl_log.
Qed.

Lemma s_subscribe_task_unfold (arg : addr) (status : aws_task_status) (w : world) :
  s_subscribe_task arg status w = subscribe_task_rest arg status (with_handle_count_moved 1 w).
Proof. reflexivity. Qed.

Lemma s_unsubscribe_task_unfold (arg : addr) (status : aws_task_status) (w : world) :
  s_unsubscribe_task arg status w =
    unsubscribe_task_rest arg status (with_handle_count_moved (-1) w).
Proof. reflexivity. Qed.
End Frames.

(** ** The subscribe and unsubscribe tasks *)

Section Tasks.
Context {P : Platform} {E : Environment}.

Lemma add_effects_nil (w : world) : add_effects [] w = w.
Proof. destruct w. unfold add_effects. cbn. rewrite app_nil_r. reflexivity. Qed.

Lemma add_effects_app (es1 es2 : list effect) (w : world) :
  add_effects es2 (add_effects es1 w) = add_effects (es1 ++ es2) w.
Proof. unfold add_effects. cbn. rewrite app_assoc. reflexivity. Qed.

Lemma add_effect_effects (e : effect) (w : world) : add_effect e w = add_effects [e] w.
Proof. reflexivity. Qed.

(** The rollback loop submits one delete per receipt that succeeded. *)
Lemma rollback_loop_eq (receipts : list kevent_t) (w : world) :
  for_each (fun r =>
    when (data r =? 0) (let* _ := kevent [set_flags EV_DELETE r] 0 None in ret tt))
    receipts w =
  Returned tt
    (add_effects (map delete_of_receipt (List.filter receipt_succeeded receipts)) w).
Proof.
  revert w. induction receipts as [|r rs IH]; intros w; cbn [for_each List.filter map].
  - rewrite add_effects_nil. reflexivity.
  - unfold bind at 1. unfold receipt_succeeded at 1.
    destruct (data r =? 0); cbn [when].
    + unfold bind at 1. unfold kevent at 1. cbn [ret]. rewrite IH.
      rewrite add_effect_effects, add_effects_app. reflexivity.
    + cbn [ret]. apply IH.
Qed.

(** The first loop over the receipts, when no assertion fails. *)
Lemma all_receipts_succeeded_eq (receipts : list kevent_t) (w : world) :
  NDEBUG = true \/ Forall (fun r => has_flag (flags r) EV_ERROR = true) receipts ->
  all_receipts_succeeded receipts w = Returned (forallb receipt_succeeded receipts) w.
Proof.
  intros H. induction receipts as [|r rs IH]; cbn [all_receipts_succeeded forallb].
  - reflexivity.
  - unfold bind, c_assert.
    assert (Hr : NDEBUG || has_flag (flags r) EV_ERROR = true).
    { destruct H as [->|H]; [reflexivity|]. inversion H; subst.
      apply orb_true_iff. right. assumption. }
    rewrite Hr. unfold receipt_succeeded at 1.
    destruct (data r =? 0); cbn [negb andb]; [|reflexivity].
    apply IH. destruct H as [H|H]; [left; exact H|right]. inversion H; assumption.
Qed.

Lemma subscribe_failed_eq (arg : addr) (receipts : list kevent_t) (w : world)
    (d : handle_data) :
  heap w !! arg = Some d ->
  subscribe_failed arg receipts w =
    Returned tt
      (mk_world (impl w) (<[arg := set_kevent_added_successfully false d]> (heap w))
         (handles w)
         (trace w ++ map delete_of_receipt (List.filter receipt_succeeded receipts) ++
            [E_raise_error;
             E_on_event arg (owner d) AWS_IO_EVENT_TYPE_ERROR (on_event_user_data d)])).
Proof.
  intros Hd. unfold subscribe_failed.
  unfold bind at 1. unfold load_handle_data at 1. rewrite Hd.
  unfold bind at 1. unfold store_handle_data, modify_heap.
  unfold bind at 1. rewrite rollback_loop_eq.
  unfold bind at 1. unfold aws_raise_error, log at 1.
  unfold call_on_event, bind, load_handle_data. cbn.
  rewrite lookup_insert_eq. unfold log. cbn.
  rewrite <- !app_assoc. reflexivity.
Qed.

(** The whole registration attempt of a subscribe task that runs. *)
Lemma subscribe_task_rest_run_ready (arg : addr) (w : world) (d : handle_data)
    (h : aws_io_handle) :
  heap w !! arg = Some d ->
  handles w !! owner d = Some h ->
  let changelist := changelist_for arg d (fd h) (Z.lor EV_ADD EV_RECEIPT) in
  let submit := E_kevent changelist (length changelist) None in
  let failed receipts :=
    mk_world (impl w) (<[arg := set_kevent_added_successfully false d]> (heap w))
      (handles w)
      (trace w ++ [submit] ++
         map delete_of_receipt (List.filter receipt_succeeded receipts) ++
         [E_raise_error;
          E_on_event arg (owner d) AWS_IO_EVENT_TYPE_ERROR (on_event_user_data d)]) in
  match env_kevent w changelist (length changelist) None with
  | None =>
      subscribe_task_rest arg AWS_TASK_STATUS_RUN_READY w = Returned tt (failed [])
  | Some evs =>
      let receipts := take (length changelist) evs in
      NDEBUG = true \/ Forall (fun r => has_flag (flags r) EV_ERROR = true) receipts ->
      subscribe_task_rest arg AWS_TASK_STATUS_RUN_READY w =
        Returned tt
          (if forallb receipt_succeeded receipts then
             mk_world (impl w) (<[arg := set_kevent_added_successfully true d]> (heap w))
               (handles w) (trace w ++ [submit])
           else failed receipts)
  end.
Proof.
  intros Hd Hh. cbv zeta.
  assert (Hstart : forall k : Z * list kevent_t -> M unit,
    (let* handle_data := load_handle_data arg in
     let* owner_handle := load_handle (owner handle_data) in
     let* x := kevent (changelist_for arg handle_data (fd owner_handle)
                         (Z.lor EV_ADD EV_RECEIPT))
                 (length (changelist_for arg handle_data (fd owner_handle)
                            (Z.lor EV_ADD EV_RECEIPT))) None in k x) w =
    k (kevent_answer (length (changelist_for arg d (fd h) (Z.lor EV_ADD EV_RECEIPT)))
         (env_kevent w (changelist_for arg d (fd h) (Z.lor EV_ADD EV_RECEIPT))
            (length (changelist_for arg d (fd h) (Z.lor EV_ADD EV_RECEIPT))) None))
      (add_effect (E_kevent (changelist_for arg d (fd h) (Z.lor EV_ADD EV_RECEIPT))
         (length (changelist_for arg d (fd h) (Z.lor EV_ADD EV_RECEIPT))) None) w)).
  { intros k. unfold bind, load_handle_data, load_handle, kevent. rewrite Hd, Hh.
    reflexivity. }
  cbn [subscribe_task_rest].
  destruct (env_kevent w _ _ None) as [evs|] eqn:Hans.
  - intros Hflag. etransitivity; [apply Hstart|]. cbn [kevent_answer].
    assert (Hne : (Z.of_nat (length (take (length (changelist_for arg d (fd h)
                    (Z.lor EV_ADD EV_RECEIPT))) evs)) =? -1) = false)
      by (apply Z.eqb_neq; lia).
    rewrite Hne. unfold bind at 1. rewrite (all_receipts_succeeded_eq _ _ Hflag).
    destruct (forallb receipt_succeeded _).
    + unfold bind, load_handle_data, store_handle_data, modify_heap. cbn. rewrite Hd.
      reflexivity.
    + etransitivity; [apply (subscribe_failed_eq _ _ _ d); exact Hd|]. cbn.
      rewrite <- !app_assoc. reflexivity.
  - etransitivity; [apply Hstart|]. cbn [kevent_answer]. cbn.
    etransitivity; [apply (subscribe_failed_eq _ _ _ d); exact Hd|]. cbn.
    rewrite <- !app_assoc. reflexivity.
Qed.

(** The unsubscribe task after its decrement. *)
Lemma unsubscribe_task_rest_canceled (arg : addr) (w : world) :
  unsubscribe_task_rest arg AWS_TASK_STATUS_CANCELED w =
    Returned tt
      (mk_world (impl w) (delete arg (heap w)) (handles w) (trace w ++ [E_mem_release arg])).
Proof. reflexivity. Qed.

Lemma unsubscribe_task_rest_run_ready (arg : addr) (w : world) (d : handle_data) :
  heap w !! arg = Some d ->
  (kevent_added_successfully d = false ->
     unsubscribe_task_rest arg AWS_TASK_STATUS_RUN_READY w =
       Returned tt
         (mk_world (impl w) (delete arg (heap w)) (handles w)
            (trace w ++ [E_mem_release arg]))) /\
  (forall h, kevent_added_successfully d = true -> handles w !! owner d = Some h ->
     unsubscribe_task_rest arg AWS_TASK_STATUS_RUN_READY w =
       Returned tt
         (mk_world (impl w) (delete arg (heap w)) (handles w)
            (trace w ++ [E_kevent (changelist_for arg d (fd h) EV_DELETE) 0 None;
                         E_mem_release arg]))).
Proof.
  intros Hd. split.
  - intros Hk. unfold unsubscribe_task_rest, bind, load_handle_data. rewrite Hd, Hk.
    reflexivity.
  - intros h Hk Hh. unfold unsubscribe_task_rest, bind, load_handle_data, load_handle.
    rewrite Hd, Hk. rewrite Hh. cbn. unfold log. cbn. rewrite <- ?app_assoc. reflexivity.
Qed.
End Tasks.

Section TaskClaims.
Context {P : Platform} {E : Environment}.



Lemma changelist_for_spec (arg : addr) (d : handle_data) (descriptor fl : Z) (k : kevent_t) :
  In k (changelist_for arg d descriptor fl) <->
  (has_flag (events_subscribed d) AWS_IO_EVENT_TYPE_READABLE = true /\
   k = EV_SET descriptor EVFILT_READ fl 0 0 (Some arg)) \/
  (has_flag (events_subscribed d) AWS_IO_EVENT_TYPE_WRITABLE = true /\
   k = EV_SET descriptor EVFILT_WRITE fl 0 0 (Some arg)).
Proof.
  unfold changelist_for. rewrite in_app_iff.
  destruct (has_flag (events_subscribed d) AWS_IO_EVENT_TYPE_READABLE);
    destruct (has_flag (events_subscribed d) AWS_IO_EVENT_TYPE_WRITABLE);
    cbn; intuition congruence.
Qed.

Lemma wrap_int_id (z : Z) : INT_MIN <= z <= INT_MAX -> wrap_int z = z.
Proof.
  unfold wrap_int, INT_MIN, INT_MAX. intros H.
  rewrite Z.mod_small by lia. lia.
Qed.

Lemma wrap_int_succ_pred (z : Z) :
  INT_MIN <= z <= INT_MAX -> wrap_int (wrap_int (z + 1) - 1) = z.
Proof.
  unfold wrap_int, INT_MIN, INT_MAX. intros H.
  destruct (Z.eq_dec z 2147483647) as [->|Hne]; [reflexivity|].
  rewrite (Z.mod_small (z + 1 + 2147483648)) by lia.
  rewrite Z.mod_small by lia. lia.
Qed.
End TaskClaims.



(** C7. The unsubscribe task always decrements [connected_handle_count]
    and always releases the subscription record, last; between the two it
    submits one kernel change list, a delete for every subscribed filter,
    exactly when it runs with the normal status and
    [kevent_added_successfully] is true, and nothing otherwise. *)
Theorem s_unsubscribe_task_correct (P : Platform) (E : Environment)
    (arg : addr) (w : world) :
  s_unsubscribe_task arg AWS_TASK_STATUS_CANCELED w = Returned tt (unsubscribed arg [] w) /\
  (forall d,
     heap w !! arg = Some d -> kevent_added_successfully d = false ->
     s_unsubscribe_task arg AWS_TASK_STATUS_RUN_READY w =
       Returned tt (unsubscribed arg [] w)) /\
  (forall d h,
     heap w !! arg = Some d -> kevent_added_successfully d = true ->
     handles w !! owner d = Some h ->
     let changelist := changelist_for arg d (fd h) EV_DELETE in
     s_unsubscribe_task arg AWS_TASK_STATUS_RUN_READY w =
       Returned tt (unsubscribed arg [E_kevent changelist 0 None] w) /\
     forall k,
       In k changelist <->
       (has_flag (events_subscribed d) AWS_IO_EVENT_TYPE_READABLE = true /\
        k = EV_SET (fd h) EVFILT_READ EV_DELETE 0 0 (Some arg)) \/
       (has_flag (events_subscribed d) AWS_IO_EVENT_TYPE_WRITABLE = true /\
        k = EV_SET (fd h) EVFILT_WRITE EV_DELETE 0 0 (Some arg))) /\
  (forall status extra,
     connected_handle_count (unsubscribed arg extra w) =
       wrap_int (connected_handle_count w - 1) /\
     heap (unsubscribed arg extra w) !! arg = None /\
     last (trace (unsubscribed arg extra w)) = Some (E_mem_release arg) /\
     ends_with (s_unsubscribe_task arg status w)
       (fun w' => connected_handle_count w' = wrap_int (connected_handle_count w - 1))).
Proof.
  split; [|split; [|split]].
  - rewrite s_unsubscribe_task_unfold, unsubscribe_task_rest_canceled. reflexivity.
  - intros d Hd Hk. rewrite s_unsubscribe_task_unfold.
    destruct (unsubscribe_task_rest_run_ready arg (with_handle_count_moved (-1) w) d Hd)
      as [H _].
    rewrite (H Hk). reflexivity.
  - intros d h Hd Hk Hh changelist. split; [|apply changelist_for_spec].
    rewrite s_unsubscribe_task_unfold.
    destruct (unsubscribe_task_rest_run_ready arg (with_handle_count_moved (-1) w) d Hd)
      as [_ H].
    rewrite (H h Hk Hh). reflexivity.
  - intros status extra. split; [reflexivity|]. split; [apply lookup_delete_eq|].
    split.
    + cbn. rewrite app_assoc. apply last_snoc.
    + rewrite s_unsubscribe_task_unfold.
      pose proof (preserves_impl_unsubscribe_task_rest arg status
                    (with_handle_count_moved (-1) w)) as Hp.
      unfold ends_with in *.
      destruct (unsubscribe_task_rest arg status (with_handle_count_moved (-1) w));
        try exact I; unfold connected_handle_count; rewrite Hp; reflexivity.
Qed.

(** The registered handle of [subscribed_world] is unsubscribed: both
    filters are deleted from the kernel and the record is released. *)
Lemma s_unsubscribe_task_correct_witness :
  @s_unsubscribe_task (bsd64 false) quiet_env 1%nat AWS_TASK_STATUS_RUN_READY
    (subscribed_world true) =
  Returned tt
    (unsubscribed 1%nat
       [E_kevent [EV_SET 5 (-1) 2 0 0 (Some 1%nat); EV_SET 5 (-2) 2 0 0 (Some 1%nat)]
          0 None]
       (subscribed_world true)).
Proof.
  destruct (s_unsubscribe_task_correct (bsd64 false) quiet_env 1%nat (subscribed_world true))
    as (_ & _ & H & _).
  exact (proj1 (H (mk_handle_data 7 0 0 3 0 true) (mk_io_handle 5 (Some 1%nat))
                  eq_refl eq_refl eq_refl)).
Defined.

(** C9. Every execution of the subscribe task adds one to
    [connected_handle_count] and every execution of the unsubscribe task
    takes one away, whatever the status and however the task ends; a
    cancelled task always completes.  So when both tasks of a handle have
    executed, the count is back where it was. *)
Theorem connected_handle_count_balanced (P : Platform) (E : Environment) (arg : addr) :
  (forall status w,
     ends_with (s_subscribe_task arg status w)
       (fun w' => connected_handle_count w' = wrap_int (connected_handle_count w + 1))) /\
  (forall status w,
     ends_with (s_unsubscribe_task arg status w)
       (fun w' => connected_handle_count w' = wrap_int (connected_handle_count w - 1))) /\
  (forall w,
     exists w', s_subscribe_task arg AWS_TASK_STATUS_CANCELED w = Returned tt w' /\
                connected_handle_count w' = wrap_int (connected_handle_count w + 1)) /\
  (forall w,
     exists w', s_unsubscribe_task arg AWS_TASK_STATUS_CANCELED w = Returned tt w' /\
                connected_handle_count w' = wrap_int (connected_handle_count w - 1)) /\
  (forall status1 status2 w0 w1 w2 w3,
     INT_MIN <= connected_handle_count w0 <= INT_MAX ->
     s_subscribe_task arg status1 w0 = Returned tt w1 ->
     connected_handle_count w2 = connected_handle_count w1 ->
     s_unsubscribe_task arg status2 w2 = Returned tt w3 ->
     connected_handle_count w3 = connected_handle_count w0).
Proof.
  assert (Hsub : forall status w,
    ends_with (s_subscribe_task arg status w)
      (fun w' => connected_handle_count w' = wrap_int (connected_handle_count w + 1))).
  { intros status w. rewrite s_subscribe_task_unfold.
    pose proof (preserves_impl_subscribe_task_rest arg status
                  (with_handle_count_moved 1 w)) as Hp.
    unfold ends_with in *.
    destruct (subscribe_task_rest arg status (with_handle_count_moved 1 w));
      try exact I; unfold connected_handle_count; rewrite Hp; reflexivity. }
  assert (Hunsub : forall status w,
    ends_with (s_unsubscribe_task arg status w)
      (fun w' => connected_handle_count w' = wrap_int (connected_handle_count w - 1))).
  { intros status w. rewrite s_unsubscribe_task_unfold.
    pose proof (preserves_impl_unsubscribe_task_rest arg status
                  (with_handle_count_moved (-1) w)) as Hp.
    unfold ends_with in *.
    destruct (unsubscribe_task_rest arg status (with_handle_count_moved (-1) w));
      try exact I; unfold connected_handle_count; rewrite Hp; reflexivity. }
  split; [exact Hsub|]. split; [exact Hunsub|]. split; [|split].
  - intros w. eexists. split; reflexivity.
  - intros w. eexists. split; reflexivity.
  - intros status1 status2 w0 w1 w2 w3 Hrange H1 H12 H2.
    pose proof (Hsub status1 w0) as A. rewrite H1 in A. cbn in A.
    pose proof (Hunsub status2 w2) as B. rewrite H2 in B. cbn in B.
    rewrite B, H12, A. apply wrap_int_succ_pred. exact Hrange.
Qed.

(** Both tasks of the handle of [subscribed_world] are cancelled, one after
    the other: the count is 0 again. *)
Lemma connected_handle_count_balanced_witness :
  exists w1 w3,
    @s_subscribe_task (bsd64 false) quiet_env 1%nat AWS_TASK_STATUS_CANCELED
      (subscribed_world false) = Returned tt w1 /\
    connected_handle_count w1 = 1 /\
    @s_unsubscribe_task (bsd64 false) quiet_env 1%nat AWS_TASK_STATUS_CANCELED w1 =
      Returned tt w3 /\
    connected_handle_count w3 = connected_handle_count (subscribed_world false).
Proof.
  destruct (connected_handle_count_balanced (bsd64 false) quiet_env 1%nat)
    as (_ & _ & _ & _ & Hnet).
  eexists. eexists. split; [reflexivity|]. split; [reflexivity|].
  split; [reflexivity|].
  eapply (Hnet AWS_TASK_STATUS_CANCELED AWS_TASK_STATUS_CANCELED (subscribed_world false));
    [unfold INT_MIN, INT_MAX; cbn; lia|reflexivity|reflexivity|reflexivity].
Defined.

(** ** Subscribing and unsubscribing a handle *)



(** ** The timeout of the next wait *)

Section Timeout.
Context {P : Platform} {E : Environment}.



End Timeout.




(** ** The dispatch of kernel events *)

Section Dispatch.
Context {P : Platform} {E : Environment}.

Lemma set_events_this_loop_same (d : handle_data) :
  set_events_this_loop (events_this_loop d) d = d.
Proof. destruct d; reflexivity. Qed.

Lemma world_eta (w : world) :
  mk_world (impl w) (heap w) (handles w) (trace w ++ []) = w.
Proof. destruct w; cbn. rewrite app_nil_r. reflexivity. Qed.

Lemma process_kevent_pipe (kev : kevent_t) (io : list addr) (should : bool) (w : world) :
  (ident kev =? pipe_read_fd (impl w)) = true ->
  process_kevent kev (io, should) w = Returned (io, true) (add_effect E_pipe_drain w).
Proof.
  intros H. unfold process_kevent, bind, get, log, ret. rewrite H. reflexivity.
Qed.

Lemma process_kevent_silent (kev : kevent_t) (io : list addr) (should : bool) (w : world) :
  (ident kev =? pipe_read_fd (impl w)) = false ->
  s_aws_event_flags_from_kevent kev = 0 ->
  process_kevent kev (io, should) w = Returned (io, should) w.
Proof.
  intros H H0. unfold process_kevent, bind, get, log, ret. rewrite H, H0. reflexivity.
Qed.

Lemma process_kevent_handle (kev : kevent_t) (io : list addr) (should : bool) (w : world)
    (a : addr) (d : handle_data) :
  (ident kev =? pipe_read_fd (impl w)) = false ->
  s_aws_event_flags_from_kevent kev <> 0 ->
  udata kev = Some a ->
  heap w !! a = Some d ->
  process_kevent kev (io, should) w =
    Returned
      (if events_this_loop d =? 0 then io ++ [a] else io, should)
      (with_heap
         (<[a := set_events_this_loop
                   (Z.lor (events_this_loop d) (s_aws_event_flags_from_kevent kev)) d]>
            (heap w)) w).
Proof.
  intros H H0 Hu Hd. apply Z.eqb_neq in H0.
  unfold process_kevent, bind, get, log, ret, load_handle_data, store_handle_data,
    modify_heap.
  rewrite H, H0, Hu. cbn. rewrite Hd. reflexivity.
Qed.

Lemma io_flags_pipe (pipe_fd : Z) (kev : kevent_t) :
  (ident kev =? pipe_fd) = true -> io_flags pipe_fd kev = 0.
Proof. intros H. unfold io_flags. rewrite H. reflexivity. Qed.

Lemma io_flags_other (pipe_fd : Z) (kev : kevent_t) :
  (ident kev =? pipe_fd) = false -> io_flags pipe_fd kev = s_aws_event_flags_from_kevent kev.
Proof. intros H. unfold io_flags. rewrite H. reflexivity. Qed.

Lemma flags_of_handle_skip (pipe_fd : Z) (a : addr) (kev : kevent_t) (rest : list kevent_t) :
  io_flags pipe_fd kev = 0 ->
  flags_of_handle pipe_fd a (kev :: rest) = flags_of_handle pipe_fd a rest.
Proof.
  intros H. cbn [flags_of_handle]. rewrite H. destruct (bool_decide _); apply Z.lor_0_l.
Qed.

Lemma addressed_insert (pipe_fd : Z) (h : gmap addr handle_data) (a : addr)
    (d : handle_data) (kevents : list kevent_t) :
  addressed pipe_fd h kevents -> addressed pipe_fd (<[a := d]> h) kevents.
Proof.
  unfold addressed. intros H. eapply Forall_impl; [exact H|]. cbn. intros k Hk Hf.
  destruct (Hk Hf) as (b & Hu & Hb). exists b. split; [exact Hu|].
  rewrite lookup_insert_is_Some. destruct (decide (a = b)); [left; assumption|right; tauto].
Qed.

Lemma listed_record (h : gmap addr handle_data) (io : list addr) (a : addr)
    (d : handle_data) (fl : Z) :
  listed h io -> h !! a = Some d -> fl <> 0 ->
  listed (<[a := set_events_this_loop (Z.lor (events_this_loop d) fl) d]> h)
         (if events_this_loop d =? 0 then io ++ [a] else io).
Proof.
  intros [Hnd Hin] Hd Hfl.
  assert (Hnz : Z.lor (events_this_loop d) fl <> 0).
  { rewrite Z.lor_eq_0_iff. tauto. }
  destruct (Z.eqb_spec (events_this_loop d) 0) as [Hz|Hz].
  - assert (Hnot : a ∉ io).
    { rewrite Hin. intros (d' & Hd' & Hne). rewrite Hd in Hd'. inversion Hd'; subst.
      contradiction. }
    split.
    + apply NoDup_app. split; [exact Hnd|]. split; [|apply NoDup_singleton].
      intros x Hx Hx'. apply list_elem_of_singleton in Hx'. subst. contradiction.
    + intros b. rewrite elem_of_app, list_elem_of_singleton, Hin.
      destruct (decide (b = a)) as [->|Hne].
      * rewrite lookup_insert_eq. split; [|tauto]. intros _. eexists. split; [reflexivity|].
        exact Hnz.
      * rewrite lookup_insert_ne by congruence. tauto.
  - split; [exact Hnd|]. intros b. rewrite Hin.
    destruct (decide (b = a)) as [->|Hne].
    + rewrite lookup_insert_eq. split.
      * intros _. eexists. split; [reflexivity|]. exact Hnz.
      * intros _. exists d. split; assumption.
    + rewrite lookup_insert_ne by congruence. tauto.
Qed.

Lemma process_kevents_spec (kevents : list kevent_t) :
  forall (w : world) (io : list addr) (should : bool),
    addressed (pipe_read_fd (impl w)) (heap w) kevents ->
    listed (heap w) io ->
    exists io' should' h' drains,
      process_kevents kevents (io, should) w =
        Returned (io', should') (mk_world (impl w) h' (handles w) (trace w ++ drains)) /\
      listed h' io' /\
      (forall a,
         h' !! a =
           (fun d => set_events_this_loop
                       (Z.lor (events_this_loop d)
                          (flags_of_handle (pipe_read_fd (impl w)) a kevents)) d)
             <$> (heap w !! a)) /\
      Forall (fun e => e = E_pipe_drain) drains /\
      (length io' <= length io + length kevents)%nat.
Proof.
  induction kevents as [|kev rest IH]; intros w io should Haddr Hlisted.
  - exists io, should, (heap w), []. split; [|split; [|split; [|split]]].
    + cbn [process_kevents]. unfold ret. rewrite world_eta. reflexivity.
    + exact Hlisted.
    + intros a. destruct (heap w !! a) as [d|]; [|reflexivity]. cbn.
      rewrite Z.lor_0_r, set_events_this_loop_same. reflexivity.
    + constructor.
    + cbn. lia.
  - inversion Haddr as [|? ? Hkev Hrest]; subst.
    cbn [process_kevents]. unfold bind at 1.
    destruct (ident kev =? pipe_read_fd (impl w)) eqn:Hpipe.
    + rewrite (process_kevent_pipe _ _ _ _ Hpipe).
      destruct (IH (add_effect E_pipe_drain w) io true Hrest Hlisted)
        as (io' & should' & h' & drains & Hrun & Hl & Hh & Hdr & Hlen).
      exists io', should', h', (E_pipe_drain :: drains).
      split; [|split; [|split; [|split]]].
      * rewrite Hrun. cbn. rewrite <- app_assoc. reflexivity.
      * exact Hl.
      * intros a. rewrite Hh. cbn [add_effect impl heap].
        rewrite (flags_of_handle_skip _ a kev rest (io_flags_pipe _ _ Hpipe)). reflexivity.
      * constructor; [reflexivity|exact Hdr].
      * cbn [length]. lia.
    + destruct (Z.eq_dec (s_aws_event_flags_from_kevent kev) 0) as [Hz|Hnz].
      * rewrite (process_kevent_silent _ _ _ _ Hpipe Hz).
        destruct (IH w io should Hrest Hlisted)
          as (io' & should' & h' & drains & Hrun & Hl & Hh & Hdr & Hlen).
        exists io', should', h', drains.
        split; [exact Hrun|]. split; [exact Hl|]. split; [|split; [exact Hdr|cbn [length]; lia]].
        intros a. rewrite Hh.
        rewrite (flags_of_handle_skip _ a kev rest).
        { reflexivity. }
        rewrite io_flags_other by exact Hpipe. exact Hz.
      * assert (Hio : io_flags (pipe_read_fd (impl w)) kev =
                      s_aws_event_flags_from_kevent kev) by (apply io_flags_other; exact Hpipe).
        destruct Hkev as (a0 & Hu & [d0 Hd0]); [rewrite Hio; exact Hnz|].
        rewrite (process_kevent_handle _ _ _ _ a0 d0 Hpipe Hnz Hu Hd0).
        set (d1 := set_events_this_loop
                     (Z.lor (events_this_loop d0) (s_aws_event_flags_from_kevent kev)) d0).
        set (io1 := if events_this_loop d0 =? 0 then io ++ [a0] else io).
        destruct (IH (with_heap (<[a0 := d1]> (heap w)) w) io1 should)
          as (io' & should' & h' & drains & Hrun & Hl & Hh & Hdr & Hlen).
        { cbn. apply addressed_insert. exact Hrest. }
        { cbn. apply listed_record; assumption. }
        exists io', should', h', drains.
        split; [exact Hrun|]. split; [exact Hl|]. split; [|split; [exact Hdr|]].
        -- intros a. rewrite Hh. cbn [with_heap impl heap flags_of_handle].
           destruct (decide (a = a0)) as [->|Hne].
           ++ rewrite lookup_insert_eq, Hd0. cbn [fmap option_fmap option_map].
              rewrite bool_decide_eq_true_2 by exact Hu. rewrite Hio.
              subst d1. cbn. rewrite Z.lor_assoc. reflexivity.
           ++ rewrite lookup_insert_ne by congruence.
              rewrite bool_decide_eq_false_2 by (rewrite Hu; congruence).
              rewrite Z.lor_0_l. reflexivity.
        -- subst io1. cbn [length]. destruct (events_this_loop d0 =? 0);
             rewrite ?length_app in Hlen; cbn [length] in Hlen; lia.
Qed.

Lemma invoke_handle_callback_eq (a : addr) (w : world) (d : handle_data) :
  heap w !! a = Some d ->
  invoke_handle_callback a w =
    Returned tt
      (mk_world (impl w) (<[a := set_events_this_loop 0 d]> (heap w)) (handles w)
         (trace w ++ [E_on_event a (owner d) (events_this_loop d) (on_event_user_data d)])).
Proof.
  intros Hd.
  unfold invoke_handle_callback, call_on_event, bind, load_handle_data, log,
    store_handle_data, modify_heap.
  rewrite Hd. cbn. rewrite Hd. cbn. rewrite Hd. reflexivity.
Qed.

Lemma flat_map_pending_ext (h1 h2 : gmap addr handle_data) (l : list addr) :
  (forall a, a ∈ l -> h1 !! a = h2 !! a) ->
  List.flat_map (pending_callback h1) l = List.flat_map (pending_callback h2) l.
Proof.
  induction l as [|a l IH]; intros H; [reflexivity|].
  cbn [List.flat_map]. unfold pending_callback at 1 3.
  rewrite (H a) by (left). rewrite IH; [reflexivity|].
  intros b Hb. apply H. right. exact Hb.
Qed.

Lemma invoke_callbacks_spec (io : list addr) :
  forall w : world,
    NoDup io ->
    (forall a, a ∈ io -> is_Some (heap w !! a)) ->
    exists h',
      for_each invoke_handle_callback io w =
        Returned tt
          (mk_world (impl w) h' (handles w)
             (trace w ++ List.flat_map (pending_callback (heap w)) io)) /\
      (forall a,
         h' !! a =
           (fun d => if bool_decide (a ∈ io) then set_events_this_loop 0 d else d)
             <$> (heap w !! a)).
Proof.
  induction io as [|a rest IH]; intros w Hnd Hlive.
  - exists (heap w). split.
    + cbn. unfold ret. rewrite world_eta. reflexivity.
    + intros a. destruct (heap w !! a); reflexivity.
  - apply NoDup_cons in Hnd. destruct Hnd as [Hnot Hnd].
    destruct (Hlive a) as [d Hd]; [left|].
    cbn [for_each]. unfold bind at 1. rewrite (invoke_handle_callback_eq a w d Hd).
    set (w1 := mk_world _ _ _ _).
    destruct (IH w1 Hnd) as (h' & Hrun & Hh).
    { intros b Hb. subst w1. cbn. rewrite lookup_insert_is_Some.
      destruct (decide (a = b)); [left; assumption|right; split; [assumption|]].
      apply Hlive. right. exact Hb. }
    exists h'. split.
    + rewrite Hrun. subst w1. cbn [impl heap handles trace List.flat_map].
      rewrite (flat_map_pending_ext (<[a:=set_events_this_loop 0 d]> (heap w)) (heap w) rest).
      * unfold pending_callback at 2. rewrite Hd. rewrite <- app_assoc. reflexivity.
      * intros b Hb. apply lookup_insert_ne. intros ->. contradiction.
    + intros b. rewrite Hh. subst w1. cbn [heap].
      destruct (decide (b = a)) as [->|Hne].
      * rewrite lookup_insert_eq, Hd. cbn.
        rewrite bool_decide_eq_false_2 by exact Hnot.
        rewrite bool_decide_eq_true_2 by left. reflexivity.
      * rewrite lookup_insert_ne by congruence.
        destruct (heap w !! b) as [db|]; [|reflexivity]. cbn.
        destruct (decide (b ∈ rest)) as [Hin|Hout].
        -- rewrite !bool_decide_eq_true_2; [reflexivity|right; exact Hin|exact Hin].
        -- rewrite !bool_decide_eq_false_2; [reflexivity| |exact Hout].
           intros Hb. apply elem_of_cons in Hb. tauto.
Qed.

Lemma flags_of_handle_nonzero (pipe_fd : Z) (a : addr) (kevents : list kevent_t) :
  flags_of_handle pipe_fd a kevents <> 0 <->
  exists k, k ∈ kevents /\ udata k = Some a /\ io_flags pipe_fd k <> 0.
Proof.
  induction kevents as [|kev rest IH]; cbn [flags_of_handle].
  - split; [congruence|]. intros (k & Hk & _). inversion Hk.
  - rewrite Z.lor_eq_0_iff. split.
    + intros H. destruct (bool_decide (udata kev = Some a)) eqn:Hb.
      * apply bool_decide_eq_true in Hb.
        destruct (Z.eq_dec (io_flags pipe_fd kev) 0) as [Hz|Hnz].
        -- destruct (proj1 IH) as (k & Hk & Hu & Hf); [tauto|].
           exists k. split; [right; exact Hk|tauto].
        -- exists kev. split; [left|tauto].
      * destruct (proj1 IH) as (k & Hk & Hu & Hf); [tauto|].
        exists k. split; [right; exact Hk|tauto].
    + intros (k & Hk & Hu & Hf) [H1 H2]. apply elem_of_cons in Hk. destruct Hk as [->|Hk].
      * rewrite bool_decide_eq_true_2 in H1 by exact Hu. contradiction.
      * apply IH; [|exact H2]. exists k. tauto.
Qed.
End Dispatch.

(** C6. Within one iteration of the main loop, started with every
    accumulator empty, the two loops over the events of one wait call the
    callback of a subscription record exactly when one of the events that
    carry its address has a non-empty translation (events of the signal pipe
    aside); they call it once, with the bitwise union of the translations
    of all its events; the array of notified records is never longer than
    the event list; each call is followed at once by the reset of the
    record's accumulator, so that the heap ends as it began, every
    accumulator empty. *)
Theorem dispatch_kevents_correct (P : Platform) (E : Environment)
    (kevents : list kevent_t) (should : bool) (w : world) :
  quiescent (heap w) ->
  addressed (pipe_read_fd (impl w)) (heap w) kevents ->
  let pipe_fd := pipe_read_fd (impl w) in
  exists should' drains notified,
    dispatch_kevents kevents should w =
      Returned should'
        (mk_world (impl w) (heap w) (handles w)
           (trace w ++ drains ++
              List.flat_map (callback_of pipe_fd (heap w) kevents) notified)) /\
    Forall (fun e => e = E_pipe_drain) drains /\
    NoDup notified /\
    (forall a,
       a ∈ notified <->
       is_Some (heap w !! a) /\
       exists k, k ∈ kevents /\ udata k = Some a /\ io_flags pipe_fd k <> 0) /\
    (forall a, a ∈ notified ->
       exists d, heap w !! a = Some d /\
                 callback_of pipe_fd (heap w) kevents a =
                   [E_on_event a (owner d) (flags_of_handle pipe_fd a kevents)
                      (on_event_user_data d)]) /\
    (length notified <= length kevents)%nat /\
    (forall a d w0,
       heap w0 !! a = Some d ->
       invoke_handle_callback a w0 =
         Returned tt
           (mk_world (impl w0) (<[a := set_events_this_loop 0 d]> (heap w0)) (handles w0)
              (trace w0 ++
                 [E_on_event a (owner d) (events_this_loop d) (on_event_user_data d)]))).
Proof.
  intros Hq Haddr pipe_fd.
  assert (Hl0 : listed (heap w) []).
  { split; [apply NoDup_nil_2|]. intros a. split; [intros Ha; inversion Ha|].
    intros (d & Hd & Hne). exfalso. apply Hne.
    exact (proj1 (map_Forall_lookup _ _) Hq a d Hd). }
  destruct (process_kevents_spec kevents w [] should Haddr Hl0)
    as (io' & should' & h1 & drains & Hrun & [Hnd Hin] & Hh1 & Hdr & Hlen).
  set (w1 := mk_world (impl w) h1 (handles w) (trace w ++ drains)) in *.
  destruct (invoke_callbacks_spec io' w1 Hnd) as (h2 & Hrun2 & Hh2).
  { intros a Ha. apply Hin in Ha. destruct Ha as (d & Hd & _). exists d. exact Hd. }
  assert (Hzero : forall a d, heap w !! a = Some d -> events_this_loop d = 0).
  { intros a d Hd. exact (proj1 (map_Forall_lookup _ _) Hq a d Hd). }
  assert (Hmem : forall a,
    a ∈ io' <-> is_Some (heap w !! a) /\ flags_of_handle pipe_fd a kevents <> 0).
  { intros a. rewrite Hin, Hh1. fold pipe_fd. destruct (heap w !! a) as [d|] eqn:Hd; cbn.
    - rewrite (Hzero a d Hd), Z.lor_0_l. split.
      + intros (d' & Heq & Hne). inversion Heq; subst. cbn in Hne. split; [eauto|exact Hne].
      + intros [_ Hne]. eexists. split; [reflexivity|]. exact Hne.
    - split; [intros (d' & Heq & _); discriminate|intros [[d' Heq] _]; discriminate]. }
  assert (Hh2w : h2 = heap w).
  { apply map_eq. intros a. rewrite Hh2. subst w1. cbn [heap]. rewrite Hh1. fold pipe_fd.
    destruct (heap w !! a) as [d|] eqn:Hd; [|reflexivity]. cbn.
    pose proof (Hzero a d Hd) as Hz. f_equal.
    destruct (decide (a ∈ io')) as [Ha|Ha].
    - rewrite bool_decide_eq_true_2 by exact Ha. destruct d; cbn in *. subst. reflexivity.
    - rewrite bool_decide_eq_false_2 by exact Ha.
      assert (Hf : flags_of_handle pipe_fd a kevents = 0).
      { destruct (Z.eq_dec (flags_of_handle pipe_fd a kevents) 0) as [H0|H0]; [exact H0|].
        exfalso. apply Ha. apply Hmem. split; [eauto|exact H0]. }
      rewrite Hf, Hz. destruct d; cbn in *. subst. reflexivity. }
  assert (Hcb : List.flat_map (pending_callback h1) io' =
                List.flat_map (callback_of pipe_fd (heap w) kevents) io').
  { apply List.flat_map_ext. intros a. unfold pending_callback, callback_of.
    rewrite Hh1. fold pipe_fd. destruct (heap w !! a) as [d|] eqn:Hd; [|reflexivity]. cbn.
    rewrite (Hzero a d Hd), Z.lor_0_l. reflexivity. }
  exists should', drains, io'.
  split; [|split; [exact Hdr|split; [exact Hnd|split; [|split; [|split]]]]].
  - unfold dispatch_kevents. unfold bind at 1. rewrite Hrun. fold w1.
    unfold bind at 1. rewrite Hrun2. subst w1. cbn [impl heap handles trace ret].
    rewrite Hh2w, Hcb, <- app_assoc. reflexivity.
  - intros a. rewrite Hmem, flags_of_handle_nonzero. reflexivity.
  - intros a Ha. apply Hmem in Ha. destruct Ha as [[d Hd] _]. exists d.
    split; [exact Hd|]. unfold callback_of. rewrite Hd. reflexivity.
  - cbn [length] in Hlen. lia.
  - intros a d w0 Hd. apply invoke_handle_callback_eq. exact Hd.
Qed.

(** One wait reports the signal pipe and, for the handle of
    [subscribed_world], 10 readable bytes and 100 writable bytes. *)
Lemma dispatch_kevents_correct_witness :
  exists should' w',
    @dispatch_kevents (bsd64 false)
      [EV_SET 4 (-1) 0 0 4 None; EV_SET 5 (-1) 0 0 10 (Some 1%nat);
       EV_SET 5 (-2) 0 0 100 (Some 1%nat)]
      false (subscribed_world true) = Returned should' w' /\
    heap w' = heap (subscribed_world true).
Proof.
  destruct (dispatch_kevents_correct (bsd64 false) quiet_env
              [EV_SET 4 (-1) 0 0 4 None; EV_SET 5 (-1) 0 0 10 (Some 1%nat);
               EV_SET 5 (-2) 0 0 100 (Some 1%nat)]
              false (subscribed_world true))
    as (should' & drains & notified & Hrun & _).
  - apply map_Forall_singleton. reflexivity.
  - constructor; [intros H; exfalso; apply H; reflexivity|].
    constructor; [intros _; exists 1%nat; split; [reflexivity|eexists; reflexivity]|].
    constructor; [intros _; exists 1%nat; split; [reflexivity|eexists; reflexivity]|].
    constructor.
  - eexists. eexists. split; [exact Hrun|reflexivity].
Defined.

(** The same wait, run: the handle that is readable and writable at once
    hears one callback, with both flags. *)
Example dispatch_both_filters_one_callback :
  @dispatch_kevents (bsd64 false)
    [EV_SET 4 (-1) 0 0 4 None; EV_SET 5 (-1) 0 0 10 (Some 1%nat);
     EV_SET 5 (-2) 0 0 100 (Some 1%nat)]
    false (subscribed_world true) =
  Returned true
    (add_effects [E_pipe_drain; E_on_event 1 7 3 0] (subscribed_world true)).
Proof. vm_compute. reflexivity. Qed.

(** ** Teardown *)

Section Destroy.
Context {P : Platform} {E : Environment}.

Lemma set_timestamp_same (t : aws_task) : set_timestamp (timestamp_of t) t = t.
Proof. destruct t; reflexivity. Qed.














End Destroy.



(** The same destruction, run: the task of the scheduler is cancelled
    first, then the task of the inbox, then the task the first one handed
    back when it was cancelled. *)
Example s_destroy_order :
  exists w',
    @s_destroy (bsd64 false) quiet_env 10 2 pending_world = Returned tt w' /\
    task_calls (trace w') =
      canceled [UserTask 1 0 [] [UserTask 2 0 [] []]; UserTask 3 0 [] []; UserTask 2 0 [] []].
Proof. eexists. split; vm_compute; reflexivity. Qed.


(** * Further properties *)

(** ** The hand-off of tasks between threads *)

Lemma schedule_off_thread_eq (caller : thread_id_t) (task : aws_task)
    (run_at_nanos : Z) (w : world) :
  caller <> thread (impl w) ->
  s_schedule_task_common caller task run_at_nanos w =
    Returned tt
      (add_effects
         ([E_mutex_lock; E_mutex_unlock] ++
          (if thread_signaled w then [] else [E_pipe_write]))
         (with_inbox true (tasks_to_schedule w ++ [set_timestamp run_at_nanos task]) w)).
Proof.
  intros Hc. apply Z.eqb_neq in Hc.
  destruct w as [[th kq pr [sig q st] td] hp hs tr]. cbn in Hc.
  unfold s_schedule_task_common, s_is_event_thread, bind, get, ret, aws_mutex_lock,
    aws_mutex_unlock, log, modify_impl, when, signal_cross_thread_data_changed.
  cbn. rewrite Hc. destruct sig; cbn; unfold log, add_effects, with_inbox; cbn;
    rewrite <- ?app_assoc; reflexivity.
Qed.

Lemma schedule_on_thread_eq (task : aws_task) (run_at_nanos : Z) (w : world) :
  s_schedule_task_common (thread (impl w)) task run_at_nanos w =
    Returned tt
      (with_scheduler
         (if run_at_nanos =? 0 then aws_task_scheduler_schedule_now (scheduler w) task
          else aws_task_scheduler_schedule_future (scheduler w) task run_at_nanos)
         w).
Proof.
  destruct w as [[th kq pr c [sch n pst]] hp hs tr].
  unfold s_schedule_task_common, s_is_event_thread, bind, get, ret, modify_impl.
  cbn. rewrite Z.eqb_refl. destruct (run_at_nanos =? 0); reflexivity.
Qed.




Lemma with_scheduler_same (w : world) : with_scheduler (scheduler w) w = w.
Proof. destruct w as [[th kq pr c [sch n pst]] hp hs tr]. reflexivity. Qed.





(** *** The drain of the inbox *)

Lemma process_tasks_to_schedule_eq (tasks : list aws_task) (w : world) :
  s_process_tasks_to_schedule tasks w =
    Returned tt (with_scheduler (fold_left hand_to_scheduler tasks (scheduler w)) w).
Proof.
  revert w. induction tasks as [|t rest IH]; intros w.
  - cbn. rewrite with_scheduler_same. reflexivity.
  - unfold s_process_tasks_to_schedule. cbn [for_each fold_left]. unfold bind at 1.
    fold (s_process_tasks_to_schedule rest).
    assert (Hstep :
      (if timestamp_of t =? 0
       then modify_impl (with_private (fun p =>
              set_scheduler (aws_task_scheduler_schedule_now (Private.scheduler p) t) p))
       else modify_impl (with_private (fun p =>
              set_scheduler
                (aws_task_scheduler_schedule_future (Private.scheduler p) t (timestamp_of t))
                p))) w =
      Returned tt (with_scheduler (hand_to_scheduler (scheduler w) t) w)).
    { unfold hand_to_scheduler. destruct w as [[th kq pr c [sch n pst]] hp hs tr].
      destruct (timestamp_of t =? 0); reflexivity. }
    rewrite Hstep, IH. destruct w as [[th kq pr c [sch n pst]] hp hs tr]. reflexivity.
Qed.

Lemma set_timestamp_now (t : aws_task) : timestamp_of t = 0 -> set_timestamp 0 t = t.
Proof. destruct t; cbn; intros ->; reflexivity. Qed.


Lemma insert_by_deadline_perm (t : aws_task) (l : list aws_task) :
  insert_by_deadline t l ≡ₚ t :: l.
Proof.
  induction l as [|u l IH]; [reflexivity|]. cbn [insert_by_deadline].
  destruct (timestamp_of u <=? timestamp_of t); [|reflexivity].
  rewrite IH. apply Permutation_swap.
Qed.

Lemma hand_to_scheduler_asap (tasks : list aws_task) (s : aws_task_scheduler) :
  asap_list (fold_left hand_to_scheduler tasks s) =
    asap_list s ++ List.filter is_now_task tasks.
Proof.
  revert s. induction tasks as [|t rest IH]; intros s; cbn [fold_left List.filter].
  - rewrite app_nil_r. reflexivity.
  - rewrite IH. unfold hand_to_scheduler, is_now_task.
    destruct (Z.eqb_spec (timestamp_of t) 0) as [Hz|Hz]; cbn.
    + rewrite (set_timestamp_now t Hz), <- app_assoc. reflexivity.
    + reflexivity.
Qed.

Lemma hand_to_scheduler_timed (tasks : list aws_task) (s : aws_task_scheduler) :
  timed_list (fold_left hand_to_scheduler tasks s) ≡ₚ
    timed_list s ++ List.filter (fun t => negb (is_now_task t)) tasks.
Proof.
  revert s. induction tasks as [|t rest IH]; intros s; cbn [fold_left List.filter].
  - rewrite app_nil_r. reflexivity.
  - rewrite IH. unfold hand_to_scheduler, is_now_task.
    destruct (Z.eqb_spec (timestamp_of t) 0) as [Hz|Hz]; cbn.
    + reflexivity.
    + rewrite set_timestamp_same, insert_by_deadline_perm.
      apply Permutation_middle.
Qed.

Lemma hand_to_scheduler_held (tasks : list aws_task) (s : aws_task_scheduler) :
  held_tasks (fold_left hand_to_scheduler tasks s) ≡ₚ held_tasks s ++ tasks.
Proof.
  unfold held_tasks. rewrite hand_to_scheduler_asap, hand_to_scheduler_timed.
  rewrite <- !app_assoc. apply Permutation_app_head.
  rewrite (Permutation_app_comm (timed_list s)), app_assoc.
  rewrite (Permutation_app_comm _ (timed_list s)). apply Permutation_app_head.
  clear s. induction tasks as [|t rest IH]; [reflexivity|]. cbn [List.filter].
  destruct (is_now_task t); cbn [negb app].
  - constructor. exact IH.
  - rewrite <- Permutation_middle. constructor. exact IH.
Qed.

Lemma process_cross_thread_data_eq (w : world) :
  s_process_cross_thread_data w =
    Returned tt
      (add_effects [E_mutex_lock; E_mutex_unlock]
         (with_scheduler (handed_over w)
            (with_private_state
               (if sees_stop w then EVENT_THREAD_STATE_STOPPING else private_state w)
               (with_inbox false [] w)))).
Proof.
  unfold s_process_cross_thread_data.
  unfold bind at 1. unfold aws_mutex_lock, log at 1.
  unfold bind at 1. unfold modify_impl at 1.
  unfold bind at 1. unfold get at 1.
  unfold bind at 1.
  destruct w as [[th kq pr [sig q st] [sch n pst]] hp hs tr].
  unfold sees_stop, cross_state, private_state, handed_over, tasks_to_schedule, scheduler.
  cbn [impl heap handles trace with_cross cross_thread_data thread_data set_thread_signaled
       Cross.thread_signaled Cross.tasks_to_schedule Cross.state Private.state
       Private.scheduler Private.connected_handle_count].
  destruct (event_thread_state_eqb st EVENT_THREAD_STATE_STOPPING &&
            event_thread_state_eqb pst EVENT_THREAD_STATE_RUNNING);
    cbn [when]; unfold modify_impl, ret, bind, aws_mutex_unlock, log;
    cbn [impl heap handles trace with_cross with_private cross_thread_data thread_data
         set_tasks_to_schedule set_private_state
         Cross.thread_signaled Cross.tasks_to_schedule Cross.state Private.state
         Private.scheduler Private.connected_handle_count];
    rewrite process_tasks_to_schedule_eq; cbn; rewrite <- ?app_assoc; reflexivity.
Qed.

(** X3. The event thread's read of the inbox always completes, under the
    mutex alone.  It clears the signaled flag and empties the inbox; it
    moves the private state to Stopping exactly when the inbox says
    Stopping and the private state is Running, and never writes the inbox's
    copy of the state; it hands every task of the inbox to the scheduler,
    in the order of the inbox, as an immediate task when its timestamp is 0
    and as a timed task otherwise, so that the scheduler holds what it held
    and what the inbox held, no task lost and none added. *)
Theorem s_process_cross_thread_data_correct (w : world) :
  exists w',
    s_process_cross_thread_data w = Returned tt w' /\
    thread_signaled w' = false /\
    tasks_to_schedule w' = [] /\
    cross_state w' = cross_state w /\
    private_state w' =
      (if sees_stop w then EVENT_THREAD_STATE_STOPPING else private_state w) /\
    scheduler w' = handed_over w /\
    asap_list (scheduler w') =
      asap_list (scheduler w) ++ List.filter is_now_task (tasks_to_schedule w) /\
    held_tasks (scheduler w') ≡ₚ held_tasks (scheduler w) ++ tasks_to_schedule w /\
    connected_handle_count w' = connected_handle_count w /\
    heap w' = heap w /\ handles w' = handles w /\
    trace w' = trace w ++ [E_mutex_lock; E_mutex_unlock].
Proof.
  eexists. split; [apply process_cross_thread_data_eq|].
  destruct w as [[th kq pr [sig q st] [sch n pst]] hp hs tr].
  repeat split; try reflexivity.
  - apply hand_to_scheduler_asap.
  - apply hand_to_scheduler_held.
Qed.





(** ** The lifecycle *)

Section Lifecycle.
Context {P : Platform} {E : Environment}.

Lemma wait_for_stop_completion_eq (w : world) :
  DEBUG_BUILD && negb NDEBUG &&
    event_thread_state_eqb (cross_state w) EVENT_THREAD_STATE_RUNNING = false ->
  s_wait_for_stop_completion w =
    if env_thread_join (join_world w) =? 0
    then Returned AWS_OP_SUCCESS (back_to_ready (add_effect E_thread_join (join_world w)))
    else Returned AWS_OP_ERR (add_effect E_thread_join (join_world w)).
Proof.
  destruct w as [[th kq pr [sig q st] [sch n pst]] hp hs tr].
  unfold cross_state, join_world. cbn [impl cross_thread_data Cross.state]. intros Hok.
  unfold s_wait_for_stop_completion, bind, get, ret, aws_mutex_lock, aws_mutex_unlock, log,
    modify_impl, when, c_assert, aws_thread_join.
  destruct DEBUG_BUILD; cbn.
  - assert (Hassert : NDEBUG || negb (event_thread_state_eqb st EVENT_THREAD_STATE_RUNNING)
                      = true).
    { cbn in Hok. destruct NDEBUG; [reflexivity|]. cbn in *. rewrite Hok. reflexivity. }
    rewrite Hassert. cbn. unfold add_effects. cbn. rewrite <- !app_assoc. cbn.
    destruct (env_thread_join _ =? 0); reflexivity.
  - rewrite app_nil_r || idtac. destruct (env_thread_join _ =? 0); reflexivity.
Qed.

Lemma run_eq (w : world) :
  NDEBUG ||
    (event_thread_state_eqb (cross_state w) EVENT_THREAD_STATE_READY_TO_RUN &&
     event_thread_state_eqb (private_state w) EVENT_THREAD_STATE_READY_TO_RUN) = true ->
  s_run w =
    if env_thread_launch (with_cross_state EVENT_THREAD_STATE_RUNNING w) =? 0
    then Returned AWS_OP_SUCCESS
           (add_effect E_thread_launch (with_cross_state EVENT_THREAD_STATE_RUNNING w))
    else Returned AWS_OP_ERR
           (add_effect E_thread_launch (with_cross_state EVENT_THREAD_STATE_READY_TO_RUN w)).
Proof.
  destruct w as [[th kq pr [sig q st] [sch n pst]] hp hs tr].
  unfold cross_state, private_state. cbn. intros Hok.
  unfold s_run, bind, get, ret, c_assert, modify_impl, aws_thread_launch. cbn.
  assert (H1 : NDEBUG || event_thread_state_eqb st EVENT_THREAD_STATE_READY_TO_RUN = true).
  { destruct NDEBUG; [reflexivity|]. cbn in *. apply andb_true_iff in Hok. tauto. }
  assert (H2 : NDEBUG || event_thread_state_eqb pst EVENT_THREAD_STATE_READY_TO_RUN = true).
  { destruct NDEBUG; [reflexivity|]. cbn in *. apply andb_true_iff in Hok. tauto. }
  rewrite H1. cbn. rewrite H2. cbn.
  unfold with_cross_state. cbn.
  destruct (env_thread_launch _ =? 0); reflexivity.
Qed.

Lemma stop_eq (w : world) :
  s_stop w =
    Returned AWS_OP_SUCCESS
      (if event_thread_state_eqb (cross_state w) EVENT_THREAD_STATE_RUNNING
       then add_effects
              ([E_mutex_lock; E_mutex_unlock] ++
               (if thread_signaled w then [] else [E_pipe_write]))
              (with_cross_state EVENT_THREAD_STATE_STOPPING
                 (with_inbox true (tasks_to_schedule w) w))
       else add_effects [E_mutex_lock; E_mutex_unlock] w).
Proof.
  destruct w as [[th kq pr [sig q st] td] hp hs tr].
  unfold s_stop, bind, get, ret, aws_mutex_lock, aws_mutex_unlock, log, modify_impl, when,
    signal_cross_thread_data_changed, cross_state.
  cbn. destruct st; cbn; destruct sig; cbn; unfold log, add_effects; cbn;
    rewrite <- ?app_assoc; reflexivity.
Qed.

(** *** Frames of an iteration *)

Lemma preserves_of_impl {X A : Type} (g : kqueue_loop -> X) (m : M A) :
  preserves impl m -> preserves (fun w => g (impl w)) m.
Proof.
  intros H w. specialize (H w). unfold ends_with in *.
  destruct (m w); try exact I; rewrite H; reflexivity.
Qed.

Lemma preserves_lifecycle_of_impl {A : Type} (m : M A) :
  preserves impl m -> preserves lifecycle_frame m.
Proof.
  intros H. exact (preserves_of_impl
    (fun l => (thread l, pipe_read_fd l, Cross.state (cross_thread_data l),
               Private.state (thread_data l))) m H).
Qed.

Lemma preserves_impl_get : preserves impl get.
Proof. intros w. reflexivity. Qed.

Lemma preserves_impl_clock (now_ns : Z) : preserves impl (clock now_ns).
Proof. intros w. reflexivity. Qed.

Lemma preserves_impl_process_kevent (kev : kevent_t) (acc : list addr * bool) :
  preserves impl (process_kevent kev acc).
Proof.
  destruct acc as [io b]. unfold process_kevent.
  apply preserves_bind; [apply preserves_impl_get|]. intros w0.
  apply preserves_if.
  - apply preserves_bind; [apply preserves_impl_log|]. intros _. apply preserves_ret.
  - apply preserves_if; [apply preserves_ret|].
    destruct (udata kev) as [a|]; [|intros w; exact I].
    apply preserves_bind; [apply preserves_impl_load_handle_data|]. intros d.
    apply preserves_bind; [apply preserves_impl_modify_heap|]. intros _.
    apply preserves_ret.
Qed.

Lemma preserves_impl_process_kevents (kevents : list kevent_t) :
  forall acc, preserves impl (process_kevents kevents acc).
Proof.
  induction kevents as [|k rest IH]; intros acc; cbn [process_kevents].
  - apply preserves_ret.
  - apply preserves_bind; [apply preserves_impl_process_kevent|exact IH].
Qed.

Lemma preserves_impl_invoke_handle_callback (a : addr) :
  preserves impl (invoke_handle_callback a).
Proof.
  unfold invoke_handle_callback.
  apply preserves_bind; [apply preserves_impl_load_handle_data|]. intros d.
  apply preserves_bind; [apply preserves_impl_call_on_event|]. intros _.
  apply preserves_bind; [apply preserves_impl_load_handle_data|]. intros d'.
  apply preserves_impl_modify_heap.
Qed.

Lemma preserves_impl_dispatch_kevents (kevents : list kevent_t) (b : bool) :
  preserves impl (dispatch_kevents kevents b).
Proof.
  unfold dispatch_kevents.
  apply preserves_bind; [apply preserves_impl_process_kevents|]. intros [io b'].
  apply preserves_bind; [|intros _; apply preserves_ret].
  apply preserves_for_each. intros a. apply preserves_impl_invoke_handle_callback.
Qed.

Lemma preserves_impl_set_next_timeout (now_ns : Z) : preserves impl (set_next_timeout now_ns).
Proof.
  unfold set_next_timeout.
  apply preserves_bind; [apply preserves_impl_clock|]. intros [e t].
  apply preserves_bind; [apply preserves_impl_get|]. intros w0. apply preserves_ret.
Qed.

Lemma preserves_lifecycle_modify_impl (f : kqueue_loop -> kqueue_loop) :
  (forall w, lifecycle_frame (mk_world (f (impl w)) (heap w) (handles w) (trace w)) =
             lifecycle_frame w) ->
  preserves lifecycle_frame (modify_impl f).
Proof. intros H w. exact (H w). Qed.

Lemma preserves_lifecycle_schedule (caller : thread_id_t) (t : aws_task) (at_ : Z) :
  preserves lifecycle_frame (s_schedule_task_common caller t at_).
Proof.
  intros w. destruct w as [[th kq pr [sig q st] [sch n pst]] hp hs tr].
  unfold s_schedule_task_common, s_is_event_thread, bind, get, ret, aws_mutex_lock,
    aws_mutex_unlock, log, modify_impl, when, signal_cross_thread_data_changed.
  cbn. destruct (caller =? th); cbn.
  - destruct (at_ =? 0); reflexivity.
  - destruct sig; reflexivity.
Qed.

Lemma preserves_lifecycle_subscribe_task (arg : addr) (status : aws_task_status) :
  preserves lifecycle_frame (s_subscribe_task arg status).
Proof.
  intros w. rewrite s_subscribe_task_unfold.
  pose proof (preserves_lifecycle_of_impl _ (preserves_impl_subscribe_task_rest arg status)
                (with_handle_count_moved 1 w)) as H.
  unfold ends_with in *.
  destruct (subscribe_task_rest arg status (with_handle_count_moved 1 w));
    try exact I; rewrite H; destruct w as [[th kq pr c [sch n pst]] hp hs tr]; reflexivity.
Qed.

Lemma preserves_lifecycle_unsubscribe_task (arg : addr) (status : aws_task_status) :
  preserves lifecycle_frame (s_unsubscribe_task arg status).
Proof.
  intros w. rewrite s_unsubscribe_task_unfold.
  pose proof (preserves_lifecycle_of_impl _ (preserves_impl_unsubscribe_task_rest arg status)
                (with_handle_count_moved (-1) w)) as H.
  unfold ends_with in *.
  destruct (unsubscribe_task_rest arg status (with_handle_count_moved (-1) w));
    try exact I; rewrite H; destruct w as [[th kq pr c [sch n pst]] hp hs tr]; reflexivity.
Qed.

Lemma preserves_lifecycle_call_task_fn (caller : thread_id_t) (t : aws_task)
    (status : aws_task_status) :
  preserves lifecycle_frame (call_task_fn caller t status).
Proof.
  unfold call_task_fn.
  apply preserves_bind; [apply preserves_lifecycle_of_impl, preserves_impl_log|]. intros _.
  destruct t as [a ts|a ts|i ts r c].
  - apply preserves_lifecycle_subscribe_task.
  - apply preserves_lifecycle_unsubscribe_task.
  - apply preserves_for_each. intros u. apply preserves_lifecycle_schedule.
Qed.

Lemma preserves_lifecycle_run_all (now : Z) :
  preserves lifecycle_frame (aws_task_scheduler_run_all now).
Proof.
  unfold aws_task_scheduler_run_all.
  apply preserves_bind; [apply preserves_lifecycle_of_impl, preserves_impl_get|]. intros w0.
  apply preserves_bind.
  - apply preserves_lifecycle_modify_impl. intros w.
    destruct w as [[th kq pr c [sch n pst]] hp hs tr]. reflexivity.
  - intros _. apply preserves_for_each. intros t. apply preserves_lifecycle_call_task_fn.
Qed.

(** Whether the inbox is read after the events of a wait were processed. *)
Lemma process_kevents_should (kevents : list kevent_t) :
  forall io b w io' b' w',
    process_kevents kevents (io, b) w = Returned (io', b') w' ->
    b' = b || reports_pipe (pipe_read_fd (impl w)) kevents.
Proof.
  induction kevents as [|k rest IH]; intros io b w io' b' w' Hrun.
  - cbn in Hrun. inversion Hrun; subst. rewrite orb_false_r. reflexivity.
  - cbn [process_kevents] in Hrun. unfold bind at 1 in Hrun.
    pose proof (preserves_impl_process_kevent k (io, b) w) as Himpl.
    unfold ends_with in Himpl.
    destruct (process_kevent k (io, b) w) as [[io1 b1] w1| | |] eqn:Hstep; try discriminate.
    rewrite (IH _ _ _ _ _ _ Hrun), Himpl. cbn [reports_pipe existsb].
    unfold reports_pipe.
    assert (Hb1 : b1 = b || (ident k =? pipe_read_fd (impl w))).
    { unfold process_kevent, bind, get, log, ret in Hstep.
      destruct (ident k =? pipe_read_fd (impl w)).
      - inversion Hstep; subst. rewrite orb_true_r. reflexivity.
      - rewrite orb_false_r.
        destruct (s_aws_event_flags_from_kevent k =? 0); [inversion Hstep; reflexivity|].
        destruct (udata k) as [a|]; [|discriminate].
        unfold load_handle_data, store_handle_data, modify_heap in Hstep.
        destruct (heap w !! a); [|discriminate]. inversion Hstep; reflexivity. }
    rewrite Hb1, orb_assoc. reflexivity.
Qed.

Lemma preserves_returned {X A : Type} (f : world -> X) (m : M A) (w w' : world) (a : A) :
  preserves f m -> m w = Returned a w' -> f w' = f w.
Proof. intros H Hrun. specialize (H w). rewrite Hrun in H. exact H. Qed.

Lemma dispatch_kevents_should (kevents : list kevent_t) (b b' : bool) (w w' : world) :
  dispatch_kevents kevents b w = Returned b' w' ->
  b' = b || reports_pipe (pipe_read_fd (impl w)) kevents.
Proof.
  unfold dispatch_kevents. unfold bind at 1.
  destruct (process_kevents kevents ([], b) w) as [[io b1] w1| | |] eqn:Hp; try discriminate.
  unfold bind at 1.
  destruct (for_each invoke_handle_callback io w1) as [[] w2| | |]; try discriminate.
  unfold ret. intros H. inversion H; subst.
  exact (process_kevents_should _ _ _ _ _ _ _ Hp).
Qed.

Lemma process_cross_thread_data_lifecycle (w : world) :
  ends_with (s_process_cross_thread_data w)
    (fun w' =>
       lifecycle_frame w' =
         (thread (impl w), pipe_read_fd (impl w), cross_state w,
          if sees_stop w then EVENT_THREAD_STATE_STOPPING else private_state w)).
Proof.
  rewrite process_cross_thread_data_eq.
  destruct w as [[th kq pr [sig q st] [sch n pst]] hp hs tr]. reflexivity.
Qed.

Lemma ends_with_bind {A B : Type} (m : M A) (k : A -> M B) (w : world) (Q : world -> Prop) :
  (forall w', m w = Aborted w' -> Q w') ->
  (forall a w', m w = Returned a w' -> ends_with (k a w') Q) ->
  ends_with (bind m k w) Q.
Proof.
  intros Hab Hret. unfold bind. destruct (m w) as [a w'|w'| |]; cbn; auto.
Qed.

Lemma ends_with_impl {A : Type} (o : outcome A) (Q1 Q2 : world -> Prop) :
  ends_with o Q1 -> (forall w, Q1 w -> Q2 w) -> ends_with o Q2.
Proof. destruct o; cbn; auto. Qed.

Lemma never_aborts_ret {A : Type} (a : A) : never_aborts (ret a).
Proof. intros w w'. discriminate. Qed.

Lemma never_aborts_bind {A B : Type} (m : M A) (k : A -> M B) :
  never_aborts m -> (forall a, never_aborts (k a)) -> never_aborts (bind m k).
Proof.
  intros Hm Hk w w'. unfold bind. specialize (Hm w).
  destruct (m w) as [a w1|w1| |]; try discriminate.
  - apply Hk.
  - exfalso. exact (Hm w1 eq_refl).
Qed.

Lemma never_aborts_for_each {A : Type} (f : A -> M unit) (l : list A) :
  (forall a, never_aborts (f a)) -> never_aborts (for_each f l).
Proof.
  intros Hf. induction l as [|a rest IH]; cbn [for_each].
  - apply never_aborts_ret.
  - apply never_aborts_bind; [apply Hf|intros _; exact IH].
Qed.

Lemma never_aborts_log (e : effect) : never_aborts (log e).
Proof. intros w w'. discriminate. Qed.

Lemma never_aborts_get : never_aborts get.
Proof. intros w w'. discriminate. Qed.

Lemma never_aborts_load_handle_data (a : addr) : never_aborts (load_handle_data a).
Proof. intros w w'. unfold load_handle_data. destruct (heap w !! a); discriminate. Qed.

Lemma never_aborts_store_handle_data (a : addr) (d : handle_data) :
  never_aborts (store_handle_data a d).
Proof. intros w w'. discriminate. Qed.

Lemma never_aborts_process_kevent (kev : kevent_t) (acc : list addr * bool) :
  never_aborts (process_kevent kev acc).
Proof.
  destruct acc as [io b]. unfold process_kevent.
  apply never_aborts_bind; [apply never_aborts_get|]. intros w0.
  destruct (ident kev =? pipe_read_fd (impl w0)).
  - apply never_aborts_bind; [apply never_aborts_log|]. intros _. apply never_aborts_ret.
  - destruct (s_aws_event_flags_from_kevent kev =? 0); [apply never_aborts_ret|].
    destruct (udata kev) as [a|]; [|intros w w'; discriminate].
    apply never_aborts_bind; [apply never_aborts_load_handle_data|]. intros d.
    apply never_aborts_bind; [apply never_aborts_store_handle_data|]. intros _.
    apply never_aborts_ret.
Qed.

Lemma never_aborts_process_kevents (kevents : list kevent_t) :
  forall acc, never_aborts (process_kevents kevents acc).
Proof.
  induction kevents as [|k rest IH]; intros acc; cbn [process_kevents].
  - apply never_aborts_ret.
  - apply never_aborts_bind; [apply never_aborts_process_kevent|exact IH].
Qed.

Lemma never_aborts_invoke_handle_callback (a : addr) :
  never_aborts (invoke_handle_callback a).
Proof.
  unfold invoke_handle_callback, call_on_event.
  apply never_aborts_bind; [apply never_aborts_load_handle_data|]. intros d.
  apply never_aborts_bind.
  - apply never_aborts_bind; [apply never_aborts_load_handle_data|]. intros d'.
    apply never_aborts_log.
  - intros _. apply never_aborts_bind; [apply never_aborts_load_handle_data|]. intros d'.
    apply never_aborts_store_handle_data.
Qed.

Lemma never_aborts_dispatch_kevents (kevents : list kevent_t) (b : bool) :
  never_aborts (dispatch_kevents kevents b).
Proof.
  unfold dispatch_kevents.
  apply never_aborts_bind; [apply never_aborts_process_kevents|]. intros [io b'].
  apply never_aborts_bind; [|intros _; apply never_aborts_ret].
  apply never_aborts_for_each. intros a. apply never_aborts_invoke_handle_callback.
Qed.

(** An iteration changes the lifecycle state in one way only: the private
    copy moves to Stopping when the inbox is read and asks for it. *)
Lemma iteration_lifecycle (timeout : timespec) (w : world) :
  ends_with (event_thread_iteration timeout w)
    (fun w' =>
       lifecycle_frame w' =
         (thread (impl w), pipe_read_fd (impl w), cross_state w,
          if wakes_for_inbox (pipe_read_fd (impl w))
               (env_kevent w [] MAX_EVENTS (Some timeout)) && sees_stop w
          then EVENT_THREAD_STATE_STOPPING else private_state w)).
Proof.
  unfold event_thread_iteration.
  set (answer := env_kevent w [] MAX_EVENTS (Some timeout)).
  apply ends_with_bind; [intros w' H; discriminate H|]. intros [n evs] w1 H1.
  unfold kevent in H1. fold answer in H1. inversion H1 as [[Hans Hw1]]. clear H1.
  assert (Hi1 : impl w1 = impl w) by (subst w1; reflexivity).
  apply ends_with_bind.
  { intros w' H. destruct (n =? -1); discriminate H. }
  intros b0 wb Hb0.
  assert (Hfirst : b0 = (n =? -1) /\ impl wb = impl w).
  { destruct (n =? -1); inversion Hb0; subst; split; reflexivity. }
  destruct Hfirst as [-> Hib]. clear Hb0.
  apply ends_with_bind.
  { intros w' H. exfalso. exact (never_aborts_dispatch_kevents _ _ _ _ H). }
  intros b wc Hd.
  pose proof (dispatch_kevents_should _ _ _ _ _ Hd) as Hb.
  pose proof (preserves_returned _ _ _ _ _ (preserves_impl_dispatch_kevents evs (n =? -1)) Hd)
    as Hic.
  assert (Hwake : b = wakes_for_inbox (pipe_read_fd (impl w)) answer).
  { rewrite Hb, Hib. unfold kevent_answer in Hans. destruct answer as [l|].
    - inversion Hans; subst. cbn [wakes_for_inbox].
      assert (Hn : (Z.of_nat (length (take MAX_EVENTS l)) =? -1) = false)
        by (apply Z.eqb_neq; lia).
      rewrite Hn. reflexivity.
    - inversion Hans; subst. reflexivity. }
  assert (Hdrain : exists wd, when b s_process_cross_thread_data wc = Returned tt wd /\
             lifecycle_frame wd =
               (thread (impl w), pipe_read_fd (impl w), cross_state w,
                if b && sees_stop w then EVENT_THREAD_STATE_STOPPING else private_state w)).
  { destruct b; cbn [when andb].
    - pose proof (process_cross_thread_data_lifecycle wc) as H.
      rewrite process_cross_thread_data_eq in H |- *. eexists. split; [reflexivity|].
      cbn [ends_with] in H. rewrite H.
      unfold sees_stop, cross_state, private_state. rewrite Hic, Hib. reflexivity.
    - eexists. split; [reflexivity|].
      unfold lifecycle_frame, cross_state, private_state. rewrite Hic, Hib. reflexivity. }
  destruct Hdrain as (wd & Hrun_d & Hfd).
  apply ends_with_bind; [intros w' H; rewrite Hrun_d in H; discriminate H|].
  intros [] wd' Hwd. rewrite Hrun_d in Hwd. inversion Hwd; subst wd'. clear Hwd.
  rewrite <- Hwake, <- Hfd.
  apply ends_with_bind; [intros w' H; discriminate H|]. intros [e now1] we Hc.
  pose proof (preserves_returned _ _ _ _ _
                (preserves_lifecycle_of_impl _ (preserves_impl_clock 0)) Hc) as Hfe.
  rewrite <- Hfe.
  apply ends_with_bind.
  { intros w' H. pose proof (preserves_lifecycle_run_all now1 we) as Hp.
    rewrite H in Hp. exact Hp. }
  intros [] wf Hr.
  pose proof (preserves_returned _ _ _ _ _ (preserves_lifecycle_run_all now1) Hr) as Hff.
  rewrite <- Hff.
  exact (preserves_lifecycle_of_impl _ (preserves_impl_set_next_timeout now1) wf).
Qed.
End Lifecycle.

(** X5. [s_wait_for_stop_completion] joins the thread and looks at the
    result.  When the join fails it returns the error and leaves both
    copies of the lifecycle state as they were; when the join succeeds it
    sets both copies to Ready and returns success.  A debug build first
    checks, under the mutex, that the inbox does not say Running, and
    aborts before the join when it does; a build without assertions joins
    in any state.  The scheduler, the inbox, the count of handles, the heap
    and the handles are never touched. *)
Theorem s_wait_for_stop_completion_correct (P : Platform) (E : Environment) (w : world) :
  (DEBUG_BUILD = true -> NDEBUG = false ->
   cross_state w = EVENT_THREAD_STATE_RUNNING ->
   s_wait_for_stop_completion w = Aborted (add_effect E_mutex_lock w)) /\
  (DEBUG_BUILD && negb NDEBUG &&
     event_thread_state_eqb (cross_state w) EVENT_THREAD_STATE_RUNNING = false ->
   exists w',
     s_wait_for_stop_completion w =
       Returned (if env_thread_join (join_world w) =? 0 then AWS_OP_SUCCESS else AWS_OP_ERR)
         w' /\
     trace w' = trace (join_world w) ++ [E_thread_join] /\
     task_frame w' = task_frame w /\
     cross_state w' =
       (if env_thread_join (join_world w) =? 0 then EVENT_THREAD_STATE_READY_TO_RUN
        else cross_state w) /\
     private_state w' =
       (if env_thread_join (join_world w) =? 0 then EVENT_THREAD_STATE_READY_TO_RUN
        else private_state w)).
Proof.
  split.
  - intros Hd Hn Hst.
    destruct w as [[th kq pr [sig q st] [sch n pst]] hp hs tr].
    unfold cross_state in Hst. cbn in Hst. subst st.
    unfold s_wait_for_stop_completion, bind, get, ret, aws_mutex_lock, aws_mutex_unlock, log,
      modify_impl, when, c_assert, aws_thread_join.
    rewrite Hd. cbn. rewrite Hn. reflexivity.
  - intros Hok. rewrite (wait_for_stop_completion_eq w Hok).
    destruct (env_thread_join (join_world w) =? 0); eexists; (split; [reflexivity|]);
      unfold join_world; destruct DEBUG_BUILD;
      destruct w as [[th kq pr [sig q st] [sch n pst]] hp hs tr]; repeat split.
Qed.

(** The thread of [pending_world_stopped] is joined: both copies of the
    state are Ready. *)
Lemma s_wait_for_stop_completion_correct_witness :
  exists w',
    @s_wait_for_stop_completion (bsd64 false) quiet_env pending_world_stopped =
      Returned AWS_OP_SUCCESS w' /\
    cross_state w' = EVENT_THREAD_STATE_READY_TO_RUN /\
    private_state w' = EVENT_THREAD_STATE_READY_TO_RUN.
Proof.
  destruct (proj2 (s_wait_for_stop_completion_correct (bsd64 false) quiet_env
                     pending_world_stopped) eq_refl)
    as (w' & Hrun & _ & _ & Hc & Hp).
  exists w'. split; [exact Hrun|]. split; [exact Hc|exact Hp].
Defined.

(** X6. A loop can be run again.  In whatever state it is, [s_stop]
    succeeds and leaves the inbox's state other than Running; when the join
    then succeeds, [s_wait_for_stop_completion] succeeds; when the launch
    then succeeds, [s_run] succeeds, with the inbox's state Running and the
    private state Ready, as [s_event_thread_main] asserts it.  No assertion
    fails on the way, in a debug build either, and the three calls leave the
    scheduler, the tasks of the inbox, the count of handles, the heap and
    the handles alone. *)
Theorem stop_wait_run_again (P : Platform) (E : Environment) (w : world) :
  exists w1,
    s_stop w = Returned AWS_OP_SUCCESS w1 /\
    cross_state w1 <> EVENT_THREAD_STATE_RUNNING /\
    (env_thread_join (join_world w1) = 0 ->
     exists w2,
       s_wait_for_stop_completion w1 = Returned AWS_OP_SUCCESS w2 /\
       (env_thread_launch (with_cross_state EVENT_THREAD_STATE_RUNNING w2) = 0 ->
        exists w3,
          s_run w2 = Returned AWS_OP_SUCCESS w3 /\
          cross_state w3 = EVENT_THREAD_STATE_RUNNING /\
          private_state w3 = EVENT_THREAD_STATE_READY_TO_RUN /\
          task_frame w3 = task_frame w)).
Proof.
  eexists. split; [apply stop_eq|].
  set (w1 := if event_thread_state_eqb (cross_state w) EVENT_THREAD_STATE_RUNNING
             then _ else _).
  assert (Hst : cross_state w1 <> EVENT_THREAD_STATE_RUNNING).
  { subst w1. destruct w as [[th kq pr [sig q st] [sch n pst]] hp hs tr].
    unfold cross_state. cbn. destruct st; cbn; discriminate. }
  assert (Hf1 : task_frame w1 = task_frame w).
  { subst w1. destruct w as [[th kq pr [sig q st] [sch n pst]] hp hs tr].
    unfold cross_state. cbn. destruct st; reflexivity. }
  split; [exact Hst|]. intros Hjoin.
  assert (Hok : DEBUG_BUILD && negb NDEBUG &&
                event_thread_state_eqb (cross_state w1) EVENT_THREAD_STATE_RUNNING = false).
  { destruct (cross_state w1); [|contradiction|]; cbn; apply andb_false_r. }
  rewrite (wait_for_stop_completion_eq w1 Hok), Hjoin. cbn [Z.eqb].
  eexists. split; [reflexivity|]. intros Hlaunch.
  set (w2 := back_to_ready _) in *.
  assert (Hready : NDEBUG ||
            (event_thread_state_eqb (cross_state w2) EVENT_THREAD_STATE_READY_TO_RUN &&
             event_thread_state_eqb (private_state w2) EVENT_THREAD_STATE_READY_TO_RUN)
            = true).
  { subst w2. apply orb_true_r. }
  rewrite (run_eq w2 Hready), Hlaunch. cbn [Z.eqb].
  eexists. split; [reflexivity|]. split; [reflexivity|]. split; [reflexivity|].
  rewrite <- Hf1. subst w2. unfold join_world. destruct DEBUG_BUILD; reflexivity.
Qed.

(** [pending_world], a running loop, is stopped, joined and run again. *)
Lemma stop_wait_run_again_witness :
  exists w1 w2 w3,
    s_stop pending_world = Returned AWS_OP_SUCCESS w1 /\
    @s_wait_for_stop_completion (bsd64 false) quiet_env w1 = Returned AWS_OP_SUCCESS w2 /\
    @s_run (bsd64 false) quiet_env w2 = Returned AWS_OP_SUCCESS w3 /\
    cross_state w3 = EVENT_THREAD_STATE_RUNNING.
Proof.
  destruct (stop_wait_run_again (bsd64 false) quiet_env pending_world)
    as (w1 & H1 & _ & Hrest).
  destruct (Hrest eq_refl) as (w2 & H2 & Hrest2).
  destruct (Hrest2 eq_refl) as (w3 & H3 & Hc & _).
  exists w1, w2, w3. repeat split; assumption.
Defined.

Lemma event_thread_loop_stopped (P : Platform) (E : Environment)
    (fuel : nat) (timeout : timespec) (w : world) :
  private_state w <> EVENT_THREAD_STATE_RUNNING ->
  event_thread_loop fuel timeout w = Returned tt w.
Proof.
  intros H. unfold private_state in H.
  destruct fuel; cbn [event_thread_loop];
    destruct (Private.state (thread_data (impl w))); try reflexivity; contradiction.
Qed.

Lemma event_thread_loop_running (P : Platform) (E : Environment)
    (fuel : nat) (timeout : timespec) (w : world) :
  private_state w = EVENT_THREAD_STATE_RUNNING ->
  event_thread_loop (S fuel) timeout w =
    (let* timeout' := event_thread_iteration timeout in
     event_thread_loop fuel timeout') w.
Proof.
  intros H. unfold private_state in H. cbn [event_thread_loop]. rewrite H. reflexivity.
Qed.

(** X7. A stop request is honoured by the first iteration that reads the
    inbox.  When the inbox says Stopping while the event thread is Running,
    and the wait of an iteration fails or reports the signal pipe, the
    iteration ends with the private state Stopping, having left the inbox's
    copy alone, and it is the loop's last: the loop runs this one iteration
    to its end and returns. *)
Theorem event_thread_observes_stop (P : Platform) (E : Environment)
    (fuel : nat) (timeout : timespec) (w : world) :
  private_state w = EVENT_THREAD_STATE_RUNNING ->
  cross_state w = EVENT_THREAD_STATE_STOPPING ->
  wakes_for_inbox (pipe_read_fd (impl w)) (env_kevent w [] MAX_EVENTS (Some timeout)) = true ->
  ends_with (event_thread_iteration timeout w)
    (fun w' => private_state w' = EVENT_THREAD_STATE_STOPPING /\
               cross_state w' = EVENT_THREAD_STATE_STOPPING) /\
  event_thread_loop (S fuel) timeout w =
    (let* _ := event_thread_iteration timeout in ret tt) w.
Proof.
  intros Hp Hc Hwake.
  pose proof (iteration_lifecycle timeout w) as Hl.
  assert (Hsees : sees_stop w = true) by (unfold sees_stop; rewrite Hp, Hc; reflexivity).
  rewrite Hwake, Hsees, Hc in Hl. cbn [andb] in Hl.
  split.
  - eapply ends_with_impl; [exact Hl|]. cbn beta. intros w' H.
    unfold lifecycle_frame in H. inversion H. split; reflexivity.
  - rewrite (event_thread_loop_running P E fuel timeout w Hp). unfold bind.
    destruct (event_thread_iteration timeout w) as [t' w'| | |]; try reflexivity.
    cbn [ends_with] in Hl. unfold ret. apply event_thread_loop_stopped.
    unfold lifecycle_frame in Hl. injection Hl as Ht Hpipe Hcs Hps.
    rewrite Hps. discriminate.
Qed.

(** The kernel reports the signal pipe to a running loop that was asked to
    stop: one iteration, and the loop has returned. *)
Lemma event_thread_observes_stop_witness :
  exists w',
    @event_thread_loop (bsd64 false)
      (constant_env (Some [EV_SET 4 (-1) 0 0 0 None]) (Some 0) 0 0 true)
      1 (mk_timespec 100 0) pending_world_stopped = Returned tt w' /\
    private_state w' = EVENT_THREAD_STATE_STOPPING.
Proof.
  destruct (event_thread_observes_stop (bsd64 false)
              (constant_env (Some [EV_SET 4 (-1) 0 0 0 None]) (Some 0) 0 0 true)
              0 (mk_timespec 100 0) pending_world_stopped eq_refl eq_refl eq_refl)
    as [_ Hloop].
  rewrite Hloop. eexists. split; [vm_compute; reflexivity|reflexivity].
Defined.




(** ** The accumulators between iterations *)

Section Accumulators.
Context {P : Platform} {E : Environment}.

Lemma keeps_ret {A : Type} (I : world -> Prop) (a : A) : keeps I (ret a).
Proof. intros w H. exact H. Qed.

Lemma keeps_bind {A B : Type} (I : world -> Prop) (m : M A) (k : A -> M B) :
  keeps I m -> (forall a, keeps I (k a)) -> keeps I (bind m k).
Proof.
  intros Hm Hk w HI. apply ends_with_bind.
  - intros w' H. specialize (Hm w HI). rewrite H in Hm. exact Hm.
  - intros a w' H. specialize (Hm w HI). rewrite H in Hm. exact (Hk a w' Hm).
Qed.

Lemma keeps_for_each {A : Type} (I : world -> Prop) (f : A -> M unit) (l : list A) :
  (forall a, keeps I (f a)) -> keeps I (for_each f l).
Proof.
  intros Hf. induction l as [|a rest IH]; cbn [for_each].
  - apply keeps_ret.
  - apply keeps_bind; [apply Hf|intros _; exact IH].
Qed.

Lemma keeps_if {A : Type} (I : world -> Prop) (b : bool) (m1 m2 : M A) :
  keeps I m1 -> keeps I m2 -> keeps I (if b then m1 else m2).
Proof. destruct b; tauto. Qed.

Lemma keeps_when (I : world -> Prop) (b : bool) (m : M unit) :
  keeps I m -> keeps I (when b m).
Proof. intros H. destruct b; [exact H|apply keeps_ret]. Qed.

Lemma keeps_of_preserves_heap {A : Type} (Q : gmap addr handle_data -> Prop) (m : M A) :
  preserves heap m -> keeps (fun w => Q (heap w)) m.
Proof.
  intros Hp w HQ. specialize (Hp w). unfold ends_with in *.
  destruct (m w); try exact I; rewrite Hp; exact HQ.
Qed.

Lemma preserves_heap_log (e : effect) : preserves heap (log e).
Proof. intros w. reflexivity. Qed.

Lemma preserves_heap_get : preserves heap get.
Proof. intros w. reflexivity. Qed.

Lemma preserves_heap_modify_impl (f : kqueue_loop -> kqueue_loop) :
  preserves heap (modify_impl f).
Proof. intros w. reflexivity. Qed.

Lemma preserves_heap_c_assert (b : bool) : preserves heap (c_assert b).
Proof. intros w. unfold c_assert. destruct (NDEBUG || b); reflexivity. Qed.

Lemma preserves_heap_kevent (cl : list kevent_t) (n : nat) (t : option timespec) :
  preserves heap (kevent cl n t).
Proof. intros w. reflexivity. Qed.

Lemma preserves_heap_clock (now_ns : Z) : preserves heap (clock now_ns).
Proof. intros w. reflexivity. Qed.

Lemma preserves_heap_load_handle_data (a : addr) : preserves heap (load_handle_data a).
Proof. intros w. unfold load_handle_data. destruct (heap w !! a); reflexivity. Qed.

Lemma preserves_heap_load_handle (a : addr) : preserves heap (load_handle a).
Proof. intros w. unfold load_handle. destruct (handles w !! a); reflexivity. Qed.

Lemma preserves_heap_all_receipts_succeeded (rs : list kevent_t) :
  preserves heap (all_receipts_succeeded rs).
Proof.
  induction rs as [|r rs IH]; cbn [all_receipts_succeeded].
  - apply preserves_ret.
  - apply preserves_bind; [apply preserves_heap_c_assert|].
    intros _. apply preserves_if; [apply preserves_ret|exact IH].
Qed.

Lemma preserves_heap_schedule (caller : thread_id_t) (t : aws_task) (at_ : Z) :
  preserves heap (s_schedule_task_common caller t at_).
Proof.
  intros w. destruct w as [[th kq pr [sig q st] [sch n pst]] hp hs tr].
  unfold s_schedule_task_common, s_is_event_thread, bind, get, ret, aws_mutex_lock,
    aws_mutex_unlock, log, modify_impl, when, signal_cross_thread_data_changed.
  cbn. destruct (caller =? th); cbn.
  - destruct (at_ =? 0); reflexivity.
  - destruct sig; reflexivity.
Qed.

Lemma preserves_heap_set_next_timeout (now_ns : Z) : preserves heap (set_next_timeout now_ns).
Proof.
  unfold set_next_timeout.
  apply preserves_bind; [apply preserves_heap_clock|]. intros [e t].
  apply preserves_bind; [apply preserves_heap_get|]. intros w0. apply preserves_ret.
Qed.

Lemma load_handle_data_returned (a : addr) (w w' : world) (d : handle_data) :
  load_handle_data a w = Returned d w' -> w' = w /\ heap w !! a = Some d.
Proof.
  unfold load_handle_data. destruct (heap w !! a); [|discriminate].
  intros H. inversion H; subst. split; reflexivity.
Qed.

Lemma quiescent_insert (h : gmap addr handle_data) (a : addr) (d : handle_data) :
  quiescent h -> events_this_loop d = 0 -> quiescent (<[a := d]> h).
Proof. intros Hq Hd. apply map_Forall_insert_2; assumption. Qed.

Lemma quiescent_lookup (h : gmap addr handle_data) (a : addr) (d : handle_data) :
  quiescent h -> h !! a = Some d -> events_this_loop d = 0.
Proof. intros Hq Hd. exact (proj1 (map_Forall_lookup _ _) Hq a d Hd). Qed.

(** Storing a record back with another [kevent_added_successfully]. *)
Lemma keeps_quiescent_mark (a : addr) (b : bool) :
  keeps (fun w => quiescent (heap w))
    (let* d := load_handle_data a in
     store_handle_data a (set_kevent_added_successfully b d)).
Proof.
  intros w Hq. apply ends_with_bind.
  - intros w' H. pose proof (never_aborts_load_handle_data a w w' H) as []. 
  - intros d w' H. apply load_handle_data_returned in H. destruct H as [-> Hd].
    cbn. apply quiescent_insert; [exact Hq|]. exact (quiescent_lookup _ _ _ Hq Hd).
Qed.

Lemma keeps_quiescent_subscribe_failed (arg : addr) (rs : list kevent_t) :
  keeps (fun w => quiescent (heap w)) (subscribe_failed arg rs).
Proof.
  intros w Hq. destruct (heap w !! arg) as [d|] eqn:Hd.
  - rewrite (subscribe_failed_eq arg rs w d Hd). cbn.
    apply quiescent_insert; [exact Hq|]. exact (quiescent_lookup _ _ _ Hq Hd).
  - unfold subscribe_failed. unfold bind at 1. unfold load_handle_data. rewrite Hd.
    exact I.
Qed.

Lemma keeps_quiescent_subscribe_task_rest (arg : addr) (status : aws_task_status) :
  keeps (fun w => quiescent (heap w)) (subscribe_task_rest arg status).
Proof.
  destruct status; cbn [subscribe_task_rest]; [|apply keeps_ret].
  apply keeps_bind; [apply keeps_of_preserves_heap, preserves_heap_load_handle_data|].
  intros d.
  apply keeps_bind; [apply keeps_of_preserves_heap, preserves_heap_load_handle|].
  intros h.
  apply keeps_bind; [apply keeps_of_preserves_heap, preserves_heap_kevent|].
  intros [n rs].
  apply keeps_if; [apply keeps_quiescent_subscribe_failed|].
  apply keeps_bind;
    [apply keeps_of_preserves_heap, preserves_heap_all_receipts_succeeded|].
  intros ok. apply keeps_if; [|apply keeps_quiescent_subscribe_failed].
  apply keeps_quiescent_mark.
Qed.

Lemma keeps_quiescent_unsubscribe_task_rest (arg : addr) (status : aws_task_status) :
  keeps (fun w => quiescent (heap w)) (unsubscribe_task_rest arg status).
Proof.
  unfold unsubscribe_task_rest. apply keeps_bind.
  - apply keeps_of_preserves_heap. destruct status; [|apply preserves_ret].
    apply preserves_bind; [apply preserves_heap_load_handle_data|]. intros d.
    apply preserves_if; [|apply preserves_ret].
    apply preserves_bind; [apply preserves_heap_load_handle|]. intros h.
    apply preserves_bind; [apply preserves_heap_kevent|]. intros _. apply preserves_ret.
  - intros _. unfold aws_mem_release. apply keeps_bind.
    + intros w Hq. cbn. apply map_Forall_delete. exact Hq.
    + intros _. apply keeps_of_preserves_heap, preserves_heap_log.
Qed.

Lemma keeps_quiescent_call_task_fn (caller : thread_id_t) (t : aws_task)
    (status : aws_task_status) :
  keeps (fun w => quiescent (heap w)) (call_task_fn caller t status).
Proof.
  unfold call_task_fn.
  apply keeps_bind; [apply keeps_of_preserves_heap, preserves_heap_log|]. intros _.
  destruct t as [a ts|a ts|i ts r c].
  - intros w Hq. rewrite s_subscribe_task_unfold.
    apply keeps_quiescent_subscribe_task_rest. exact Hq.
  - intros w Hq. rewrite s_unsubscribe_task_unfold.
    apply keeps_quiescent_unsubscribe_task_rest. exact Hq.
  - apply keeps_of_preserves_heap, preserves_for_each. intros u.
    apply preserves_heap_schedule.
Qed.

Lemma keeps_quiescent_run_all (now : Z) :
  keeps (fun w => quiescent (heap w)) (aws_task_scheduler_run_all now).
Proof.
  unfold aws_task_scheduler_run_all.
  apply keeps_bind; [apply keeps_of_preserves_heap, preserves_heap_get|]. intros w0.
  apply keeps_bind; [apply keeps_of_preserves_heap, preserves_heap_modify_impl|].
  intros _. apply keeps_for_each. intros t. apply keeps_quiescent_call_task_fn.
Qed.

(** The first loop over the events keeps the array of notified records
    in step with the accumulators. *)
Lemma process_kevent_listed (kev : kevent_t) (io io' : list addr) (b b' : bool)
    (w w' : world) :
  listed (heap w) io ->
  process_kevent kev (io, b) w = Returned (io', b') w' ->
  listed (heap w') io'.
Proof.
  intros Hl. unfold process_kevent, bind, get, log, ret.
  destruct (ident kev =? pipe_read_fd (impl w)).
  { intros H. inversion H; subst. exact Hl. }
  destruct (s_aws_event_flags_from_kevent kev =? 0) eqn:Hfl.
  { intros H. inversion H; subst. exact Hl. }
  destruct (udata kev) as [a|]; [|discriminate].
  unfold load_handle_data, store_handle_data, modify_heap.
  destruct (heap w !! a) as [d|] eqn:Hd; [|discriminate].
  intros H. inversion H; subst. cbn [heap].
  apply listed_record; [exact Hl|exact Hd|]. apply Z.eqb_neq. exact Hfl.
Qed.

Lemma process_kevents_listed (kevents : list kevent_t) :
  forall (io io' : list addr) (b b' : bool) (w w' : world),
    listed (heap w) io ->
    process_kevents kevents (io, b) w = Returned (io', b') w' ->
    listed (heap w') io'.
Proof.
  induction kevents as [|k rest IH]; intros io io' b b' w w' Hl Hrun.
  - cbn in Hrun. inversion Hrun; subst. exact Hl.
  - cbn [process_kevents] in Hrun. unfold bind at 1 in Hrun.
    destruct (process_kevent k (io, b) w) as [[io1 b1] w1| | |] eqn:Hstep; try discriminate.
    exact (IH _ _ _ _ _ _ (process_kevent_listed _ _ _ _ _ _ _ Hl Hstep) Hrun).
Qed.

Lemma quiescent_listed_nil (h : gmap addr handle_data) : quiescent h -> listed h [].
Proof.
  intros Hq. split; [apply NoDup_nil_2|]. intros a. split; [intros Ha; inversion Ha|].
  intros (d & Hd & Hne). exfalso. apply Hne. exact (quiescent_lookup _ _ _ Hq Hd).
Qed.

(** The second loop leaves every accumulator empty. *)
Lemma invoke_callbacks_quiescent (io : list addr) (w : world) :
  listed (heap w) io ->
  exists w', for_each invoke_handle_callback io w = Returned tt w' /\ quiescent (heap w').
Proof.
  intros [Hnd Hin].
  destruct (invoke_callbacks_spec io w Hnd) as (h' & Hrun & Hh).
  { intros a Ha. apply Hin in Ha. destruct Ha as (d & Hd & _). exists d. exact Hd. }
  eexists. split; [exact Hrun|]. cbn [heap].
  apply map_Forall_lookup. intros a d' Hd'. rewrite Hh in Hd'.
  destruct (heap w !! a) as [d|] eqn:Hd; [|discriminate]. cbn in Hd'.
  inversion Hd'; subst. clear Hd'.
  destruct (decide (a ∈ io)) as [Ha|Ha].
  - rewrite bool_decide_eq_true_2 by exact Ha. reflexivity.
  - rewrite bool_decide_eq_false_2 by exact Ha.
    destruct (Z.eq_dec (events_this_loop d) 0) as [Hz|Hz]; [exact Hz|].
    exfalso. apply Ha. apply Hin. exists d. split; [exact Hd|exact Hz].
Qed.

Lemma keeps_quiescent_dispatch_kevents (kevents : list kevent_t) (b : bool) :
  keeps (fun w => quiescent (heap w)) (dispatch_kevents kevents b).
Proof.
  intros w Hq. unfold dispatch_kevents. apply ends_with_bind.
  - intros w' H. exfalso. exact (never_aborts_process_kevents _ _ _ _ H).
  - intros [io b'] w1 Hrun.
    pose proof (process_kevents_listed _ _ _ _ _ _ _ (quiescent_listed_nil _ Hq) Hrun) as Hl.
    destruct (invoke_callbacks_quiescent io w1 Hl) as (w2 & Hrun2 & Hq2).
    unfold bind. rewrite Hrun2. exact Hq2.
Qed.

Lemma keeps_quiescent_iteration (timeout : timespec) :
  keeps (fun w => quiescent (heap w)) (event_thread_iteration timeout).
Proof.
  unfold event_thread_iteration.
  apply keeps_bind; [apply keeps_of_preserves_heap, preserves_heap_kevent|].
  intros [n evs]. apply keeps_bind.
  { apply keeps_of_preserves_heap. apply preserves_if; [|apply preserves_ret].
    apply preserves_bind; [apply preserves_heap_log|]. intros _. apply preserves_ret. }
  intros b0. apply keeps_bind; [apply keeps_quiescent_dispatch_kevents|]. intros b.
  apply keeps_bind.
  { apply keeps_when. intros w Hq. rewrite process_cross_thread_data_eq. exact Hq. }
  intros _. apply keeps_bind; [apply keeps_of_preserves_heap, preserves_heap_clock|].
  intros [e now1]. apply keeps_bind; [apply keeps_quiescent_run_all|]. intros _.
  apply keeps_of_preserves_heap, preserves_heap_set_next_timeout.
Qed.

Lemma keeps_quiescent_loop (fuel : nat) :
  forall timeout, keeps (fun w => quiescent (heap w)) (event_thread_loop fuel timeout).
Proof.
  induction fuel as [|fuel IH]; intros timeout w Hq; cbn [event_thread_loop].
  - destruct (event_thread_state_eqb _ _); [exact I|exact Hq].
  - destruct (event_thread_state_eqb _ _); [|exact Hq].
    apply (keeps_bind _ _ _ (keeps_quiescent_iteration timeout) (IH)). exact Hq.
Qed.
End Accumulators.

(** X9. The precondition of the dispatch is an invariant of the event
    thread.  When every accumulator [events_this_loop] is empty, the two
    loops over the events of a wait, whatever the events are, leave every
    accumulator empty again; so do the read of the inbox and the tasks that
    run, a subscribe task that marks its record, a failed one and an
    unsubscribe task that releases its record included.  Hence every
    iteration of [s_event_thread_main] starts with every accumulator empty
    if the first one does, and no event reported in one iteration is
    passed to a callback in a later one. *)
Theorem event_thread_keeps_quiescent (P : Platform) (E : Environment) (w : world) :
  quiescent (heap w) ->
  (forall kevents should,
     ends_with (dispatch_kevents kevents should w) (fun w' => quiescent (heap w'))) /\
  (forall timeout,
     ends_with (event_thread_iteration timeout w) (fun w' => quiescent (heap w'))) /\
  (forall fuel,
     ends_with (s_event_thread_main fuel w) (fun w' => quiescent (heap w'))).
Proof.
  intros Hq. split; [|split].
  - intros kevents should. apply keeps_quiescent_dispatch_kevents. exact Hq.
  - intros timeout. apply keeps_quiescent_iteration. exact Hq.
  - intros fuel. unfold s_event_thread_main.
    apply (keeps_bind (fun w => quiescent (heap w))); [| |exact Hq].
    + apply keeps_of_preserves_heap, preserves_heap_get.
    + intros w0. apply keeps_bind; [apply keeps_of_preserves_heap, preserves_heap_c_assert|].
      intros _.
      apply keeps_bind; [apply keeps_of_preserves_heap, preserves_heap_modify_impl|].
      intros _. apply keeps_quiescent_loop.
Qed.

(** The handle of [subscribed_world] is reported readable in the one
    iteration a stopping loop makes: the thread returns with the
    accumulator of its record empty. *)
Lemma event_thread_keeps_quiescent_witness :
  quiescent (heap (with_cross_state EVENT_THREAD_STATE_STOPPING (subscribed_world true))) /\
  exists w',
    @s_event_thread_main (bsd64 false)
      (constant_env (Some [EV_SET 5 (-1) 0 0 10 (Some 1%nat); EV_SET 4 (-1) 0 0 4 None])
         (Some 0) 0 0 true) 1
      (with_cross_state EVENT_THREAD_STATE_STOPPING (subscribed_world true)) =
      Returned tt w' /\
    on_event_calls (trace w') = [E_on_event 1 7 1 0] /\
    quiescent (heap w').
Proof.
  assert (Hq : quiescent
                 (heap (with_cross_state EVENT_THREAD_STATE_STOPPING (subscribed_world true)))).
  { apply map_Forall_singleton. reflexivity. }
  split; [exact Hq|].
  pose proof (proj2 (proj2 (event_thread_keeps_quiescent (bsd64 false)
    (constant_env (Some [EV_SET 5 (-1) 0 0 10 (Some 1%nat); EV_SET 4 (-1) 0 0 4 None])
       (Some 0) 0 0 true) _ Hq)) 1%nat) as H.
  eexists. split; [vm_compute; reflexivity|]. split; [vm_compute; reflexivity|].
  exact H.
Defined.

(** ** Subscriptions from the caller's side *)

Lemma schedule_task_now_eq (caller : thread_id_t) (task : aws_task) (w : world) :
  s_schedule_task_now caller task w = Returned tt (queued caller task w).
Proof.
  unfold s_schedule_task_now, queued. destruct (Z.eqb_spec caller (thread (impl w))) as [->|Hne].
  - rewrite schedule_on_thread_eq. reflexivity.
  - apply schedule_off_thread_eq. exact Hne.
Qed.

Lemma queued_frame (caller : thread_id_t) (task : aws_task) (w : world) :
  heap (queued caller task w) = heap w /\
  handles (queued caller task w) = handles w /\
  connected_handle_count (queued caller task w) = connected_handle_count w /\
  cross_state (queued caller task w) = cross_state w /\
  private_state (queued caller task w) = private_state w /\
  exists new, trace (queued caller task w) = trace w ++ new /\
              forallb is_handoff_effect new = true.
Proof.
  unfold queued. destruct w as [[th kq pr [sig q st] [sch n pst]] hp hs tr]. cbn.
  destruct (caller =? th); cbn.
  - repeat split; try reflexivity. exists []. rewrite app_nil_r. split; reflexivity.
  - repeat split; try reflexivity. eexists. split; [reflexivity|]. destruct sig; reflexivity.
Qed.

Section Facade.
Context {P : Platform} {E : Environment}.

Lemma subscribe_to_io_events_eq (caller : thread_id_t) (handle : addr) (events : Z)
    (on_event : nat) (user_data : Z) (w : world) (h : aws_io_handle) :
  handles w !! handle = Some h ->
  NDEBUG = true \/
    (fd h <> -1 /\ additional_data h = None /\
     has_flag events (Z.lor AWS_IO_EVENT_TYPE_READABLE AWS_IO_EVENT_TYPE_WRITABLE) = true) ->
  s_subscribe_to_io_events caller handle events on_event user_data w =
    if env_mem_acquire w
    then Returned AWS_OP_SUCCESS
           (queued caller (SubscribeTask (fresh (dom (heap w))) 0)
              (with_subscription handle (fresh (dom (heap w))) h
                 (mk_handle_data handle on_event user_data events 0 false) w))
    else Returned AWS_OP_ERR w.
Proof.
  intros Hh Hok.
  assert (H1 : NDEBUG || negb (fd h =? -1) = true).
  { destruct Hok as [->|(Hfd & _ & _)]; [reflexivity|].
    apply orb_true_iff. right. apply negb_true_iff, Z.eqb_neq. exact Hfd. }
  assert (H2 : NDEBUG || negb (bool_decide (is_Some (additional_data h))) = true).
  { destruct Hok as [->|(_ & Hnone & _)]; [reflexivity|].
    rewrite Hnone. apply orb_true_r. }
  assert (H3 : NDEBUG ||
               has_flag events (Z.lor AWS_IO_EVENT_TYPE_READABLE AWS_IO_EVENT_TYPE_WRITABLE)
               = true).
  { destruct Hok as [->|(_ & _ & Hev)]; [reflexivity|]. rewrite Hev. apply orb_true_r. }
  unfold s_subscribe_to_io_events.
  unfold bind at 1. unfold load_handle at 1. rewrite Hh.
  unfold bind at 1. unfold c_assert at 1. rewrite H1.
  unfold bind at 1. unfold c_assert at 1. rewrite H2.
  unfold bind at 1. unfold c_assert at 1. rewrite H3.
  unfold bind at 1. unfold aws_mem_acquire.
  destruct (env_mem_acquire w); [|reflexivity].
  unfold bind at 1. unfold store_handle_data, modify_heap.
  unfold bind at 1. unfold modify_handles.
  unfold bind at 1. rewrite schedule_task_now_eq. reflexivity.
Qed.

Lemma unsubscribe_from_io_events_eq (caller : thread_id_t) (handle : addr) (w : world)
    (h : aws_io_handle) (a : addr) :
  handles w !! handle = Some h ->
  additional_data h = Some a ->
  s_unsubscribe_from_io_events caller handle w =
    Returned AWS_OP_SUCCESS
      (queued caller (UnsubscribeTask a 0) (without_subscription handle h w)).
Proof.
  intros Hh Ha. unfold s_unsubscribe_from_io_events.
  unfold bind at 1. unfold load_handle at 1. rewrite Hh.
  unfold bind at 1. unfold c_assert at 1. rewrite Ha. cbn [bool_decide].
  assert (Hdec : bool_decide (is_Some (Some a)) = true)
    by (apply bool_decide_eq_true_2; eexists; reflexivity).
  rewrite Hdec, orb_true_r.
  unfold bind at 1. unfold modify_handles.
  unfold bind at 1. rewrite schedule_task_now_eq. reflexivity.
Qed.
End Facade.



(** X11. In a build with assertions, a call that breaks the protocol of
    subscriptions is refused before anything is changed:
    [s_subscribe_to_io_events] on a handle without a descriptor, on a
    handle that is subscribed already, or for neither reading nor writing,
    and [s_unsubscribe_from_io_events] on a handle that is not subscribed,
    abort in the world they were called in, with no record allocated, no
    handle written and no task queued; and [s_event_thread_main] aborts
    before its first wait when the private state is not Ready. *)
Theorem debug_build_refuses_misuse (P : Platform) (E : Environment) (w : world) :
  NDEBUG = false ->
  (forall caller handle events on_event user_data h,
     handles w !! handle = Some h ->
     fd h = -1 \/ is_Some (additional_data h) \/
     has_flag events (Z.lor AWS_IO_EVENT_TYPE_READABLE AWS_IO_EVENT_TYPE_WRITABLE) = false ->
     s_subscribe_to_io_events caller handle events on_event user_data w = Aborted w) /\
  (forall caller handle h,
     handles w !! handle = Some h ->
     additional_data h = None ->
     s_unsubscribe_from_io_events caller handle w = Aborted w) /\
  (forall fuel,
     private_state w <> EVENT_THREAD_STATE_READY_TO_RUN ->
     s_event_thread_main fuel w = Aborted w).
Proof.
  intros Hn. split; [|split].
  - intros caller handle events on_event user_data h Hh Hbad.
    unfold s_subscribe_to_io_events.
    unfold bind at 1. unfold load_handle at 1. rewrite Hh.
    unfold bind, c_assert. rewrite Hn. cbn [orb].
    destruct (Z.eqb_spec (fd h) (-1)) as [Hfd|Hfd]; [reflexivity|]. cbn [negb].
    destruct (additional_data h) as [a|] eqn:Ha.
    { assert (Hdec : bool_decide (is_Some (Some a)) = true)
        by (apply bool_decide_eq_true_2; eexists; reflexivity).
      rewrite Hdec. reflexivity. }
    assert (Hdec : bool_decide (is_Some (@None addr)) = false).
    { apply bool_decide_eq_false_2. intros [x Hx]. discriminate. }
    rewrite Hdec. cbn [negb].
    destruct Hbad as [Hbad|[[x Hx]|Hbad]]; [contradiction|discriminate|].
    rewrite Hbad. reflexivity.
  - intros caller handle h Hh Ha. unfold s_unsubscribe_from_io_events.
    unfold bind at 1. unfold load_handle at 1. rewrite Hh.
    unfold bind, c_assert. rewrite Hn, Ha. cbn [orb].
    assert (Hdec : bool_decide (is_Some (@None addr)) = false).
    { apply bool_decide_eq_false_2. intros [x Hx]. discriminate. }
    rewrite Hdec. reflexivity.
  - intros fuel Hbad. unfold s_event_thread_main, bind, get, c_assert. rewrite Hn.
    cbn [orb]. unfold private_state in Hbad.
    destruct (event_thread_state_eqb (Private.state (thread_data (impl w)))
                EVENT_THREAD_STATE_READY_TO_RUN) eqn:Hp; [|reflexivity].
    apply event_thread_state_eqb_eq in Hp. contradiction.
Qed.

(** A second subscription of the handle of [subscribed_world]. *)
Lemma debug_build_refuses_misuse_witness :
  @s_subscribe_to_io_events (bsd64 false) quiet_env 2 7%nat 1 0 0 (subscribed_world true) =
    Aborted (subscribed_world true).
Proof.
  refine (proj1 (debug_build_refuses_misuse (bsd64 false) quiet_env
                   (subscribed_world true) eq_refl)
            2 7%nat 1 0%nat 0 (mk_io_handle 5 (Some 1%nat)) _ _).
  - vm_compute. reflexivity.
  - right. left. eexists. reflexivity.
Defined.

(** X12. In a build without assertions nothing stops a second
    subscription of a subscribed handle, and it orphans the first: the
    call succeeds, the handle points to a new record, the record of the
    first subscription stays on the heap with no task queued for it, and an
    unsubscription of the handle queues the unsubscribe task of the second
    record only, so that the first is never released through the handle. *)
Theorem release_build_resubscribe_orphans (P : Platform) (E : Environment)
    (caller : thread_id_t) (handle : addr) (events : Z) (on_event : nat) (user_data : Z)
    (w : world) (h : aws_io_handle) (a0 : addr) (d0 : handle_data) :
  NDEBUG = true ->
  handles w !! handle = Some h ->
  additional_data h = Some a0 ->
  heap w !! a0 = Some d0 ->
  env_mem_acquire w = true ->
  exists a w1 w2,
    s_subscribe_to_io_events caller handle events on_event user_data w =
      Returned AWS_OP_SUCCESS w1 /\
    a <> a0 /\
    handles w1 !! handle = Some (mk_io_handle (fd h) (Some a)) /\
    heap w1 !! a0 = Some d0 /\
    s_unsubscribe_from_io_events caller handle w1 = Returned AWS_OP_SUCCESS w2 /\
    handles w2 !! handle = Some (mk_io_handle (fd h) None) /\
    heap w2 !! a0 = Some d0 /\
    (if caller =? thread (impl w)
     then asap_list (scheduler w2) =
            asap_list (scheduler w) ++ [SubscribeTask a 0; UnsubscribeTask a 0]
     else tasks_to_schedule w2 =
            tasks_to_schedule w ++ [SubscribeTask a 0; UnsubscribeTask a 0]).
Proof.
  intros Hn Hh Ha0 Hd0 Hmem.
  pose proof (subscribe_to_io_events_eq caller handle events on_event user_data w h Hh
                (or_introl Hn)) as Hsub.
  rewrite Hmem in Hsub.
  set (a := fresh (dom (heap w))) in *.
  assert (Hfresh : heap w !! a = None) by (apply not_elem_of_dom, is_fresh).
  assert (Hne : a <> a0) by (intros ->; rewrite Hd0 in Hfresh; discriminate).
  set (d := mk_handle_data handle on_event user_data events 0 false) in *.
  set (w1 := queued caller (SubscribeTask a 0) (with_subscription handle a h d w)) in *.
  destruct (queued_frame caller (SubscribeTask a 0) (with_subscription handle a h d w))
    as (Hheap1 & Hhandles1 & _).
  fold w1 in Hheap1, Hhandles1. cbn [with_subscription heap handles] in Hheap1, Hhandles1.
  assert (Hh1 : handles w1 !! handle = Some (mk_io_handle (fd h) (Some a)))
    by (rewrite Hhandles1; apply lookup_insert_eq).
  pose proof (unsubscribe_from_io_events_eq caller handle w1 _ a Hh1 eq_refl) as Hunsub.
  set (w2 := queued caller (UnsubscribeTask a 0) _) in *.
  destruct (queued_frame caller (UnsubscribeTask a 0)
              (without_subscription handle (mk_io_handle (fd h) (Some a)) w1))
    as (Hheap2 & Hhandles2 & _).
  fold w2 in Hheap2, Hhandles2. cbn [without_subscription heap handles fd] in Hheap2, Hhandles2.
  exists a, w1, w2. split; [exact Hsub|]. split; [exact Hne|]. split; [exact Hh1|].
  split; [rewrite Hheap1, lookup_insert_ne by exact Hne; exact Hd0|].
  split; [exact Hunsub|]. split; [rewrite Hhandles2; apply lookup_insert_eq|].
  split; [rewrite Hheap2, Hheap1, lookup_insert_ne by exact Hne; exact Hd0|].
  subst w2 w1. unfold queued.
  destruct w as [[th kq pr [sig q st] [sch n pst]] hp hs tr]. cbn.
  destruct (caller =? th) eqn:Hc; cbn; rewrite ?Hc; cbn.
  - rewrite <- app_assoc. reflexivity.
  - rewrite <- app_assoc. reflexivity.
Qed.

(** The handle of [subscribed_world] is subscribed again by thread 2, in a
    build without assertions. *)
Lemma release_build_resubscribe_orphans_witness :
  exists a w1,
    @s_subscribe_to_io_events (bsd64 true) quiet_env 2 7%nat 1 0 0 (subscribed_world true) =
      Returned AWS_OP_SUCCESS w1 /\
    a <> 1%nat /\
    handles w1 !! 7%nat = Some (mk_io_handle 5 (Some a)) /\
    heap w1 !! 1%nat = Some (mk_handle_data 7 0 0 3 0 true).
Proof.
  destruct (release_build_resubscribe_orphans (bsd64 true) quiet_env 2 7%nat 1 0%nat 0
              (subscribed_world true) (mk_io_handle 5 (Some 1%nat)) 1%nat
              (mk_handle_data 7 0 0 3 0 true))
    as (a & w1 & w2 & Hrun & Hne & Hh & Hd & _).
  - reflexivity.
  - vm_compute. reflexivity.
  - reflexivity.
  - vm_compute. reflexivity.
  - reflexivity.
  - exists a, w1. repeat split; assumption.
Defined.

(** ** A subscription from beginning to end *)

Section RoundTrip.
Context {P : Platform} {E : Environment}.

Lemma subscribe_task_run_ready_eq (arg : addr) (w : world) (d : handle_data)
    (h : aws_io_handle) :
  heap w !! arg = Some d ->
  handles w !! owner d = Some h ->
  let changelist := changelist_for arg d (fd h) (Z.lor EV_ADD EV_RECEIPT) in
  let answer :=
    env_kevent (with_handle_count_moved 1 w) changelist (length changelist) None in
  NDEBUG = true \/
    Forall (fun r => has_flag (flags r) EV_ERROR = true)
      (receipts_of (length changelist) answer) ->
  exists new,
    s_subscribe_task arg AWS_TASK_STATUS_RUN_READY w =
      Returned tt
        (mk_world (impl (with_handle_count_moved 1 w))
           (<[arg := set_kevent_added_successfully
                       (registration_succeeded (length changelist) answer) d]> (heap w))
           (handles w)
           (trace w ++ E_kevent changelist (length changelist) None :: new)) /\
    (registration_succeeded (length changelist) answer = true -> new = []).
Proof.
  intros Hd Hh changelist answer Hflag.
  rewrite s_subscribe_task_unfold.
  pose proof (subscribe_task_rest_run_ready arg (with_handle_count_moved 1 w) d h Hd Hh)
    as Hrun.
  cbv zeta in Hrun. fold changelist in Hrun. fold answer in Hrun.
  unfold registration_succeeded, receipts_of in *.
  destruct answer as [evs|]; cbn [kevent_answer snd] in *.
  - specialize (Hrun Hflag). rewrite Hrun.
    destruct (forallb receipt_succeeded (take (length changelist) evs)).
    + exists []. split; reflexivity.
    + eexists. split; [reflexivity|discriminate].
  - rewrite Hrun. eexists. split; [reflexivity|discriminate].
Qed.

Lemma unsubscribe_task_run_ready_eq (arg : addr) (w : world) (d : handle_data)
    (h : aws_io_handle) :
  heap w !! arg = Some d ->
  handles w !! owner d = Some h ->
  s_unsubscribe_task arg AWS_TASK_STATUS_RUN_READY w =
    Returned tt
      (unsubscribed arg
         (if kevent_added_successfully d
          then [E_kevent (changelist_for arg d (fd h) EV_DELETE) 0 None] else [])
         w).
Proof.
  intros Hd Hh. rewrite s_unsubscribe_task_unfold.
  destruct (unsubscribe_task_rest_run_ready arg (with_handle_count_moved (-1) w) d Hd)
    as [Hoff Hon].
  destruct (kevent_added_successfully d) eqn:Hk.
  - rewrite (Hon h eq_refl Hh). reflexivity.
  - rewrite (Hoff eq_refl). reflexivity.
Qed.

Lemma count_moved_back (w : world) :
  INT_MIN <= connected_handle_count w <= INT_MAX ->
  impl (with_handle_count_moved (-1)
          (mk_world (impl (with_handle_count_moved 1 w)) (heap w) (handles w) (trace w))) =
  impl w.
Proof.
  intros Hr. destruct w as [[th kq pr c [sch n pst]] hp hs tr].
  unfold connected_handle_count in Hr. cbn in Hr |- *.
  unfold with_private, set_connected_handle_count. cbn.
  replace (wrap_int (n + 1) + -1) with (wrap_int (n + 1) - 1) by lia.
  rewrite wrap_int_succ_pred by exact Hr. reflexivity.
Qed.
End RoundTrip.

(** X13. The two tasks of a subscription undo each other.  When the
    subscribe task of a record has run and its unsubscribe task runs next,
    the unsubscribe task sends the kernel a delete for the subscribed
    filters exactly when the registration had succeeded, and nothing when
    it had failed (whatever was registered has been deleted by the
    subscribe task already); either way the record is released, and the
    loop and the handles are as they were before the subscribe task, the
    count of handles included. *)
Theorem subscribe_unsubscribe_tasks_round_trip (P : Platform) (E : Environment)
    (arg : addr) (w : world) (d : handle_data) (h : aws_io_handle) :
  heap w !! arg = Some d ->
  handles w !! owner d = Some h ->
  INT_MIN <= connected_handle_count w <= INT_MAX ->
  let changelist := changelist_for arg d (fd h) (Z.lor EV_ADD EV_RECEIPT) in
  let answer :=
    env_kevent (with_handle_count_moved 1 w) changelist (length changelist) None in
  let ok := registration_succeeded (length changelist) answer in
  NDEBUG = true \/
    Forall (fun r => has_flag (flags r) EV_ERROR = true)
      (receipts_of (length changelist) answer) ->
  exists w1 w2,
    s_subscribe_task arg AWS_TASK_STATUS_RUN_READY w = Returned tt w1 /\
    s_unsubscribe_task arg AWS_TASK_STATUS_RUN_READY w1 = Returned tt w2 /\
    impl w2 = impl w /\
    heap w2 = delete arg (heap w) /\
    handles w2 = handles w /\
    trace w2 =
      trace w1 ++
      (if ok then [E_kevent (changelist_for arg d (fd h) EV_DELETE) 0 None] else []) ++
      [E_mem_release arg].
Proof.
  intros Hd Hh Hrange changelist answer ok Hflag.
  destruct (subscribe_task_run_ready_eq arg w d h Hd Hh Hflag) as (new & Hsub & _).
  fold changelist answer ok in Hsub.
  eexists. eexists. split; [exact Hsub|].
  set (w1 := mk_world _ _ _ _).
  assert (Hd1 : heap w1 !! arg = Some (set_kevent_added_successfully ok d))
    by apply lookup_insert_eq.
  split; [apply (unsubscribe_task_run_ready_eq arg w1 _ h Hd1 Hh)|].
  unfold unsubscribed. cbn [impl heap handles trace].
  split; [|split; [|split]].
  - subst w1. unfold with_handle_count_moved at 1. cbn [impl heap handles trace].
    pose proof (count_moved_back w Hrange) as Hback.
    unfold with_handle_count_moved at 1 in Hback. cbn [impl heap handles trace] in Hback.
    exact Hback.
  - subst w1. cbn [heap]. apply delete_insert_eq.
  - reflexivity.
  - reflexivity.
Qed.

(** The kernel of [half_refusing_env] refuses the write filter of the
    handle of [subscribed_world]: its unsubscribe task releases the record
    without a word to the kernel. *)
Lemma subscribe_unsubscribe_tasks_round_trip_witness :
  exists w1 w2,
    @s_subscribe_task (bsd64 false) half_refusing_env 1%nat AWS_TASK_STATUS_RUN_READY
      (subscribed_world false) = Returned tt w1 /\
    @s_unsubscribe_task (bsd64 false) half_refusing_env 1%nat AWS_TASK_STATUS_RUN_READY w1 =
      Returned tt w2 /\
    impl w2 = impl (subscribed_world false) /\
    trace w2 = trace w1 ++ [E_mem_release 1%nat].
Proof.
  destruct (subscribe_unsubscribe_tasks_round_trip (bsd64 false) half_refusing_env 1%nat
              (subscribed_world false) (mk_handle_data 7 0 0 3 0 false)
              (mk_io_handle 5 (Some 1%nat)))
    as (w1 & w2 & H1 & H2 & Himpl & _ & _ & Htrace).
  - vm_compute. reflexivity.
  - vm_compute. reflexivity.
  - unfold INT_MIN, INT_MAX. cbn. lia.
  - right. repeat constructor.
  - exists w1, w2. split; [exact H1|]. split; [exact H2|]. split; [exact Himpl|].
    exact Htrace.
Defined.

Section RunAll.
Context {P : Platform} {E : Environment}.

End RunAll.



(** ** The constructor *)

(** X15. The constructor gives back what it took.  Whenever
    [aws_event_loop_new_default] returns [NULL], the calls it made are the
    acquisitions up to the one that failed, in the order of the source, an
    error raised by the constructor itself when that one was [kqueue()] or
    [kevent()], and then the release of every acquisition that had
    succeeded, each once, the last acquired first: the mutex, the
    registration of the pipe, the pipe, the kqueue, the thread, the memory
    of the implementation, the base, the memory of the loop.  Nothing that
    was not acquired is released, and a failure of the first allocation
    releases nothing. *)
Theorem aws_event_loop_new_default_releases (P : Platform) (ans : new_default_answers)
    (calls : list setup_call) :
  aws_event_loop_new_default ans = (None, calls) ->
  exists n : nat,
    (n <= 8)%nat /\
    calls =
      take (S n) (acquisitions ans ++ [N_task_scheduler_init]) ++
      (if bool_decide (n = 4%nat \/ n = 6%nat) then [N_raise_error] else []) ++
      List.flat_map (release_of ans) (rev (take n (acquisitions ans))).
Proof.
  unfold aws_event_loop_new_default.
  destruct (ans_event_loop_mem ans); cbn [negb];
    [|intros H; inversion H; exists 0%nat; split; [lia|reflexivity]].
  destruct (ans_init_base ans =? 0); cbn [negb];
    [|intros H; inversion H; exists 1%nat; split; [lia|reflexivity]].
  destruct (ans_impl_mem ans); cbn [negb];
    [|intros H; inversion H; exists 2%nat; split; [lia|reflexivity]].
  destruct (ans_thread_init ans =? 0); cbn [negb];
    [|intros H; inversion H; exists 3%nat; split; [lia|reflexivity]].
  destruct (ans_kqueue ans =? -1);
    [intros H; inversion H; exists 4%nat; split; [lia|reflexivity]|].
  destruct (ans_pipe_open ans =? 0); cbn [negb];
    [|intros H; inversion H; exists 5%nat; split; [lia|reflexivity]].
  destruct (ans_signal_kevent ans =? -1);
    [intros H; inversion H; exists 6%nat; split; [lia|reflexivity]|].
  destruct (ans_mutex_init ans =? 0); cbn [negb];
    [|intros H; inversion H; exists 7%nat; split; [lia|reflexivity]].
  destruct (ans_scheduler_init ans =? 0); cbn [negb];
    [discriminate|intros H; inversion H; exists 8%nat; split; [lia|reflexivity]].
Qed.

(** The kernel refuses the registration of the pipe, the seventh call: an
    error is raised, then the pipe, the kqueue, the thread, the memory of
    the implementation, the base and the memory of the loop are given
    back. *)
Lemma aws_event_loop_new_default_releases_witness :
  exists n : nat,
    (n <= 8)%nat /\
    [N_mem_acquire_event_loop; N_event_loop_init_base; N_mem_acquire_impl; N_thread_init;
     N_kqueue; N_pipe_open; N_kevent (EV_SET 4 (-1) 1 0 0 None); N_raise_error;
     N_pipe_close; N_close 3; N_thread_clean_up; N_mem_release_impl;
     N_event_loop_clean_up_base; N_mem_release_event_loop] =
      take (S n) (@acquisitions (bsd64 false) pipe_refused_answers ++ [N_task_scheduler_init]) ++
      (if bool_decide (n = 4%nat \/ n = 6%nat) then [N_raise_error] else []) ++
      List.flat_map (@release_of (bsd64 false) pipe_refused_answers)
        (rev (take n (@acquisitions (bsd64 false) pipe_refused_answers))).
Proof.
  exact (aws_event_loop_new_default_releases (bsd64 false) pipe_refused_answers _ eq_refl).
Defined.

(** X16. The constructor succeeds exactly when every answer it gets is a
    success.  It then has acquired everything, raised no error and released
    nothing, and the loop it returns has the thread, the kqueue and the
    read end of the pipe it was given, both copies of the state Ready, an
    unsignaled and empty inbox, an empty scheduler and no handle counted:
    wherever it is put, [s_run] finds its assertions true and returns
    according to the launch of the thread. *)
Theorem aws_event_loop_new_default_success (P : Platform) (E : Environment)
    (ans : new_default_answers) :
  (all_granted ans = false -> fst (aws_event_loop_new_default ans) = None) /\
  (all_granted ans = true ->
   let loop :=
     mk_kqueue_loop (ans_thread_id ans) (ans_kqueue ans) (ans_pipe_read_fd ans)
       (Cross.mk false [] EVENT_THREAD_STATE_READY_TO_RUN)
       (Private.mk empty_scheduler 0 EVENT_THREAD_STATE_READY_TO_RUN) in
   aws_event_loop_new_default ans =
     (Some loop, acquisitions ans ++ [N_task_scheduler_init]) /\
   forall hp hs tr,
     let w := mk_world loop hp hs tr in
     s_run w =
       if env_thread_launch (with_cross_state EVENT_THREAD_STATE_RUNNING w) =? 0
       then Returned AWS_OP_SUCCESS
              (add_effect E_thread_launch (with_cross_state EVENT_THREAD_STATE_RUNNING w))
       else Returned AWS_OP_ERR (add_effect E_thread_launch w)).
Proof.
  unfold all_granted, aws_event_loop_new_default. split.
  - destruct (ans_event_loop_mem ans); [|reflexivity].
    destruct (ans_init_base ans =? 0); [|reflexivity].
    destruct (ans_impl_mem ans); [|reflexivity].
    destruct (ans_thread_init ans =? 0); [|reflexivity].
    destruct (ans_kqueue ans =? -1); [reflexivity|].
    destruct (ans_pipe_open ans =? 0); [|reflexivity].
    destruct (ans_signal_kevent ans =? -1); [reflexivity|].
    destruct (ans_mutex_init ans =? 0); [|reflexivity].
    destruct (ans_scheduler_init ans =? 0); [discriminate|reflexivity].
  - intros Hall.
    apply andb_true_iff in Hall. destruct Hall as [Hall H9].
    apply andb_true_iff in Hall. destruct Hall as [Hall H8].
    apply andb_true_iff in Hall. destruct Hall as [Hall H7].
    apply andb_true_iff in Hall. destruct Hall as [Hall H6].
    apply andb_true_iff in Hall. destruct Hall as [Hall H5].
    apply andb_true_iff in Hall. destruct Hall as [Hall H4].
    apply andb_true_iff in Hall. destruct Hall as [Hall H3].
    apply andb_true_iff in Hall. destruct Hall as [H1 H2].
    apply negb_true_iff in H5, H7.
    rewrite H1, H2, H3, H4, H5, H6, H7, H8, H9. cbn [negb].
    split; [reflexivity|].
    intros hp hs tr. rewrite run_eq; [reflexivity|apply orb_true_r].
Qed.

(** Every answer is a success: the loop is that of [new_world]. *)
Lemma aws_event_loop_new_default_success_witness :
  @aws_event_loop_new_default (bsd64 false) granted_answers =
    (Some new_loop,
     [N_mem_acquire_event_loop; N_event_loop_init_base; N_mem_acquire_impl; N_thread_init;
      N_kqueue; N_pipe_open; N_kevent (EV_SET 4 (-1) 1 0 0 None); N_mutex_init;
      N_task_scheduler_init]).
Proof.
  exact (proj1 (proj2 (aws_event_loop_new_default_success (bsd64 false) quiet_env
                         granted_answers) eq_refl)).
Defined.

(** ** What the caller's side never does *)

Section Emits.
Context {P : Platform} {E : Environment}.

Lemma only_emits_ret {A : Type} (ok : effect -> bool) (a : A) : only_emits ok (ret a).
Proof. intros w. exists []. rewrite app_nil_r. split; reflexivity. Qed.

Lemma only_emits_bind {A B : Type} (ok : effect -> bool) (m : M A) (k : A -> M B) :
  only_emits ok m -> (forall a, only_emits ok (k a)) -> only_emits ok (bind m k).
Proof.
  intros Hm Hk w. apply ends_with_bind.
  - intros w' H. specialize (Hm w). rewrite H in Hm. exact Hm.
  - intros a w' H. specialize (Hm w). rewrite H in Hm. cbn [ends_with] in Hm.
    destruct Hm as (e1 & Ht1 & Hok1).
    eapply ends_with_impl; [apply (Hk a w')|]. cbn beta.
    intros w'' (e2 & Ht2 & Hok2). exists (e1 ++ e2).
    rewrite Ht2, Ht1, <- app_assoc, forallb_app, Hok1, Hok2. split; reflexivity.
Qed.

Lemma only_emits_when (ok : effect -> bool) (b : bool) (m : M unit) :
  only_emits ok m -> only_emits ok (when b m).
Proof. intros H. destruct b; [exact H|apply only_emits_ret]. Qed.

Lemma only_emits_if {A : Type} (ok : effect -> bool) (b : bool) (m1 m2 : M A) :
  only_emits ok m1 -> only_emits ok m2 -> only_emits ok (if b then m1 else m2).
Proof. destruct b; tauto. Qed.

Lemma only_emits_log (ok : effect -> bool) (e : effect) :
  ok e = true -> only_emits ok (log e).
Proof. intros H w. exists [e]. cbn. rewrite H. split; reflexivity. Qed.

Lemma only_emits_silent {A : Type} (ok : effect -> bool) (m : M A) :
  preserves trace m -> only_emits ok m.
Proof.
  intros H w. eapply ends_with_impl; [apply (H w)|]. cbn beta.
  intros w' Ht. exists []. rewrite app_nil_r, Ht. split; reflexivity.
Qed.

Lemma preserves_trace_get : preserves trace get.
Proof. intros w. reflexivity. Qed.

Lemma preserves_trace_modify_impl (f : kqueue_loop -> kqueue_loop) :
  preserves trace (modify_impl f).
Proof. intros w. reflexivity. Qed.

Lemma preserves_trace_modify_heap (f : gmap addr handle_data -> gmap addr handle_data) :
  preserves trace (modify_heap f).
Proof. intros w. reflexivity. Qed.

Lemma preserves_trace_modify_handles
    (f : gmap addr aws_io_handle -> gmap addr aws_io_handle) :
  preserves trace (modify_handles f).
Proof. intros w. reflexivity. Qed.

Lemma preserves_trace_c_assert (b : bool) : preserves trace (c_assert b).
Proof. intros w. unfold c_assert. destruct (NDEBUG || b); reflexivity. Qed.

Lemma preserves_trace_load_handle (a : addr) : preserves trace (load_handle a).
Proof. intros w. unfold load_handle. destruct (handles w !! a); reflexivity. Qed.

Lemma preserves_trace_mem_acquire : preserves trace aws_mem_acquire.
Proof. intros w. unfold aws_mem_acquire. destruct (env_mem_acquire w); reflexivity. Qed.

Lemma only_emits_schedule (caller : thread_id_t) (t : aws_task) (at_ : Z) :
  only_emits is_handoff_effect (s_schedule_task_common caller t at_).
Proof.
  unfold s_schedule_task_common, s_is_event_thread.
  apply only_emits_bind.
  { apply only_emits_bind; [apply only_emits_silent, preserves_trace_get|].
    intros w0. apply only_emits_ret. }
  intros on_thread. apply only_emits_if.
  - apply only_emits_if; apply only_emits_silent, preserves_trace_modify_impl.
  - apply only_emits_bind; [apply only_emits_log; reflexivity|]. intros _.
    apply only_emits_bind; [apply only_emits_silent, preserves_trace_modify_impl|].
    intros _.
    apply only_emits_bind; [apply only_emits_silent, preserves_trace_get|]. intros w0.
    apply only_emits_bind.
    { apply only_emits_when, only_emits_silent, preserves_trace_modify_impl. }
    intros _. apply only_emits_bind; [apply only_emits_log; reflexivity|]. intros _.
    apply only_emits_when, only_emits_log. reflexivity.
Qed.
End Emits.

(** X17. The functions a user calls leave the kernel queue, the
    callbacks and the records to the event thread.  However they end,
    [s_run], [s_stop] and [s_wait_for_stop_completion] add to the trace
    nothing but locks and unlocks of the mutex, writes to the signal pipe
    and the launch or the join of the thread, and the schedule calls,
    [s_subscribe_to_io_events] and [s_unsubscribe_from_io_events] nothing
    but the mutex and the pipe: none of them calls [kevent()], invokes a
    subscriber or a task, reads the clock or releases memory. *)
Theorem callers_side_emits (P : Platform) (E : Environment) :
  only_emits is_lifecycle_effect s_run /\
  only_emits is_lifecycle_effect s_stop /\
  only_emits is_lifecycle_effect s_wait_for_stop_completion /\
  (forall caller task, only_emits is_handoff_effect (s_schedule_task_now caller task)) /\
  (forall caller task run_at_nanos,
     only_emits is_handoff_effect (s_schedule_task_future caller task run_at_nanos)) /\
  (forall caller handle events on_event user_data,
     only_emits is_handoff_effect
       (s_subscribe_to_io_events caller handle events on_event user_data)) /\
  (forall caller handle,
     only_emits is_handoff_effect (s_unsubscribe_from_io_events caller handle)).
Proof.
  split; [|split; [|split; [|split; [|split; [|split]]]]].
  - unfold s_run.
    apply only_emits_bind; [apply only_emits_silent, preserves_trace_get|]. intros w0.
    apply only_emits_bind; [apply only_emits_silent, preserves_trace_c_assert|]. intros _.
    apply only_emits_bind; [apply only_emits_silent, preserves_trace_c_assert|]. intros _.
    apply only_emits_bind; [apply only_emits_silent, preserves_trace_modify_impl|].
    intros _. apply only_emits_bind.
    { intros w. exists [E_thread_launch]. split; reflexivity. }
    intros err. apply only_emits_if; [|apply only_emits_ret].
    apply only_emits_bind; [apply only_emits_silent, preserves_trace_modify_impl|].
    intros _. apply only_emits_ret.
  - unfold s_stop.
    apply only_emits_bind; [apply only_emits_log; reflexivity|]. intros _.
    apply only_emits_bind; [apply only_emits_silent, preserves_trace_get|]. intros w0.
    apply only_emits_bind.
    { apply only_emits_if; [|apply only_emits_ret].
      apply only_emits_bind; [apply only_emits_silent, preserves_trace_modify_impl|].
      intros _.
      apply only_emits_bind; [apply only_emits_silent, preserves_trace_modify_impl|].
      intros _. apply only_emits_ret. }
    intros signal_thread.
    apply only_emits_bind; [apply only_emits_log; reflexivity|]. intros _.
    apply only_emits_bind; [apply only_emits_when, only_emits_log; reflexivity|].
    intros _. apply only_emits_ret.
  - unfold s_wait_for_stop_completion.
    apply only_emits_bind.
    { apply only_emits_when.
      apply only_emits_bind; [apply only_emits_log; reflexivity|]. intros _.
      apply only_emits_bind; [apply only_emits_silent, preserves_trace_get|]. intros w0.
      apply only_emits_bind; [apply only_emits_silent, preserves_trace_c_assert|].
      intros _. apply only_emits_log. reflexivity. }
    intros _. apply only_emits_bind.
    { intros w. exists [E_thread_join]. split; reflexivity. }
    intros err. apply only_emits_if; [apply only_emits_ret|].
    apply only_emits_bind; [apply only_emits_silent, preserves_trace_modify_impl|].
    intros _.
    apply only_emits_bind; [apply only_emits_silent, preserves_trace_modify_impl|].
    intros _. apply only_emits_ret.
  - intros caller task. apply only_emits_schedule.
  - intros caller task run_at_nanos. apply only_emits_schedule.
  - intros caller handle events on_event user_data. unfold s_subscribe_to_io_events.
    apply only_emits_bind; [apply only_emits_silent, preserves_trace_load_handle|].
    intros h.
    apply only_emits_bind; [apply only_emits_silent, preserves_trace_c_assert|]. intros _.
    apply only_emits_bind; [apply only_emits_silent, preserves_trace_c_assert|]. intros _.
    apply only_emits_bind; [apply only_emits_silent, preserves_trace_c_assert|]. intros _.
    apply only_emits_bind; [apply only_emits_silent, preserves_trace_mem_acquire|].
    intros [a|]; [|apply only_emits_ret].
    apply only_emits_bind; [apply only_emits_silent, preserves_trace_modify_heap|].
    intros _.
    apply only_emits_bind; [apply only_emits_silent, preserves_trace_modify_handles|].
    intros _. apply only_emits_bind; [apply only_emits_schedule|]. intros _.
    apply only_emits_ret.
  - intros caller handle. unfold s_unsubscribe_from_io_events.
    apply only_emits_bind; [apply only_emits_silent, preserves_trace_load_handle|].
    intros h.
    apply only_emits_bind; [apply only_emits_silent, preserves_trace_c_assert|]. intros _.
    destruct (additional_data h) as [a|]; [|intros w; exact I].
    apply only_emits_bind; [apply only_emits_silent, preserves_trace_modify_handles|].
    intros _. apply only_emits_bind; [apply only_emits_schedule|]. intros _.
    apply only_emits_ret.
Qed.

(** ** From the inbox to the callback *)

Section Delivery.
Context {P : Platform} {E : Environment}.

Lemma only_emits_weaken {A : Type} (ok ok' : effect -> bool) (m : M A) :
  (forall e, ok e = true -> ok' e = true) -> only_emits ok m -> only_emits ok' m.
Proof.
  intros Hw Hm w. eapply ends_with_impl; [apply (Hm w)|]. cbn beta.
  intros w' (extra & Ht & Hok). exists extra. split; [exact Ht|].
  apply forallb_forall. intros e He.
  apply Hw. exact (proj1 (forallb_forall _ _) Hok e He).
Qed.

Lemma calm_kevent (cl : list kevent_t) (n : nat) (t : option timespec) :
  only_emits is_calm (kevent cl n t).
Proof. intros w. exists [E_kevent cl n t]. split; reflexivity. Qed.

Lemma calm_clock (now_ns : Z) : only_emits is_calm (clock now_ns).
Proof. intros w. exists [E_clock]. split; reflexivity. Qed.

Lemma preserves_trace_load_handle_data (a : addr) : preserves trace (load_handle_data a).
Proof. intros w. unfold load_handle_data. destruct (heap w !! a); reflexivity. Qed.

Lemma calm_call_on_event (a : addr) (ev : Z) : only_emits is_calm (call_on_event a ev).
Proof.
  unfold call_on_event.
  apply only_emits_bind; [apply only_emits_silent, preserves_trace_load_handle_data|].
  intros d. apply only_emits_log; reflexivity.
Qed.

Lemma calm_all_receipts_succeeded (rs : list kevent_t) :
  only_emits is_calm (all_receipts_succeeded rs).
Proof.
  induction rs as [|r rs IH]; cbn [all_receipts_succeeded].
  - apply only_emits_ret.
  - apply only_emits_bind; [apply only_emits_silent, preserves_trace_c_assert|].
    intros _. apply only_emits_if; [apply only_emits_ret|exact IH].
Qed.

Lemma only_emits_for_each {A : Type} (ok : effect -> bool) (f : A -> M unit) (l : list A) :
  (forall a, only_emits ok (f a)) -> only_emits ok (for_each f l).
Proof.
  intros Hf. induction l as [|a rest IH]; cbn [for_each].
  - apply only_emits_ret.
  - apply only_emits_bind; [apply Hf|intros _; exact IH].
Qed.

Lemma calm_subscribe_failed (arg : addr) (rs : list kevent_t) :
  only_emits is_calm (subscribe_failed arg rs).
Proof.
  unfold subscribe_failed.
  apply only_emits_bind; [apply only_emits_silent, preserves_trace_load_handle_data|].
  intros d.
  apply only_emits_bind; [apply only_emits_silent, preserves_trace_modify_heap|].
  intros _. apply only_emits_bind.
  { apply only_emits_for_each. intros r. apply only_emits_when.
    apply only_emits_bind; [apply calm_kevent|]. intros _. apply only_emits_ret. }
  intros _. apply only_emits_bind; [apply only_emits_log; reflexivity|]. intros _.
  apply calm_call_on_event.
Qed.

Lemma calm_subscribe_task (arg : addr) (status : aws_task_status) :
  only_emits is_calm (s_subscribe_task arg status).
Proof.
  unfold s_subscribe_task.
  apply only_emits_bind; [apply only_emits_silent, preserves_trace_modify_impl|].
  intros _. destruct status; [|apply only_emits_ret].
  apply only_emits_bind; [apply only_emits_silent, preserves_trace_load_handle_data|].
  intros d.
  apply only_emits_bind; [apply only_emits_silent, preserves_trace_load_handle|].
  intros h. apply only_emits_bind; [apply calm_kevent|]. intros [n rs].
  apply only_emits_if; [apply calm_subscribe_failed|].
  apply only_emits_bind; [apply calm_all_receipts_succeeded|]. intros ok.
  apply only_emits_if; [|apply calm_subscribe_failed].
  apply only_emits_bind; [apply only_emits_silent, preserves_trace_load_handle_data|].
  intros d'. apply only_emits_silent, preserves_trace_modify_heap.
Qed.

Lemma calm_unsubscribe_task (arg : addr) (status : aws_task_status) :
  only_emits is_calm (s_unsubscribe_task arg status).
Proof.
  unfold s_unsubscribe_task.
  apply only_emits_bind; [apply only_emits_silent, preserves_trace_modify_impl|].
  intros _. apply only_emits_bind.
  - destruct status; [|apply only_emits_ret].
    apply only_emits_bind; [apply only_emits_silent, preserves_trace_load_handle_data|].
    intros d. apply only_emits_if; [|apply only_emits_ret].
    apply only_emits_bind; [apply only_emits_silent, preserves_trace_load_handle|].
    intros h. apply only_emits_bind; [apply calm_kevent|]. intros _.
    apply only_emits_ret.
  - intros _. unfold aws_mem_release.
    apply only_emits_bind; [apply only_emits_silent, preserves_trace_modify_heap|].
    intros _. apply only_emits_log; reflexivity.
Qed.





Lemma calm_set_next_timeout (now_ns : Z) : only_emits is_calm (set_next_timeout now_ns).
Proof.
  unfold set_next_timeout.
  apply only_emits_bind; [apply calm_clock|]. intros [e t].
  apply only_emits_bind; [apply only_emits_silent, preserves_trace_get|]. intros w0.
  apply only_emits_ret.
Qed.

End Delivery.



(** ** Events that say nothing *)

Section Silent.
Context {P : Platform}.

Lemma dispatch_silent (kevents : list kevent_t) :
  forall (io : list addr) (should : bool) (w : world),
    Forall (fun k => ident k <> pipe_read_fd (impl w) /\
                     s_aws_event_flags_from_kevent k = 0) kevents ->
    process_kevents kevents (io, should) w = Returned (io, should) w.
Proof.
  induction kevents as [|k rest IH]; intros io should w Hall; [reflexivity|].
  inversion Hall as [|? ? [Hid Hfl] Hrest]; subst.
  cbn [process_kevents]. unfold bind at 1.
  rewrite process_kevent_silent; [|apply Z.eqb_neq; exact Hid|exact Hfl].
  apply IH. exact Hrest.
Qed.
End Silent.

(** X19. An event whose translation is empty is passed over.  The
    translation of a kernel event is empty exactly when the event carries
    no error marker and either its filter is neither the read nor the write
    filter, or its payload is zero and its end-of-file flag is not set.
    The dispatch skips such an event without reading its [udata], which
    may be null or stale; a wait that reports nothing else leaves the
    world as it was and calls nobody. *)
Theorem silent_events_are_skipped (P : Platform) :
  platform_ok P = true ->
  (forall kevent,
     s_aws_event_flags_from_kevent kevent = 0 <->
     has_flag (flags kevent) EV_ERROR = false /\
     ((filter kevent <> EVFILT_READ /\ filter kevent <> EVFILT_WRITE) \/
      (data kevent = 0 /\ has_flag (flags kevent) EV_EOF = false))) /\
  (forall kevents should w,
     Forall (fun k => ident k <> pipe_read_fd (impl w) /\
                      s_aws_event_flags_from_kevent k = 0) kevents ->
     dispatch_kevents kevents should w = Returned should w).
Proof.
  intros Hok.
  destruct (platform_ok_elim P Hok) as [(HR & HW & HC & HE) [_ [Hfilt _]]].
  split.
  - intros k. unfold s_aws_event_flags_from_kevent. cbn zeta.
    destruct (has_flag (flags k) EV_ERROR).
    { rewrite Z.lor_0_l. split; [intros H; contradiction|intros [H _]; discriminate]. }
    destruct (Z.eqb_spec (filter k) EVFILT_READ) as [Hr|Hr].
    { destruct (Z.eqb_spec (data k) 0) as [Hd|Hd]; cbn [negb];
        destruct (has_flag (flags k) EV_EOF); rewrite ?Z.lor_0_l;
        split; try tauto; try (intros H; try apply Z.lor_eq_0_iff in H; tauto);
        try (intros [_ [[H _]|[H1 H2]]]; congruence). }
    destruct (Z.eqb_spec (filter k) EVFILT_WRITE) as [Hw|Hw].
    { destruct (Z.eqb_spec (data k) 0) as [Hd|Hd]; cbn [negb];
        destruct (has_flag (flags k) EV_EOF); rewrite ?Z.lor_0_l;
        split; try tauto; try (intros H; try apply Z.lor_eq_0_iff in H; tauto);
        try (intros [_ [[_ H]|[H1 H2]]]; congruence). }
    split; [intros _; split; [reflexivity|left; split; assumption]|reflexivity].
  - intros kevents should w Hall. unfold dispatch_kevents. unfold bind at 1.
    rewrite (dispatch_silent kevents [] should w Hall). reflexivity.
Qed.

(** A timer event with no [udata] and a read event without bytes for the
    record at address 1: nothing happens. *)
Lemma silent_events_are_skipped_witness :
  @dispatch_kevents (bsd64 false)
    [EV_SET 9 (-7) 0 0 1 None; EV_SET 5 (-1) 0 0 0 (Some 1%nat)] false
    (subscribed_world true) =
  Returned false (subscribed_world true).
Proof.
  refine (proj2 (silent_events_are_skipped (bsd64 false) eq_refl) _ false
            (subscribed_world true) _).
  repeat constructor; cbn; lia.
Defined.

(** ** The mutex *)

Lemma critical_sections_bare_app_le (n : nat) :
  forall a b : list effect,
    (length a <= n)%nat ->
    critical_sections_bare a = true ->
    critical_sections_bare (a ++ b) = critical_sections_bare b.
Proof.
  induction n as [|n IH]; intros a b Hlen Ha.
  - destruct a; [reflexivity|cbn in Hlen; lia].
  - destruct a as [|e a]; [reflexivity|].
    cbn [length] in Hlen.
    destruct e; cbn [critical_sections_bare app] in Ha |- *;
      try (apply IH; [lia|exact Ha]); try discriminate.
    destruct a as [|e' a]; [discriminate|].
    destruct e'; try discriminate.
    cbn [app]. apply IH; [cbn [length] in Hlen; lia|exact Ha].
Qed.

Lemma critical_sections_bare_app (a b : list effect) :
  critical_sections_bare a = true ->
  critical_sections_bare b = true ->
  critical_sections_bare (a ++ b) = true.
Proof.
  intros Ha Hb. rewrite (critical_sections_bare_app_le (length a)); [exact Hb|lia|exact Ha].
Qed.

Lemma calm_is_bare (extra : list effect) :
  forallb is_calm extra = true -> critical_sections_bare extra = true.
Proof.
  induction extra as [|e rest IH]; [reflexivity|].
  cbn [forallb]. intros H. apply andb_true_iff in H. destruct H as [He Hrest].
  destruct e; cbn in He; try discriminate; cbn [critical_sections_bare]; exact (IH Hrest).
Qed.

Section Mutex.
Context {P : Platform} {E : Environment}.

Lemma locks_briefly_of_calm {A : Type} (m : M A) : only_emits is_calm m -> locks_briefly m.
Proof.
  intros H w a w' Hrun. specialize (H w). rewrite Hrun in H.
  destruct H as (extra & Ht & Hok). exists extra. split; [exact Ht|].
  apply calm_is_bare. exact Hok.
Qed.

Lemma locks_briefly_silent {A : Type} (m : M A) : preserves trace m -> locks_briefly m.
Proof. intros H. apply locks_briefly_of_calm, only_emits_silent. exact H. Qed.

Lemma locks_briefly_ret {A : Type} (a : A) : locks_briefly (ret a).
Proof. apply locks_briefly_of_calm, only_emits_ret. Qed.

Lemma locks_briefly_bind {A B : Type} (m : M A) (k : A -> M B) :
  locks_briefly m -> (forall a, locks_briefly (k a)) -> locks_briefly (bind m k).
Proof.
  intros Hm Hk w b w' Hrun. unfold bind in Hrun.
  destruct (m w) as [a w1| | |] eqn:Hmw; try discriminate.
  destruct (Hm w a w1 Hmw) as (e1 & Ht1 & Hb1).
  destruct (Hk a w1 b w' Hrun) as (e2 & Ht2 & Hb2).
  exists (e1 ++ e2). split; [rewrite Ht2, Ht1, <- app_assoc; reflexivity|].
  apply critical_sections_bare_app; assumption.
Qed.

Lemma locks_briefly_for_each {A : Type} (f : A -> M unit) (l : list A) :
  (forall a, locks_briefly (f a)) -> locks_briefly (for_each f l).
Proof.
  intros Hf. induction l as [|a rest IH]; cbn [for_each].
  - apply locks_briefly_ret.
  - apply locks_briefly_bind; [apply Hf|intros _; exact IH].
Qed.

Lemma locks_briefly_if {A : Type} (b : bool) (m1 m2 : M A) :
  locks_briefly m1 -> locks_briefly m2 -> locks_briefly (if b then m1 else m2).
Proof. destruct b; tauto. Qed.

Lemma locks_briefly_when (b : bool) (m : M unit) :
  locks_briefly m -> locks_briefly (when b m).
Proof. intros H. destruct b; [exact H|apply locks_briefly_ret]. Qed.

Lemma locks_briefly_log (e : effect) : is_calm e = true -> locks_briefly (log e).
Proof. intros H. apply locks_briefly_of_calm, only_emits_log. exact H. Qed.

(** The four places where the mutex is taken. *)
Lemma locks_briefly_schedule (caller : thread_id_t) (t : aws_task) (at_ : Z) :
  locks_briefly (s_schedule_task_common caller t at_).
Proof.
  intros w a w' Hrun. destruct (Z.eq_dec caller (thread (impl w))) as [->|Hne].
  - rewrite schedule_on_thread_eq in Hrun. inversion Hrun; subst.
    exists []. cbn. rewrite app_nil_r. split; reflexivity.
  - rewrite (schedule_off_thread_eq caller t at_ w Hne) in Hrun. inversion Hrun; subst.
    eexists. split; [reflexivity|]. destruct (thread_signaled w); reflexivity.
Qed.

Lemma locks_briefly_stop : locks_briefly s_stop.
Proof.
  intros w a w' Hrun. rewrite stop_eq in Hrun. inversion Hrun; subst.
  destruct (event_thread_state_eqb (cross_state w) EVENT_THREAD_STATE_RUNNING).
  - eexists. split; [reflexivity|]. destruct (thread_signaled w); reflexivity.
  - eexists. split; [reflexivity|]. reflexivity.
Qed.

Lemma locks_briefly_wait : locks_briefly s_wait_for_stop_completion.
Proof.
  intros w a w' Hrun.
  destruct (DEBUG_BUILD && negb NDEBUG &&
            event_thread_state_eqb (cross_state w) EVENT_THREAD_STATE_RUNNING) eqn:Hok.
  - exfalso. apply andb_true_iff in Hok. destruct Hok as [Hok Hst].
    apply andb_true_iff in Hok. destruct Hok as [Hd Hn]. apply negb_true_iff in Hn.
    destruct w as [[th kq pr [sig q st] [sch n pst]] hp hs tr].
    unfold cross_state in Hst. cbn in Hst.
    unfold s_wait_for_stop_completion, bind, get, ret, aws_mutex_lock, aws_mutex_unlock, log,
      modify_impl, when, c_assert, aws_thread_join in Hrun.
    rewrite Hd in Hrun. cbn in Hrun. rewrite Hn, Hst in Hrun. discriminate.
  - rewrite (wait_for_stop_completion_eq w Hok) in Hrun.
    exists ((if DEBUG_BUILD then [E_mutex_lock; E_mutex_unlock] else []) ++ [E_thread_join]).
    split; [|destruct DEBUG_BUILD; reflexivity].
    unfold join_world in Hrun.
    destruct (env_thread_join _ =? 0); inversion Hrun; subst; destruct DEBUG_BUILD;
      destruct w as [[th kq pr [sig q st] [sch n pst]] hp hs tr]; cbn;
      rewrite <- ?app_assoc; reflexivity.
Qed.

Lemma locks_briefly_process_cross_thread_data : locks_briefly s_process_cross_thread_data.
Proof.
  intros w a w' Hrun. rewrite process_cross_thread_data_eq in Hrun. inversion Hrun; subst.
  eexists. split; reflexivity.
Qed.

(** The tasks and the event thread. *)
Lemma locks_briefly_call_task_fn (caller : thread_id_t) (t : aws_task)
    (status : aws_task_status) :
  locks_briefly (call_task_fn caller t status).
Proof.
  unfold call_task_fn. apply locks_briefly_bind; [apply locks_briefly_log; reflexivity|].
  intros _. destruct t as [a ts|a ts|i ts r c].
  - apply locks_briefly_of_calm, calm_subscribe_task.
  - apply locks_briefly_of_calm, calm_unsubscribe_task.
  - apply locks_briefly_for_each. intros u. apply locks_briefly_schedule.
Qed.

Lemma locks_briefly_run_all (now : Z) : locks_briefly (aws_task_scheduler_run_all now).
Proof.
  unfold aws_task_scheduler_run_all.
  apply locks_briefly_bind; [apply locks_briefly_silent, preserves_trace_get|]. intros w0.
  apply locks_briefly_bind; [apply locks_briefly_silent, preserves_trace_modify_impl|].
  intros _. apply locks_briefly_for_each. intros t. apply locks_briefly_call_task_fn.
Qed.

Lemma calm_process_kevent (kev : kevent_t) (acc : list addr * bool) :
  only_emits is_calm (process_kevent kev acc).
Proof.
  destruct acc as [io b]. unfold process_kevent.
  apply only_emits_bind; [apply only_emits_silent, preserves_trace_get|]. intros w0.
  apply only_emits_if.
  - apply only_emits_bind; [apply only_emits_log; reflexivity|]. intros _.
    apply only_emits_ret.
  - apply only_emits_if; [apply only_emits_ret|].
    destruct (udata kev) as [a|]; [|intros w; exact I].
    apply only_emits_bind; [apply only_emits_silent, preserves_trace_load_handle_data|].
    intros d.
    apply only_emits_bind; [apply only_emits_silent, preserves_trace_modify_heap|].
    intros _. apply only_emits_ret.
Qed.

Lemma calm_dispatch_kevents (kevents : list kevent_t) (b : bool) :
  only_emits is_calm (dispatch_kevents kevents b).
Proof.
  unfold dispatch_kevents. apply only_emits_bind.
  { generalize ([] : list addr, b). induction kevents as [|k rest IH]; intros acc;
      cbn [process_kevents]; [apply only_emits_ret|].
    apply only_emits_bind; [apply calm_process_kevent|exact IH]. }
  intros [io b']. apply only_emits_bind; [|intros _; apply only_emits_ret].
  apply only_emits_for_each. intros a. unfold invoke_handle_callback.
  apply only_emits_bind; [apply only_emits_silent, preserves_trace_load_handle_data|].
  intros d. apply only_emits_bind; [apply calm_call_on_event|]. intros _.
  apply only_emits_bind; [apply only_emits_silent, preserves_trace_load_handle_data|].
  intros d'. apply only_emits_silent, preserves_trace_modify_heap.
Qed.

Lemma locks_briefly_iteration (timeout : timespec) :
  locks_briefly (event_thread_iteration timeout).
Proof.
  unfold event_thread_iteration.
  apply locks_briefly_bind; [apply locks_briefly_of_calm, calm_kevent|]. intros [n evs].
  apply locks_briefly_bind.
  { apply locks_briefly_if; [|apply locks_briefly_ret].
    apply locks_briefly_bind; [apply locks_briefly_log; reflexivity|]. intros _.
    apply locks_briefly_ret. }
  intros b0.
  apply locks_briefly_bind; [apply locks_briefly_of_calm, calm_dispatch_kevents|].
  intros b.
  apply locks_briefly_bind;
    [apply locks_briefly_when, locks_briefly_process_cross_thread_data|].
  intros _. apply locks_briefly_bind; [apply locks_briefly_of_calm, calm_clock|].
  intros [e now1]. apply locks_briefly_bind; [apply locks_briefly_run_all|]. intros _.
  apply locks_briefly_of_calm, calm_set_next_timeout.
Qed.

Lemma locks_briefly_loop (fuel : nat) :
  forall timeout, locks_briefly (event_thread_loop fuel timeout).
Proof.
  induction fuel as [|fuel IH]; intros timeout w a w' Hrun; cbn [event_thread_loop] in Hrun.
  - destruct (event_thread_state_eqb _ _); [discriminate|].
    inversion Hrun; subst. exists []. rewrite app_nil_r. split; reflexivity.
  - destruct (event_thread_state_eqb _ _).
    + exact (locks_briefly_bind _ _ (locks_briefly_iteration timeout) IH w a w' Hrun).
    + inversion Hrun; subst. exists []. rewrite app_nil_r. split; reflexivity.
Qed.

Lemma locks_briefly_cancel_tasks_to_schedule (fuel : nat) (caller : thread_id_t) :
  locks_briefly (cancel_tasks_to_schedule fuel caller).
Proof.
  induction fuel as [|fuel IH]; intros w a w' Hrun; cbn [cancel_tasks_to_schedule] in Hrun.
  - destruct (Cross.tasks_to_schedule _); [|discriminate].
    inversion Hrun; subst. exists []. rewrite app_nil_r. split; reflexivity.
  - destruct (Cross.tasks_to_schedule _) as [|t rest].
    + inversion Hrun; subst. exists []. rewrite app_nil_r. split; reflexivity.
    + revert Hrun. apply locks_briefly_bind;
        [apply locks_briefly_silent, preserves_trace_modify_impl|].
      intros _. apply locks_briefly_bind; [apply locks_briefly_call_task_fn|].
      intros _. exact IH.
Qed.
End Mutex.

(** X20. Nothing happens while the mutex is held.  In what any returning
    run of a function of the loop adds to the trace, every lock of the
    mutex of the inbox is followed at once by its unlock: the critical
    sections hold assignments only, and no system call, no write to the
    pipe, no callback of a subscriber, no task function, no clock read and
    no release falls inside one.  A callback or a task can therefore call
    the scheduling functions itself without meeting a mutex that its own
    thread holds. *)
Theorem mutex_held_briefly (P : Platform) (E : Environment) :
  locks_briefly s_run /\
  locks_briefly s_stop /\
  locks_briefly s_wait_for_stop_completion /\
  (forall caller task, locks_briefly (s_schedule_task_now caller task)) /\
  (forall caller task run_at_nanos,
     locks_briefly (s_schedule_task_future caller task run_at_nanos)) /\
  (forall caller handle events on_event user_data,
     locks_briefly (s_subscribe_to_io_events caller handle events on_event user_data)) /\
  (forall caller handle, locks_briefly (s_unsubscribe_from_io_events caller handle)) /\
  (forall fuel, locks_briefly (s_event_thread_main fuel)) /\
  (forall fuel caller, locks_briefly (s_destroy fuel caller)).
Proof.
  split; [|split; [|split; [|split; [|split; [|split; [|split; [|split]]]]]]].
  - unfold s_run.
    apply locks_briefly_bind; [apply locks_briefly_silent, preserves_trace_get|]. intros w0.
    apply locks_briefly_bind; [apply locks_briefly_silent, preserves_trace_c_assert|].
    intros _.
    apply locks_briefly_bind; [apply locks_briefly_silent, preserves_trace_c_assert|].
    intros _.
    apply locks_briefly_bind; [apply locks_briefly_silent, preserves_trace_modify_impl|].
    intros _. apply locks_briefly_bind.
    { intros w a w' Hrun. inversion Hrun; subst. exists [E_thread_launch].
      split; reflexivity. }
    intros err. apply locks_briefly_if; [|apply locks_briefly_ret].
    apply locks_briefly_bind; [apply locks_briefly_silent, preserves_trace_modify_impl|].
    intros _. apply locks_briefly_ret.
  - apply locks_briefly_stop.
  - apply locks_briefly_wait.
  - intros caller task. apply locks_briefly_schedule.
  - intros caller task run_at_nanos. apply locks_briefly_schedule.
  - intros caller handle events on_event user_data. unfold s_subscribe_to_io_events.
    apply locks_briefly_bind; [apply locks_briefly_silent, preserves_trace_load_handle|].
    intros h.
    apply locks_briefly_bind; [apply locks_briefly_silent, preserves_trace_c_assert|].
    intros _.
    apply locks_briefly_bind; [apply locks_briefly_silent, preserves_trace_c_assert|].
    intros _.
    apply locks_briefly_bind; [apply locks_briefly_silent, preserves_trace_c_assert|].
    intros _.
    apply locks_briefly_bind; [apply locks_briefly_silent, preserves_trace_mem_acquire|].
    intros [a|]; [|apply locks_briefly_ret].
    apply locks_briefly_bind; [apply locks_briefly_silent, preserves_trace_modify_heap|].
    intros _.
    apply locks_briefly_bind; [apply locks_briefly_silent, preserves_trace_modify_handles|].
    intros _. apply locks_briefly_bind; [apply locks_briefly_schedule|]. intros _.
    apply locks_briefly_ret.
  - intros caller handle. unfold s_unsubscribe_from_io_events.
    apply locks_briefly_bind; [apply locks_briefly_silent, preserves_trace_load_handle|].
    intros h.
    apply locks_briefly_bind; [apply locks_briefly_silent, preserves_trace_c_assert|].
    intros _. destruct (additional_data h) as [a|]; [|intros w x w' H; discriminate H].
    apply locks_briefly_bind; [apply locks_briefly_silent, preserves_trace_modify_handles|].
    intros _. apply locks_briefly_bind; [apply locks_briefly_schedule|]. intros _.
    apply locks_briefly_ret.
  - intros fuel. unfold s_event_thread_main.
    apply locks_briefly_bind; [apply locks_briefly_silent, preserves_trace_get|]. intros w0.
    apply locks_briefly_bind; [apply locks_briefly_silent, preserves_trace_c_assert|].
    intros _.
    apply locks_briefly_bind; [apply locks_briefly_silent, preserves_trace_modify_impl|].
    intros _. apply locks_briefly_loop.
  - intros fuel caller. unfold s_destroy.
    apply locks_briefly_bind; [apply locks_briefly_stop|]. intros _.
    apply locks_briefly_bind; [apply locks_briefly_wait|]. intros err.
    destruct err.
    + unfold aws_task_scheduler_clean_up.
      apply locks_briefly_bind.
      { apply locks_briefly_bind; [apply locks_briefly_silent, preserves_trace_get|].
        intros w0.
        apply locks_briefly_bind;
          [apply locks_briefly_silent, preserves_trace_modify_impl|].
        intros _. apply locks_briefly_for_each. intros t.
        apply locks_briefly_call_task_fn. }
      intros _.
      apply locks_briefly_bind; [apply locks_briefly_cancel_tasks_to_schedule|]. intros _.
      apply locks_briefly_bind; [apply locks_briefly_silent, preserves_trace_get|].
      intros w0.
      apply locks_briefly_bind; [apply locks_briefly_silent, preserves_trace_c_assert|].
      intros _. apply locks_briefly_bind; [apply locks_briefly_log; reflexivity|].
      intros _.
      apply locks_briefly_bind; [apply locks_briefly_silent, preserves_trace_get|].
      intros w1. apply locks_briefly_bind; [apply locks_briefly_of_calm, calm_kevent|].
      intros _. apply locks_briefly_log. reflexivity.
    + apply locks_briefly_bind; [apply locks_briefly_silent, preserves_trace_c_assert|].
      intros _. apply locks_briefly_ret.
Qed.

(** Thread 2 stops [pending_world]: the mutex is locked and unlocked, then
    the pipe is written. *)
Lemma mutex_held_briefly_witness :
  exists w' extra,
    s_stop pending_world = Returned AWS_OP_SUCCESS w' /\
    trace w' = trace pending_world ++ extra /\
    critical_sections_bare extra = true.
Proof.
  destruct (proj1 (proj2 (mutex_held_briefly (bsd64 false) quiet_env))
              pending_world AWS_OP_SUCCESS pending_world_stopped eq_refl)
    as (extra & Ht & Hb).
  exists pending_world_stopped, extra. split; [reflexivity|]. split; assumption.
Defined.

(** ** Between the unsubscription and its task *)



(** ** What a teardown never does *)

Section Teardown.
Context {P : Platform} {E : Environment}.

Lemma teardown_of_handoff (e : effect) :
  is_handoff_effect e = true -> is_teardown_effect e = true.
Proof. destruct e; cbn; congruence. Qed.

Lemma only_emits_teardown_call_task_fn (caller : thread_id_t) (t : aws_task) :
  only_emits is_teardown_effect (call_task_fn caller t AWS_TASK_STATUS_CANCELED).
Proof.
  unfold call_task_fn. apply only_emits_bind; [apply only_emits_log; reflexivity|].
  intros _. destruct t as [a ts|a ts|i ts r c].
  - unfold s_subscribe_task.
    apply only_emits_bind; [apply only_emits_silent, preserves_trace_modify_impl|].
    intros _. apply only_emits_ret.
  - unfold s_unsubscribe_task.
    apply only_emits_bind; [apply only_emits_silent, preserves_trace_modify_impl|].
    intros _. apply only_emits_bind; [apply only_emits_ret|]. intros _.
    unfold aws_mem_release.
    apply only_emits_bind; [apply only_emits_silent, preserves_trace_modify_heap|].
    intros _. apply only_emits_log. reflexivity.
  - apply only_emits_for_each. intros u.
    apply (only_emits_weaken is_handoff_effect);
      [apply teardown_of_handoff|apply only_emits_schedule].
Qed.

Lemma only_emits_teardown_cancel_tasks_to_schedule (fuel : nat) (caller : thread_id_t) :
  only_emits is_teardown_effect (cancel_tasks_to_schedule fuel caller).
Proof.
  induction fuel as [|fuel IH]; intros w; cbn [cancel_tasks_to_schedule].
  - destruct (Cross.tasks_to_schedule _); [|exact I].
    exists []. rewrite app_nil_r. split; reflexivity.
  - destruct (Cross.tasks_to_schedule _) as [|t rest].
    + exists []. rewrite app_nil_r. split; reflexivity.
    + revert w. apply only_emits_bind;
        [apply only_emits_silent, preserves_trace_modify_impl|].
      intros _. apply only_emits_bind; [apply only_emits_teardown_call_task_fn|].
      intros _. exact IH.
Qed.

Lemma only_emits_teardown_stop : only_emits is_teardown_effect s_stop.
Proof.
  intros w. rewrite stop_eq. cbn [ends_with].
  destruct (event_thread_state_eqb (cross_state w) EVENT_THREAD_STATE_RUNNING).
  - eexists. split; [reflexivity|]. destruct (thread_signaled w); reflexivity.
  - eexists. split; reflexivity.
Qed.

Lemma only_emits_teardown_wait : only_emits is_teardown_effect s_wait_for_stop_completion.
Proof.
  unfold s_wait_for_stop_completion.
  apply only_emits_bind.
  { apply only_emits_when.
    apply only_emits_bind; [apply only_emits_log; reflexivity|]. intros _.
    apply only_emits_bind; [apply only_emits_silent, preserves_trace_get|]. intros w0.
    apply only_emits_bind; [apply only_emits_silent, preserves_trace_c_assert|].
    intros _. apply only_emits_log. reflexivity. }
  intros _. apply only_emits_bind.
  { intros w. exists [E_thread_join]. split; reflexivity. }
  intros err. apply only_emits_if; [apply only_emits_ret|].
  apply only_emits_bind; [apply only_emits_silent, preserves_trace_modify_impl|].
  intros _.
  apply only_emits_bind; [apply only_emits_silent, preserves_trace_modify_impl|].
  intros _. apply only_emits_ret.
Qed.
End Teardown.

(** X22. A teardown tears down only.  However [s_destroy] ends, by a
    return, by a failed assertion or with tasks left to cancel, what it has
    added to the trace is made of locks and unlocks of the mutex, writes to
    the pipe, the join of the thread, calls of task functions, releases of
    records, deletions from the kernel queue and the final clean-up: it
    calls no subscriber, registers nothing with the kernel, waits for no
    event, reads no clock, raises no error and launches no thread.  So a
    subscribe task that it cancels registers nothing, and an unsubscribe
    task that it cancels releases its record without a call to the
    kernel. *)
Theorem s_destroy_tears_down_only (P : Platform) (E : Environment)
    (fuel : nat) (caller : thread_id_t) :
  only_emits is_teardown_effect (s_destroy fuel caller).
Proof.
  unfold s_destroy.
  apply only_emits_bind; [apply only_emits_teardown_stop|]. intros _.
  apply only_emits_bind; [apply only_emits_teardown_wait|]. intros err.
  destruct err.
  - unfold aws_task_scheduler_clean_up.
    apply only_emits_bind.
    { apply only_emits_bind; [apply only_emits_silent, preserves_trace_get|].
      intros w0.
      apply only_emits_bind; [apply only_emits_silent, preserves_trace_modify_impl|].
      intros _. apply only_emits_for_each. intros t.
      apply only_emits_teardown_call_task_fn. }
    intros _.
    apply only_emits_bind; [apply only_emits_teardown_cancel_tasks_to_schedule|].
    intros _.
    apply only_emits_bind; [apply only_emits_silent, preserves_trace_get|]. intros w0.
    apply only_emits_bind; [apply only_emits_silent, preserves_trace_c_assert|].
    intros _. apply only_emits_bind; [apply only_emits_log; reflexivity|]. intros _.
    apply only_emits_bind; [apply only_emits_silent, preserves_trace_get|]. intros w1.
    apply only_emits_bind.
    { intros w. eexists. split; [reflexivity|]. cbn. rewrite Z.eqb_refl. reflexivity. }
    intros _. apply only_emits_log. reflexivity.
  - apply only_emits_bind; [apply only_emits_silent, preserves_trace_c_assert|].
    intros _. apply only_emits_ret.
Qed.
